(** * Buffer-pool core: LRU-K replacer and extendible hash table

    A shallow embedding of [src/lru_k_replacer.cpp] and
    [src/extendible_hash_table.cpp].

    Conventions.
    - [size_t] values are integers in [0, 2^64); unsigned arithmetic wraps
      and the wrap is written [to_size_t].
    - [int] and [frame_id_t] values are integers in [-2^31, 2^31).  Signed
      overflow has no defined result in C++; an operation that overflows
      makes the embedded function return [None].
    - [std::unordered_map] is a [gmap]; the order in which a range-for visits
      its entries is not fixed by the language, so it is an argument of the
      function that iterates.
    - [std::shared_ptr<Bucket>] is an address into a store of buckets. *)

From Stdlib Require Import ZArith Lia.
From stdpp Require Import base option list strings gmap fin_maps fin_sets.

Local Open Scope Z_scope.

#[local] Set Warnings "-clear-no-such-hyp".

(** [static_cast<size_t>]: reduction modulo 2^64. *)
Definition to_size_t (z : Z) : Z := z mod 2 ^ 64.

(** [std::numeric_limits<size_t>::max()] and [::min()]. *)
Definition SIZE_MAX : Z := 2 ^ 64 - 1.
Definition SIZE_MIN : Z := 0.

(** [std::numeric_limits<int>::max()]. *)
Definition INT_MAX : Z := 2 ^ 31 - 1.

(* ===================================================================== *)
(** * LRU-K replacer                                                      *)
(* ===================================================================== *)

Module LRUK.

(** The private members of [class LRUKReplacer] ([latch_] left out: every
    public method holds it from start to end). *)
Record LRUKReplacer := mkReplacer {
  access_history_ : gmap Z (list Z);
  evictable_ : gmap Z bool;
  replacer_size_ : Z;
  k_ : Z;
  current_timestamp_ : Z;
  curr_size_ : Z
}.

(** [LRUKReplacer::LRUKReplacer(num_frames, k)]. *)
Definition new (num_frames k : Z) : LRUKReplacer :=
  {| access_history_ := ∅; evictable_ := ∅;
     replacer_size_ := num_frames; k_ := k;
     current_timestamp_ := 0; curr_size_ := 0 |}.

(** [evictable_[id]] used as an rvalue: [operator[]] value-initialises a
    missing entry to [false] and stores it. *)
Definition evictable_at (ev : gmap Z bool) (id : Z) : bool * gmap Z bool :=
  match ev !! id with
  | Some b => (b, ev)
  | None => (false, <[id := false]> ev)
  end.

(** The locals of [Evict] that live across loop iterations, together with
    [evictable_], which the loop can extend through [operator[]]. *)
Record scan := mkScan {
  victim_id : Z;
  max_backward_distance : Z;
  latest_access_time : Z;
  found_candidate_with_less_than_k_accesses : bool;
  scan_evictable : gmap Z bool
}.

Definition scan_init (ev : gmap Z bool) : scan :=
  {| victim_id := -1;
     max_backward_distance := SIZE_MIN;
     latest_access_time := SIZE_MAX;
     found_candidate_with_less_than_k_accesses := false;
     scan_evictable := ev |}.

(** One iteration of the range-for in [Evict], lines 18-65.  [None] is an
    out-of-range [history[..]] or [back()] on an empty vector. *)
Definition Evict_visit (k now : Z) (sc : scan) (entry : Z * list Z) : option scan :=
  let '(id, history) := entry in
  let '(ev_id, ev) := evictable_at (scan_evictable sc) id in
  if negb ev_id then
    Some {| victim_id := victim_id sc;
            max_backward_distance := max_backward_distance sc;
            latest_access_time := latest_access_time sc;
            found_candidate_with_less_than_k_accesses :=
              found_candidate_with_less_than_k_accesses sc;
            scan_evictable := ev |}
  else
    let size := Z.of_nat (length history) in
    '(found, backward_distance) ←
      (if size <? k then
         h0 ← history !! 0%nat; Some (true, h0)
       else
         hk ← history !! Z.to_nat (size - k);
         Some (found_candidate_with_less_than_k_accesses sc, to_size_t (now - hk)));
    if found : bool then
      if backward_distance <? latest_access_time sc then
        Some {| victim_id := id;
                max_backward_distance := max_backward_distance sc;
                latest_access_time := backward_distance;
                found_candidate_with_less_than_k_accesses := found;
                scan_evictable := ev |}
      else
        Some {| victim_id := victim_id sc;
                max_backward_distance := max_backward_distance sc;
                latest_access_time := latest_access_time sc;
                found_candidate_with_less_than_k_accesses := found;
                scan_evictable := ev |}
    else
      (* [history.back()]: here [history[size - k]] exists, so the vector is
         not empty and reading the last element first changes nothing *)
      back ← last history;
      if (backward_distance >? max_backward_distance sc)
         || ((backward_distance =? max_backward_distance sc)
             && (back <? latest_access_time sc))
      then
        Some {| victim_id := id;
                max_backward_distance := backward_distance;
                latest_access_time := back;
                found_candidate_with_less_than_k_accesses := found;
                scan_evictable := ev |}
      else
        Some {| victim_id := victim_id sc;
                max_backward_distance := max_backward_distance sc;
                latest_access_time := latest_access_time sc;
                found_candidate_with_less_than_k_accesses := found;
                scan_evictable := ev |}.

(** The whole range-for, over the entries in the order they are visited. *)
Fixpoint Evict_scan (k now : Z) (order : list (Z * list Z)) (sc : scan) : option scan :=
  match order with
  | [] => Some sc
  | entry :: rest => sc' ← Evict_visit k now sc entry; Evict_scan k now rest sc'
  end.

(** [LRUKReplacer::Evict].  The result is the out-parameter ([None] for a
    [false] return) and the new state. *)
Definition Evict_in (order : list (Z * list Z)) (r : LRUKReplacer)
  : option (option Z * LRUKReplacer) :=
  sc ← Evict_scan (k_ r) (current_timestamp_ r) order (scan_init (evictable_ r));
  if victim_id sc =? -1 then
    Some (None,
          {| access_history_ := access_history_ r;
             evictable_ := scan_evictable sc;
             replacer_size_ := replacer_size_ r; k_ := k_ r;
             current_timestamp_ := current_timestamp_ r;
             curr_size_ := curr_size_ r |})
  else
    Some (Some (victim_id sc),
          {| access_history_ := delete (victim_id sc) (access_history_ r);
             evictable_ := <[victim_id sc := false]> (scan_evictable sc);
             replacer_size_ := replacer_size_ r; k_ := k_ r;
             current_timestamp_ := current_timestamp_ r;
             curr_size_ := to_size_t (curr_size_ r - 1) |}).

(** The orders in which the range-for may visit [access_history_]. *)
Definition visit_order (r : LRUKReplacer) (order : list (Z * list Z)) : Prop :=
  order ≡ₚ map_to_list (access_history_ r).

(** [LRUKReplacer::RecordAccess]. *)
Definition RecordAccess (r : LRUKReplacer) (frame_id : Z) : LRUKReplacer :=
  let ah :=
    match access_history_ r !! frame_id with
    | None => <[frame_id := []]> (access_history_ r)
    | Some _ => access_history_ r
    end in
  {| access_history_ := alter (λ h, h ++ [current_timestamp_ r]) frame_id ah;
     evictable_ := evictable_ r;
     replacer_size_ := replacer_size_ r; k_ := k_ r;
     current_timestamp_ := to_size_t (current_timestamp_ r + 1);
     curr_size_ := curr_size_ r |}.

(** [LRUKReplacer::SetEvictable]. *)
Definition SetEvictable (r : LRUKReplacer) (frame_id : Z) (set_evictable : bool)
  : LRUKReplacer :=
  match access_history_ r !! frame_id with
  | None => r
  | Some _ =>
    let '(cur, ev) := evictable_at (evictable_ r) frame_id in
    if negb (eqb cur set_evictable) then
      {| access_history_ := access_history_ r;
         evictable_ := <[frame_id := set_evictable]> ev;
         replacer_size_ := replacer_size_ r; k_ := k_ r;
         current_timestamp_ := current_timestamp_ r;
         curr_size_ :=
           if set_evictable then to_size_t (curr_size_ r + 1)
           else to_size_t (curr_size_ r - 1) |}
    else
      {| access_history_ := access_history_ r;
         evictable_ := ev;
         replacer_size_ := replacer_size_ r; k_ := k_ r;
         current_timestamp_ := current_timestamp_ r;
         curr_size_ := curr_size_ r |}
  end.

(** [LRUKReplacer::Remove].  The [&&] does not evaluate [evictable_[..]]
    for a frame without history. *)
Definition Remove (r : LRUKReplacer) (frame_id : Z) : LRUKReplacer :=
  match access_history_ r !! frame_id with
  | None => r
  | Some _ =>
    let '(cur, ev) := evictable_at (evictable_ r) frame_id in
    if cur then
      {| access_history_ := delete frame_id (access_history_ r);
         evictable_ := <[frame_id := false]> ev;
         replacer_size_ := replacer_size_ r; k_ := k_ r;
         current_timestamp_ := current_timestamp_ r;
         curr_size_ := to_size_t (curr_size_ r - 1) |}
    else
      {| access_history_ := access_history_ r;
         evictable_ := ev;
         replacer_size_ := replacer_size_ r; k_ := k_ r;
         current_timestamp_ := current_timestamp_ r;
         curr_size_ := curr_size_ r |}
  end.

(** An entry of [evictable_] that counts for [Size]. *)
Definition is_true_entry (e : Z * bool) : Prop := e.2 = true.

(** [LRUKReplacer::Size]: the number of entries of [evictable_] whose
    value is [true]. *)
Definition Size (r : LRUKReplacer) : Z :=
  Z.of_nat (size (filter is_true_entry (evictable_ r))).

(** What a caller can tell about one frame. *)
Definition hist (r : LRUKReplacer) (f : Z) : option (list Z) := access_history_ r !! f.
Definition tracked (r : LRUKReplacer) (f : Z) : Prop := is_Some (access_history_ r !! f).
Definition evictable (r : LRUKReplacer) (f : Z) : bool := default false (evictable_ r !! f).

(** Backward K-distance of a history of at least [k] accesses. *)
Definition k_distance (k now : Z) (h : list Z) : option Z :=
  hk ← h !! Z.to_nat (Z.of_nat (length h) - k); Some (to_size_t (now - hk)).

(** The last access of a history. *)
Definition last_access (h : list Z) : option Z := last h.

(** A frame of distance [d] and last access [b] is no worse a victim than one
    of distance [d'] and last access [b']: greater distance, or the same
    distance and an older or equal last access. *)
Definition outranks (d b d' b' : Z) : Prop := d' < d ∨ (d' = d ∧ b ≤ b').

(** ** Sequences of calls *)

Inductive op :=
| OpRecordAccess (frame_id : Z)
| OpSetEvictable (frame_id : Z) (set_evictable : bool)
| OpRemove (frame_id : Z)
| OpEvict.

Inductive step : LRUKReplacer → op → LRUKReplacer → Prop :=
| step_RecordAccess r f : step r (OpRecordAccess f) (RecordAccess r f)
| step_SetEvictable r f b : step r (OpSetEvictable f b) (SetEvictable r f b)
| step_Remove r f : step r (OpRemove f) (Remove r f)
| step_Evict r order out r' :
    visit_order r order → Evict_in order r = Some (out, r') → step r OpEvict r'.

Inductive run : LRUKReplacer → list op → LRUKReplacer → Prop :=
| run_nil r : run r [] r
| run_cons r o r1 os r2 : step r o r1 → run r1 os r2 → run r (o :: os) r2.

(** The frames a sequence of calls records an access for. *)
Fixpoint recorded (os : list op) : gset Z :=
  match os with
  | [] => ∅
  | OpRecordAccess f :: os' => {[f]} ∪ recorded os'
  | _ :: os' => recorded os'
  end.

(** Deterministic replay for the scenarios: [Evict] visits the entries in
    the order [pick] chooses. *)
Definition replay_step (pick : LRUKReplacer → list (Z * list Z))
    (r : LRUKReplacer) (o : op) : option LRUKReplacer :=
  match o with
  | OpRecordAccess f => Some (RecordAccess r f)
  | OpSetEvictable f b => Some (SetEvictable r f b)
  | OpRemove f => Some (Remove r f)
  | OpEvict => snd <$> Evict_in (pick r) r
  end.

Fixpoint replay (pick : LRUKReplacer → list (Z * list Z))
    (r : LRUKReplacer) (os : list op) : option LRUKReplacer :=
  match os with
  | [] => Some r
  | o :: os' => r1 ← replay_step pick r o; replay pick r1 os'
  end.

(** The iteration order of the map's own enumeration. *)
Definition own_order (r : LRUKReplacer) : list (Z * list Z) :=
  map_to_list (access_history_ r).

(** ** Scenario states *)

(** K = 2; frame 1 is accessed four times, then frame 2 once; both are made
    evictable. *)
Definition skew_calls : list op :=
  [OpRecordAccess 1; OpRecordAccess 1; OpRecordAccess 1; OpRecordAccess 1;
   OpRecordAccess 2; OpSetEvictable 1 true; OpSetEvictable 2 true].

Definition skew_state : LRUKReplacer :=
  {| access_history_ := {[ 1 := [0; 1; 2; 3]; 2 := [4] ]};
     evictable_ := {[ 1 := true; 2 := true ]};
     replacer_size_ := 7; k_ := 2;
     current_timestamp_ := 5; curr_size_ := 2 |}.

(** Scenario R2 of the specification. *)
Definition R2_calls : list op :=
  [OpRecordAccess 1; OpRecordAccess 2; OpRecordAccess 1; OpRecordAccess 2;
   OpRecordAccess 3; OpRecordAccess 1;
   OpSetEvictable 1 true; OpSetEvictable 2 true; OpSetEvictable 3 true].

Definition R2_state : LRUKReplacer :=
  {| access_history_ := {[ 1 := [0; 2; 5]; 2 := [1; 3]; 3 := [4] ]};
     evictable_ := {[ 1 := true; 2 := true; 3 := true ]};
     replacer_size_ := 7; k_ := 2;
     current_timestamp_ := 6; curr_size_ := 3 |}.

(** Two frames in a replacer built for one. *)
Definition crowd_calls : list op :=
  [OpRecordAccess 0; OpRecordAccess 1; OpSetEvictable 0 true; OpSetEvictable 1 true].

Definition crowd_state : LRUKReplacer :=
  {| access_history_ := {[ 0 := [0]; 1 := [1] ]};
     evictable_ := {[ 0 := true; 1 := true ]};
     replacer_size_ := 1; k_ := 2;
     current_timestamp_ := 2; curr_size_ := 2 |}.

(** Every evictable frame has a history, and every frame with a history is
    in [S]. *)
Definition within (r : LRUKReplacer) (S : gset Z) : Prop :=
  (∀ f, evictable_ r !! f = Some true → is_Some (access_history_ r !! f))
  ∧ dom (access_history_ r) ⊆ S.

(** The number of [RecordAccess] calls in a sequence. *)
Fixpoint accesses (os : list op) : Z :=
  match os with
  | [] => 0
  | OpRecordAccess _ :: os' => 1 + accesses os'
  | _ :: os' => accesses os'
  end.

(** The histories a clock that has not wrapped leaves: no history is empty,
    every timestamp is in the past, each history increases strictly, and no
    timestamp belongs to two frames. *)
Record timely (r : LRUKReplacer) : Prop := mkTimely {
  timely_clock : 0 ≤ current_timestamp_ r < 2 ^ 64;
  timely_nonempty : ∀ f h, access_history_ r !! f = Some h → h ≠ [];
  timely_past : ∀ f h (i : nat) t,
    access_history_ r !! f = Some h → h !! i = Some t →
    0 ≤ t < current_timestamp_ r;
  timely_increasing : ∀ f h (i j : nat) ti tj,
    access_history_ r !! f = Some h → h !! i = Some ti → h !! j = Some tj →
    (i < j)%nat → ti < tj;
  timely_distinct : ∀ f g hf hg (i j : nat) t,
    access_history_ r !! f = Some hf → access_history_ r !! g = Some hg →
    hf !! i = Some t → hg !! j = Some t → f = g
}.

(** Only frame -1, made evictable: [Evict] keeps its initial [victim_id]. *)
Definition minus_one_calls : list op := [OpRecordAccess (-1); OpSetEvictable (-1) true].

(** ** Facts about the state after the scenario calls *)

Lemma own_order_visit r : visit_order r (own_order r).
Proof. unfold visit_order, own_order. reflexivity. Qed.

Lemma replay_run pick r os r' :
  (∀ s, visit_order s (pick s)) → replay pick r os = Some r' → run r os r'.
Proof.
  intros Hpick. revert r. induction os as [|o os IH]; intros r Hr; simpl in Hr.
  - injection Hr as <-. constructor.
  - destruct (replay_step pick r o) as [r1|] eqn:Hstep; simpl in Hr; [|discriminate].
    apply run_cons with r1; [|by apply IH].
    destruct o; simpl in Hstep.
    + injection Hstep as <-. constructor.
    + injection Hstep as <-. constructor.
    + injection Hstep as <-. constructor.
    + destruct (Evict_in (pick r) r) as [[out r2]|] eqn:He; simpl in Hstep; [|discriminate].
      injection Hstep as <-. by eapply step_Evict.
Qed.

Lemma skew_state_replay : replay own_order (new 7 2) skew_calls = Some skew_state.
Proof. vm_compute. reflexivity. Qed.

Lemma skew_state_run : run (new 7 2) skew_calls skew_state.
Proof. apply (replay_run own_order); [apply own_order_visit | apply skew_state_replay]. Qed.

Lemma R2_state_replay : replay own_order (new 7 2) R2_calls = Some R2_state.
Proof. vm_compute. reflexivity. Qed.

Lemma crowd_state_replay : replay own_order (new 1 2) crowd_calls = Some crowd_state.
Proof. vm_compute. reflexivity. Qed.

Lemma crowd_state_run : run (new 1 2) crowd_calls crowd_state.
Proof. apply (replay_run own_order); [apply own_order_visit | apply crowd_state_replay]. Qed.

(** In the R2 state the first victim depends on the visiting order: frame 3
    when it is met before frame 2, frame 2 otherwise. *)
Lemma R2_first_victim_by_order :
  fst <$> Evict_in [(3, [4]); (2, [1; 3]); (1, [0; 2; 5])] R2_state = Some (Some 3)
  ∧ fst <$> Evict_in [(3, [4]); (1, [0; 2; 5]); (2, [1; 3])] R2_state = Some (Some 3)
  ∧ fst <$> Evict_in [(1, [0; 2; 5]); (3, [4]); (2, [1; 3])] R2_state = Some (Some 3)
  ∧ fst <$> Evict_in [(1, [0; 2; 5]); (2, [1; 3]); (3, [4])] R2_state = Some (Some 2)
  ∧ fst <$> Evict_in [(2, [1; 3]); (1, [0; 2; 5]); (3, [4])] R2_state = Some (Some 2)
  ∧ fst <$> Evict_in [(2, [1; 3]); (3, [4]); (1, [0; 2; 5])] R2_state = Some (Some 2).
Proof. repeat split; vm_compute; reflexivity. Qed.

(** With the map enumerated as [own_order] does, R2 evicts 3 and then 2. *)
Lemma R2_own_order :
  ∃ r1 r2, Evict_in (own_order R2_state) R2_state = Some (Some 3, r1)
           ∧ Evict_in (own_order r1) r1 = Some (Some 2, r2).
Proof.
  eexists _, _. split; [vm_compute; reflexivity|].
  vm_compute; reflexivity.
Qed.

(** Scenarios R1, R3 and R4 of the specification, with the map enumerated as
    [own_order] does. *)
Example R1_evicts_oldest :
  ∃ r r',
    replay own_order (new 7 2)
      [OpRecordAccess 1; OpRecordAccess 2; OpRecordAccess 3;
       OpSetEvictable 1 true; OpSetEvictable 2 true; OpSetEvictable 3 true] = Some r
    ∧ Evict_in (own_order r) r = Some (Some 1, r') ∧ Size r' = 2.
Proof.
  eexists _, _. split; [vm_compute; reflexivity|].
  split; [vm_compute; reflexivity|]. vm_compute; reflexivity.
Qed.

Example R3_pinned_is_skipped :
  ∃ r r',
    replay own_order (new 7 2) [OpRecordAccess 7; OpSetEvictable 7 false] = Some r
    ∧ Evict_in (own_order r) r = Some (None, r').
Proof.
  eexists _, _. split; [vm_compute; reflexivity|].
  vm_compute; reflexivity.
Qed.

Example R4_remove_resets_history :
  ∃ r,
    replay own_order (new 7 2)
      [OpRecordAccess 9; OpSetEvictable 9 true; OpRemove 9; OpRecordAccess 9] = Some r
    ∧ hist r 9 = Some [1].
Proof.
  eexists. split; [vm_compute; reflexivity|]. vm_compute; reflexivity.
Qed.

(** C1. In the state reached by four accesses to frame 1 followed by one
    access to frame 2 (K = 2, both evictable), frame 2 is the only evictable
    frame with fewer than K accesses, and yet [Evict] returns frame 1 in
    whatever order the loop visits the map. *)
Theorem Evict_skew_returns_frame_with_k_accesses (order : list (Z * list Z)) :
  visit_order skew_state order →
  run (new 7 2) skew_calls skew_state
  ∧ hist skew_state 1 = Some [0; 1; 2; 3]
  ∧ hist skew_state 2 = Some [4]
  ∧ evictable skew_state 1 = true
  ∧ evictable skew_state 2 = true
  ∧ Z.of_nat (length [4]) < k_ skew_state
  ∧ fst <$> Evict_in order skew_state = Some (Some 1).
Proof.
  intros Hord. split; [apply skew_state_run|].
  do 5 (split; [reflexivity|]).
  unfold visit_order in Hord.
  assert (Hl : map_to_list (access_history_ skew_state)
               = [(2, [4]); (1, [0; 1; 2; 3])]) by (vm_compute; reflexivity).
  rewrite Hl in Hord. symmetry in Hord.
  apply Permutation_length_2_inv in Hord as [-> | ->]; vm_compute; reflexivity.
Qed.

Lemma Evict_skew_witness :
  visit_order skew_state [(1, [0; 1; 2; 3]); (2, [4])]
  ∧ fst <$> Evict_in [(1, [0; 1; 2; 3]); (2, [4])] skew_state = Some (Some 1).
Proof.
  assert (H : visit_order skew_state [(1, [0; 1; 2; 3]); (2, [4])]).
  { unfold visit_order.
    change (map_to_list (access_history_ skew_state))
      with (own_order skew_state).
    replace (own_order skew_state) with [(2, [4]); (1, [0; 1; 2; 3])]
      by (vm_compute; reflexivity).
    apply perm_swap. }
  split; [exact H|].
  apply (Evict_skew_returns_frame_with_k_accesses _ H).
Defined.

(** ** [evictable_] and [Size] *)

Lemma evictable_at_value ev id : (evictable_at ev id).1 = default false (ev !! id).
Proof. unfold evictable_at. by destruct (ev !! id). Qed.

Lemma evictable_at_lookup ev id f :
  default false ((evictable_at ev id).2 !! f) = default false (ev !! f).
Proof.
  unfold evictable_at. destruct (ev !! id) eqn:E; simpl; [done|].
  destruct (decide (id = f)) as [->|Hne].
  - by rewrite lookup_insert_eq, E.
  - by rewrite lookup_insert_ne.
Qed.

Lemma evictable_at_true ev id f :
  (evictable_at ev id).2 !! f = Some true ↔ ev !! f = Some true.
Proof.
  unfold evictable_at. destruct (ev !! id) eqn:E; simpl; [done|].
  destruct (decide (id = f)) as [->|Hne].
  - rewrite lookup_insert_eq, E. split; intros; discriminate.
  - by rewrite lookup_insert_ne.
Qed.

Lemma evictable_at_filter ev id :
  filter is_true_entry (evictable_at ev id).2 = filter is_true_entry ev.
Proof.
  unfold evictable_at. destruct (ev !! id) eqn:E; simpl; [done|].
  apply map_filter_insert_not'; [unfold is_true_entry; simpl; discriminate|].
  intros y Hy. congruence.
Qed.

Lemma filter_set_false (ev : gmap Z bool) (id : Z) :
  filter is_true_entry (<[id := false]> ev) = delete id (filter is_true_entry ev).
Proof.
  rewrite map_filter_insert_False by (unfold is_true_entry; simpl; discriminate).
  apply map_filter_delete.
Qed.

Lemma filter_lookup_true (ev : gmap Z bool) (f : Z) :
  filter is_true_entry ev !! f = Some true ↔ ev !! f = Some true.
Proof. rewrite map_lookup_filter_Some. unfold is_true_entry. simpl. tauto. Qed.

(** ** The range-for of [Evict] only ever adds [false] entries, and a victim
    other than the initial -1 is a key of the visited entries *)

Lemma Evict_visit_evictable k now sc e sc' :
  Evict_visit k now sc e = Some sc' →
  scan_evictable sc' = (evictable_at (scan_evictable sc) e.1).2.
Proof.
  unfold Evict_visit. destruct e as [id history]. simpl.
  destruct (evictable_at (scan_evictable sc) id) as [b ev]. simpl.
  destruct b; simpl.
  - intros H. apply bind_Some in H as [[found bd] [_ H]].
    destruct found.
    + destruct (bd <? latest_access_time sc); by injection H as <-.
    + apply bind_Some in H as [back [_ H]].
      destruct (_ || _); by injection H as <-.
  - by intros [= <-].
Qed.

Lemma Evict_scan_true k now order : ∀ sc sc' f,
  Evict_scan k now order sc = Some sc' →
  (scan_evictable sc' !! f = Some true ↔ scan_evictable sc !! f = Some true).
Proof.
  induction order as [|e rest IH]; intros sc sc' f H; simpl in H.
  - by injection H as <-.
  - apply bind_Some in H as [sc1 [H1 H2]].
    rewrite (IH _ _ f H2), (Evict_visit_evictable _ _ _ _ _ H1).
    apply evictable_at_true.
Qed.

Lemma Evict_in_state order r out r' :
  Evict_in order r = Some (out, r') →
  (∀ f, evictable_ r' !! f = Some true → evictable_ r !! f = Some true ∧ out ≠ Some f)
  ∧ access_history_ r' = match out with
                         | Some v => delete v (access_history_ r)
                         | None => access_history_ r
                         end.
Proof.
  unfold Evict_in. intros H. apply bind_Some in H as [sc [Hsc H]].
  destruct (victim_id sc =? -1); injection H as <- <-; simpl.
  - split; [|done]. intros f Hf. split; [|done].
    by apply (Evict_scan_true _ _ _ _ _ f Hsc).
  - split; [|done]. intros f Hf.
    destruct (decide (f = victim_id sc)) as [->|Hne].
    + rewrite lookup_insert_eq in Hf. discriminate.
    + rewrite lookup_insert_ne in Hf by done. split; [|congruence].
      by apply (Evict_scan_true _ _ _ _ _ f Hsc).
Qed.

(** ** Every evictable frame is tracked, and every tracked frame was recorded *)

Lemma within_new n k : within (new n k) ∅.
Proof. split; simpl; [intros f; rewrite lookup_empty; discriminate | set_solver]. Qed.

Lemma within_mono r S S' : S ⊆ S' → within r S → within r S'.
Proof. intros HS [H1 H2]. split; [done | set_solver]. Qed.

Lemma within_RecordAccess r S f : within r S → within (RecordAccess r f) ({[f]} ∪ S).
Proof.
  intros [H1 H2]. split; simpl.
  - intros g Hg. specialize (H1 g Hg).
    destruct (decide (f = g)) as [->|Hne].
    + rewrite lookup_alter_eq. destruct (access_history_ r !! g) eqn:E.
      * rewrite E. simpl. eauto.
      * rewrite lookup_insert_eq. simpl. eauto.
    + rewrite lookup_alter_ne by done.
      destruct (access_history_ r !! f); [done|]. by rewrite lookup_insert_ne.
  - rewrite dom_alter_L. destruct (access_history_ r !! f) eqn:E.
    + set_solver.
    + rewrite dom_insert_L. set_solver.
Qed.

Lemma within_SetEvictable r S f b : within r S → within (SetEvictable r f b) S.
Proof.
  intros [H1 H2]. unfold SetEvictable.
  destruct (access_history_ r !! f) eqn:E; [|by split].
  pose proof (evictable_at_true (evictable_ r) f) as Ht.
  destruct (evictable_at (evictable_ r) f) as [cur ev]. simpl in Ht.
  destruct (negb (eqb cur b)); split; simpl; try done.
  - intros g Hg. destruct (decide (f = g)) as [->|Hne]; [by rewrite E|].
    rewrite lookup_insert_ne in Hg by done. apply H1. by apply Ht.
  - intros g Hg. apply H1. by apply Ht.
Qed.

Lemma within_Remove r S f : within r S → within (Remove r f) S.
Proof.
  intros [H1 H2]. unfold Remove.
  destruct (access_history_ r !! f) eqn:E; [|by split].
  pose proof (evictable_at_true (evictable_ r) f) as Ht.
  destruct (evictable_at (evictable_ r) f) as [cur ev]. simpl in Ht.
  destruct cur; split; simpl.
  - intros g Hg. destruct (decide (f = g)) as [->|Hne].
    + rewrite lookup_insert_eq in Hg. discriminate.
    + rewrite lookup_insert_ne in Hg by done. rewrite lookup_delete_ne by done.
      apply H1. by apply Ht.
  - rewrite dom_delete_L. set_solver.
  - intros g Hg. apply H1. by apply Ht.
  - done.
Qed.

Lemma within_Evict r S order out r' :
  Evict_in order r = Some (out, r') → within r S → within r' S.
Proof.
  intros He [H1 H2]. apply Evict_in_state in He as [Hev Hah]. split.
  - intros g Hg. apply Hev in Hg as [Hg Hout]. rewrite Hah.
    destruct out as [v|]; [|by apply H1].
    rewrite lookup_delete_ne by congruence. by apply H1.
  - rewrite Hah. destruct out; [rewrite dom_delete_L|]; set_solver.
Qed.

Lemma within_step r S o r' :
  step r o r' → within r S → within r' (recorded [o] ∪ S).
Proof.
  intros Hs Hw. destruct Hs; simpl.
  - apply within_mono with ({[f]} ∪ S); [set_solver|]. by apply within_RecordAccess.
  - apply within_mono with S; [set_solver|]. by apply within_SetEvictable.
  - apply within_mono with S; [set_solver|]. by apply within_Remove.
  - apply within_mono with S; [set_solver|]. by eapply within_Evict.
Qed.

Lemma recorded_cons o os : recorded (o :: os) = recorded [o] ∪ recorded os.
Proof. destruct o; simpl; set_solver. Qed.

Lemma recorded_app os1 os2 : recorded (os1 ++ os2) = recorded os1 ∪ recorded os2.
Proof.
  induction os1 as [|o os1 IH]; simpl app; [set_solver|].
  rewrite (recorded_cons o (os1 ++ os2)), (recorded_cons o os1), IH. set_solver.
Qed.

Lemma within_run r os r' : run r os r' → ∀ S, within r S → within r' (recorded os ∪ S).
Proof.
  induction 1 as [r|r o r1 os r2 Hs _ IH]; intros S Hw.
  - apply within_mono with S; [set_solver | done].
  - rewrite recorded_cons.
    apply within_mono with (recorded os ∪ (recorded [o] ∪ S)); [set_solver|].
    apply IH. by apply (within_step r).
Qed.

Lemma within_Size r S : within r S → 0 ≤ Size r ≤ Z.of_nat (size S).
Proof.
  intros [H1 H2]. unfold Size. split; [lia|].
  apply inj_le. rewrite <- size_dom. apply subseteq_size.
  intros f Hf. apply H2. apply elem_of_dom in Hf as [b Hb]. apply elem_of_dom.
  apply map_lookup_filter_Some in Hb as [Hb Ht]. unfold is_true_entry in Ht.
  simpl in Ht. subst b. by apply H1.
Qed.

(** C6, as stated, fails: a replacer built for one frame that is given two
    frames reports [Size() = 2]. *)
Lemma Size_can_exceed_capacity :
  ¬ (∀ num_frames k os r,
       1 ≤ num_frames → run (new num_frames k) os r → 0 ≤ Size r ≤ num_frames).
Proof.
  intros H. specialize (H 1 2 crowd_calls crowd_state).
  assert (Hs : Size crowd_state = 2) by (vm_compute; reflexivity).
  rewrite Hs in H. pose proof (H ltac:(lia) crowd_state_run). lia.
Qed.

(** C6 (amended). For a replacer constructed with [num_frames >= 1] and a
    sequence of calls that records accesses for at most [num_frames]
    distinct frames, [0 <= Size() <= num_frames] holds after every prefix of
    the sequence. *)
Theorem Size_bounded_by_recorded_frames
    (num_frames k : Z) (os pre post : list op) (r : LRUKReplacer) :
  1 ≤ num_frames →
  Z.of_nat (size (recorded os)) ≤ num_frames →
  os = pre ++ post →
  run (new num_frames k) pre r →
  0 ≤ Size r ≤ num_frames.
Proof.
  intros _ Hsz -> Hrun.
  pose proof (within_run _ _ _ Hrun ∅ (within_new _ _)) as Hw.
  apply within_Size in Hw.
  assert (size (recorded pre ∪ ∅) ≤ size (recorded (pre ++ post)))%nat.
  { apply subseteq_size. rewrite recorded_app. set_solver. }
  lia.
Qed.

Lemma Size_bounded_witness : 0 ≤ Size skew_state ≤ 7.
Proof.
  apply (Size_bounded_by_recorded_frames 7 2 skew_calls skew_calls [] skew_state).
  - lia.
  - vm_compute. discriminate.
  - reflexivity.
  - apply (replay_run own_order); [apply own_order_visit|]. vm_compute. reflexivity.
Defined.

(** ** [SetEvictable] and [Remove] seen through [hist], [evictable], [Size] *)

(** C7. For every replacer state and every frame F without an entry in
    [access_history_], [SetEvictable(F, flag)] returns the state it was given
    for both values of the flag: [Size()] is the same, F is still untracked,
    and the history and evictable status of every frame are the same. *)
Theorem SetEvictable_untracked_is_noop (r : LRUKReplacer) (F : Z) (flag : bool) :
  hist r F = None →
  SetEvictable r F flag = r
  ∧ Size (SetEvictable r F flag) = Size r
  ∧ hist (SetEvictable r F flag) F = None
  ∧ ∀ G, hist (SetEvictable r F flag) G = hist r G
         ∧ evictable (SetEvictable r F flag) G = evictable r G.
Proof.
  unfold hist. intros HF.
  assert (E : SetEvictable r F flag = r) by (unfold SetEvictable; by rewrite HF).
  rewrite E. auto.
Qed.

Lemma SetEvictable_untracked_witness :
  hist skew_state 9 = None
  ∧ SetEvictable skew_state 9 true = skew_state
  ∧ SetEvictable skew_state 9 false = skew_state.
Proof.
  assert (H : hist skew_state 9 = None) by reflexivity.
  split; [exact H|]. split.
  - apply (SetEvictable_untracked_is_noop skew_state 9 true H).
  - apply (SetEvictable_untracked_is_noop skew_state 9 false H).
Defined.

Lemma Remove_untracked r F : hist r F = None → Remove r F = r.
Proof. unfold hist, Remove. by intros ->. Qed.

Lemma Remove_pinned r F h :
  hist r F = Some h → evictable r F = false →
  Remove r F =
    {| access_history_ := access_history_ r;
       evictable_ := (evictable_at (evictable_ r) F).2;
       replacer_size_ := replacer_size_ r; k_ := k_ r;
       current_timestamp_ := current_timestamp_ r;
       curr_size_ := curr_size_ r |}.
Proof.
  unfold hist, evictable, Remove. intros -> Hev.
  rewrite <- evictable_at_value in Hev.
  destruct (evictable_at (evictable_ r) F) as [cur ev]. simpl in *. by subst cur.
Qed.

Lemma Remove_evictable r F h :
  hist r F = Some h → evictable r F = true →
  Remove r F =
    {| access_history_ := delete F (access_history_ r);
       evictable_ := <[F := false]> (evictable_at (evictable_ r) F).2;
       replacer_size_ := replacer_size_ r; k_ := k_ r;
       current_timestamp_ := current_timestamp_ r;
       curr_size_ := to_size_t (curr_size_ r - 1) |}.
Proof.
  unfold hist, evictable, Remove. intros -> Hev.
  rewrite <- evictable_at_value in Hev.
  destruct (evictable_at (evictable_ r) F) as [cur ev]. simpl in *. by subst cur.
Qed.

(** C8. [Remove(F)] changes nothing a caller can observe ([Size()], every
    history, every evictable flag) unless F is tracked and evictable; when F
    is tracked and evictable it erases F's history, leaves F untracked and
    not evictable, lowers [Size()] by exactly one and leaves every other
    frame as it was. *)
Theorem Remove_effect (r : LRUKReplacer) (F : Z) :
  (¬ (tracked r F ∧ evictable r F = true) →
     Size (Remove r F) = Size r
     ∧ ∀ G, hist (Remove r F) G = hist r G
            ∧ evictable (Remove r F) G = evictable r G)
  ∧ (tracked r F → evictable r F = true →
     hist (Remove r F) F = None
     ∧ evictable (Remove r F) F = false
     ∧ Size (Remove r F) = Size r - 1
     ∧ ∀ G, G ≠ F →
            hist (Remove r F) G = hist r G
            ∧ evictable (Remove r F) G = evictable r G).
Proof.
  split.
  - intros Hno. destruct (hist r F) as [h|] eqn:Hh.
    + destruct (evictable r F) eqn:Hev.
      { exfalso. apply Hno. split; [|done]. unfold tracked. unfold hist in Hh.
        rewrite Hh. eauto. }
      rewrite (Remove_pinned r F h Hh Hev). split.
      * unfold Size. simpl. by rewrite evictable_at_filter.
      * intros G. split; [done|]. unfold evictable. simpl.
        apply evictable_at_lookup.
    + rewrite (Remove_untracked r F Hh). auto.
  - intros [h Hh] Hev. rewrite (Remove_evictable r F h Hh Hev).
    unfold hist, evictable. simpl. repeat split.
    + apply lookup_delete_eq.
    + by rewrite lookup_insert_eq.
    + unfold Size. simpl.
      rewrite filter_set_false, evictable_at_filter.
      assert (Hin : filter is_true_entry (evictable_ r) !! F = Some true).
      { apply filter_lookup_true. unfold evictable in Hev.
        destruct (evictable_ r !! F) as [[]|]; simpl in Hev; congruence. }
      rewrite map_size_delete_Some by eauto.
      assert (size (filter is_true_entry (evictable_ r)) ≠ 0%nat)
        by (eapply map_size_ne_0_lookup_2; eauto).
      lia.
    + by apply lookup_delete_ne.
    + rewrite lookup_insert_ne by done. apply evictable_at_lookup.
Qed.

Lemma Remove_effect_witness :
  (tracked skew_state 1 ∧ evictable skew_state 1 = true)
  ∧ hist (Remove skew_state 1) 1 = None
  ∧ evictable (Remove skew_state 1) 1 = false
  ∧ Size (Remove skew_state 1) = Size skew_state - 1
  ∧ ¬ (tracked skew_state 9 ∧ evictable skew_state 9 = true)
  ∧ Size (Remove skew_state 9) = Size skew_state.
Proof.
  assert (Ht : tracked skew_state 1) by (exists [0; 1; 2; 3]; reflexivity).
  assert (He : evictable skew_state 1 = true) by reflexivity.
  assert (Hn : ¬ (tracked skew_state 9 ∧ evictable skew_state 9 = true)).
  { intros [_ H]. vm_compute in H. discriminate. }
  destruct (Remove_effect skew_state 1) as [_ H1].
  destruct (Remove_effect skew_state 9) as [H9 _].
  destruct (H1 Ht He) as (A & B & C & _).
  destruct (H9 Hn) as [D _].
  repeat split; assumption.
Defined.


(** ** [Evict] when the evictable frames are all on one side of K *)

Lemma Evict_scan_evictable k now order : ∀ sc sc' f,
  Evict_scan k now order sc = Some sc' →
  default false (scan_evictable sc' !! f) = default false (scan_evictable sc !! f).
Proof.
  induction order as [|e rest IH]; intros sc sc' f H; simpl in H.
  - by injection H as <-.
  - apply bind_Some in H as [sc1 [H1 H2]].
    rewrite (IH _ _ f H2), (Evict_visit_evictable _ _ _ _ _ H1).
    apply evictable_at_lookup.
Qed.

Section Uniform.

Variables k now : Z.
Variable ev0 : gmap Z bool.

(** The flag the loop reads for a frame is the one of the state [Evict] was
    called in. *)
Let flag (f : Z) : bool := default false (ev0 !! f).

Let same_flags (sc : scan) : Prop :=
  ∀ f, default false (scan_evictable sc !! f) = flag f.

(** Every evictable frame has at least [k] accesses: the victim outranks
    every evictable frame visited so far. *)
Let long_inv (seen : list (Z * list Z)) (sc : scan) : Prop :=
  same_flags sc
  ∧ found_candidate_with_less_than_k_accesses sc = false
  ∧ (∀ f h d' b', (f, h) ∈ seen → flag f = true →
       k_distance k now h = Some d' → last_access h = Some b' →
       outranks (max_backward_distance sc) (latest_access_time sc) d' b')
  ∧ (victim_id sc ≠ -1 →
       ∃ h, (victim_id sc, h) ∈ seen ∧ flag (victim_id sc) = true
            ∧ k_distance k now h = Some (max_backward_distance sc)
            ∧ last_access h = Some (latest_access_time sc)).

Local Lemma long_visit seen sc f h sc' :
  (flag f = true → k ≤ Z.of_nat (length h)) →
  long_inv seen sc → Evict_visit k now sc (f, h) = Some sc' →
  long_inv (seen ++ [(f, h)]) sc'.
Proof.
  intros Hlong (Hfl & Hfound & Hall & Hsel) Hv.
  pose proof (Evict_visit_evictable _ _ _ _ _ Hv) as Hev. simpl in Hev.
  assert (Hfl' : same_flags sc').
  { intros g. rewrite Hev, evictable_at_lookup. apply Hfl. }
  unfold Evict_visit in Hv.
  pose proof (evictable_at_value (scan_evictable sc) f) as Hval.
  rewrite (Hfl f) in Hval.
  destruct (evictable_at (scan_evictable sc) f) as [cur ev]. simpl in Hval. subst cur.
  destruct (flag f) eqn:Hf; simpl in Hv.
  - specialize (Hlong eq_refl).
    replace (Z.of_nat (length h) <? k) with false in Hv
      by (symmetry; apply Z.ltb_ge; lia).
    destruct (h !! Z.to_nat (Z.of_nat (length h) - k)) as [hk|] eqn:Hk;
      simpl in Hv; [|discriminate].
    rewrite Hfound in Hv.
    destruct (last h) as [back|] eqn:Hback; simpl in Hv; [|discriminate].
    assert (Hd : k_distance k now h = Some (to_size_t (now - hk)))
      by (unfold k_distance; by rewrite Hk).
    destruct ((to_size_t (now - hk) >? max_backward_distance sc)
              || ((to_size_t (now - hk) =? max_backward_distance sc)
                  && (back <? latest_access_time sc))) eqn:Hc;
      injection Hv as <-; (split; [done|]); (split; [done|]); simpl.
    + assert (Hbetter : max_backward_distance sc < to_size_t (now - hk)
                        ∨ (to_size_t (now - hk) = max_backward_distance sc
                           ∧ back < latest_access_time sc)).
      { apply orb_true_iff in Hc as [Hc|Hc]; [left; lia|right].
        apply andb_true_iff in Hc as [Hc1 Hc2]. lia. }
      split.
      * intros g hg d' b' Hin Hg Hdg Hbg.
        apply elem_of_app in Hin as [Hin|Hin].
        -- specialize (Hall g hg d' b' Hin Hg Hdg Hbg). unfold outranks in *. lia.
        -- apply list_elem_of_singleton in Hin as [= -> ->].
           unfold last_access in Hbg. unfold outranks.
           assert (d' = to_size_t (now - hk)) by congruence.
           assert (b' = back) by congruence. lia.
      * intros _. exists h. split; [apply elem_of_app; right; left|].
        split; [done|]. split; [done|]. done.
    + assert (Hworse : to_size_t (now - hk) ≤ max_backward_distance sc
                       ∧ (to_size_t (now - hk) ≠ max_backward_distance sc
                          ∨ latest_access_time sc ≤ back)).
      { apply orb_false_iff in Hc as [Hc1 Hc2].
        apply andb_false_iff in Hc2. split; [lia|].
        destruct Hc2 as [Hc2|Hc2]; [left|right]; lia. }
      split.
      * intros g hg d' b' Hin Hg Hdg Hbg.
        apply elem_of_app in Hin as [Hin|Hin]; [by eapply Hall|].
        apply list_elem_of_singleton in Hin as [= -> ->].
        unfold last_access in Hbg. unfold outranks.
        assert (d' = to_size_t (now - hk)) by congruence.
        assert (b' = back) by congruence. lia.
      * intros Hne. destruct (Hsel Hne) as (hv & Hin & ?).
        exists hv. split; [apply elem_of_app; by left | done].
  - injection Hv as <-. split; [done|]. split; [done|]. simpl. split.
    + intros g hg d' b' Hin Hg Hdg Hbg.
      apply elem_of_app in Hin as [Hin|Hin]; [by eapply Hall|].
      apply list_elem_of_singleton in Hin as [= -> ->]. congruence.
    + intros Hne. destruct (Hsel Hne) as (hv & Hin & ?).
      exists hv. split; [apply elem_of_app; by left | done].
Qed.

Local Lemma long_scan order : ∀ seen sc sc',
  (∀ f h, (f, h) ∈ order → flag f = true → k ≤ Z.of_nat (length h)) →
  long_inv seen sc → Evict_scan k now order sc = Some sc' →
  long_inv (seen ++ order) sc'.
Proof.
  induction order as [|[f h] rest IH]; intros seen sc sc' Hlong HI H; simpl in H.
  - injection H as <-. by rewrite app_nil_r.
  - apply bind_Some in H as [sc1 [H1 H2]].
    replace (seen ++ (f, h) :: rest) with ((seen ++ [(f, h)]) ++ rest)
      by (by rewrite <- app_assoc).
    apply (IH _ sc1).
    + intros g hg Hin. apply Hlong. by right.
    + apply (long_visit seen sc f h sc1); [|done|done]. apply Hlong. left.
    + done.
Qed.

(** Every evictable frame has fewer than [k] accesses: the victim has the
    oldest first access among the evictable frames visited so far. *)
Let short_inv (seen : list (Z * list Z)) (sc : scan) : Prop :=
  same_flags sc
  ∧ (∀ f h t, (f, h) ∈ seen → flag f = true → h !! 0%nat = Some t →
       latest_access_time sc ≤ t)
  ∧ (victim_id sc ≠ -1 →
       ∃ h, (victim_id sc, h) ∈ seen ∧ flag (victim_id sc) = true
            ∧ h !! 0%nat = Some (latest_access_time sc)).

Local Lemma short_visit seen sc f h sc' :
  (flag f = true → Z.of_nat (length h) < k) →
  short_inv seen sc → Evict_visit k now sc (f, h) = Some sc' →
  short_inv (seen ++ [(f, h)]) sc'.
Proof.
  intros Hshort (Hfl & Hall & Hsel) Hv.
  pose proof (Evict_visit_evictable _ _ _ _ _ Hv) as Hev. simpl in Hev.
  assert (Hfl' : same_flags sc').
  { intros g. rewrite Hev, evictable_at_lookup. apply Hfl. }
  unfold Evict_visit in Hv.
  pose proof (evictable_at_value (scan_evictable sc) f) as Hval.
  rewrite (Hfl f) in Hval.
  destruct (evictable_at (scan_evictable sc) f) as [cur ev]. simpl in Hval. subst cur.
  destruct (flag f) eqn:Hf; simpl in Hv.
  - specialize (Hshort eq_refl).
    replace (Z.of_nat (length h) <? k) with true in Hv
      by (symmetry; apply Z.ltb_lt; lia).
    destruct (h !! 0%nat) as [h0|] eqn:H0; simpl in Hv; [|discriminate].
    destruct (Z.ltb_spec h0 (latest_access_time sc)) as [Hlt|Hge];
      injection Hv as <-; (split; [done|]); simpl.
    + split.
      * intros g hg t Hin Hg Hg0.
        apply elem_of_app in Hin as [Hin|Hin].
        -- specialize (Hall g hg t Hin Hg Hg0). lia.
        -- apply list_elem_of_singleton in Hin as [= -> ->].
           assert (t = h0) by congruence. lia.
      * intros _. exists h. split; [apply elem_of_app; right; left|]. done.
    + split.
      * intros g hg t Hin Hg Hg0.
        apply elem_of_app in Hin as [Hin|Hin]; [by eapply Hall|].
        apply list_elem_of_singleton in Hin as [= -> ->].
        assert (t = h0) by congruence. lia.
      * intros Hne. destruct (Hsel Hne) as (hv & Hin & ?).
        exists hv. split; [apply elem_of_app; by left | done].
  - injection Hv as <-. split; [done|]. simpl. split.
    + intros g hg t Hin Hg Hg0.
      apply elem_of_app in Hin as [Hin|Hin]; [by eapply Hall|].
      apply list_elem_of_singleton in Hin as [= -> ->]. congruence.
    + intros Hne. destruct (Hsel Hne) as (hv & Hin & ?).
      exists hv. split; [apply elem_of_app; by left | done].
Qed.

Local Lemma short_scan order : ∀ seen sc sc',
  (∀ f h, (f, h) ∈ order → flag f = true → Z.of_nat (length h) < k) →
  short_inv seen sc → Evict_scan k now order sc = Some sc' →
  short_inv (seen ++ order) sc'.
Proof.
  induction order as [|[f h] rest IH]; intros seen sc sc' Hshort HI H; simpl in H.
  - injection H as <-. by rewrite app_nil_r.
  - apply bind_Some in H as [sc1 [H1 H2]].
    replace (seen ++ (f, h) :: rest) with ((seen ++ [(f, h)]) ++ rest)
      by (by rewrite <- app_assoc).
    apply (IH _ sc1).
    + intros g hg Hin. apply Hshort. by right.
    + apply (short_visit seen sc f h sc1); [|done|done]. apply Hshort. left.
    + done.
Qed.

Lemma Evict_scan_all_long order sc' :
  (∀ f h, (f, h) ∈ order → flag f = true → k ≤ Z.of_nat (length h)) →
  Evict_scan k now order (scan_init ev0) = Some sc' →
  victim_id sc' ≠ -1 →
  ∃ h dv bv,
    (victim_id sc', h) ∈ order ∧ flag (victim_id sc') = true
    ∧ k_distance k now h = Some dv ∧ last_access h = Some bv
    ∧ ∀ f h' d' b', (f, h') ∈ order → flag f = true →
        k_distance k now h' = Some d' → last_access h' = Some b' →
        outranks dv bv d' b'.
Proof.
  intros Hlong H Hne.
  destruct (long_scan order [] (scan_init ev0) sc' Hlong) as (_ & _ & Hall & Hsel);
    [|done|].
  { split; [done|]. split; [done|]. split.
    - intros f h d' b' Hin. by apply elem_of_nil in Hin.
    - done. }
  destruct (Hsel Hne) as (h & Hin & Hf & Hd & Hb).
  exists h, (max_backward_distance sc'), (latest_access_time sc').
  repeat split; done.
Qed.

Lemma Evict_scan_all_short order sc' :
  (∀ f h, (f, h) ∈ order → flag f = true → Z.of_nat (length h) < k) →
  Evict_scan k now order (scan_init ev0) = Some sc' →
  victim_id sc' ≠ -1 →
  ∃ h t0,
    (victim_id sc', h) ∈ order ∧ flag (victim_id sc') = true
    ∧ h !! 0%nat = Some t0
    ∧ ∀ f h' t', (f, h') ∈ order → flag f = true → h' !! 0%nat = Some t' → t0 ≤ t'.
Proof.
  intros Hshort H Hne.
  destruct (short_scan order [] (scan_init ev0) sc' Hshort) as (_ & Hall & Hsel);
    [|done|].
  { split; [done|]. split.
    - intros f h t Hin. by apply elem_of_nil in Hin.
    - done. }
  destruct (Hsel Hne) as (h & Hin & Hf & H0).
  exists h, (latest_access_time sc'). repeat split; done.
Qed.

End Uniform.

Lemma Evict_in_victim order r v r' :
  Evict_in order r = Some (Some v, r') →
  ∃ sc', Evict_scan (k_ r) (current_timestamp_ r) order (scan_init (evictable_ r)) = Some sc'
         ∧ victim_id sc' = v ∧ v ≠ -1.
Proof.
  unfold Evict_in. intros H. apply bind_Some in H as [sc [Hsc H]].
  destruct (Z.eqb_spec (victim_id sc) (-1)); [discriminate|].
  injection H as <- _. by exists sc.
Qed.

(** X1.  What [Evict] gets right.  When every evictable frame has at least K
    accesses the victim has the greatest backward K-distance, ties going to
    the oldest last access; when every evictable frame has fewer than K
    accesses the victim has the oldest first access.  This holds in every
    visiting order. *)
Lemma Evict_uniform order r v r' :
  Evict_in order r = Some (Some v, r') →
  ((∀ f h, (f, h) ∈ order → evictable r f = true → k_ r ≤ Z.of_nat (length h)) →
   ∃ h dv bv,
     (v, h) ∈ order ∧ evictable r v = true
     ∧ k_distance (k_ r) (current_timestamp_ r) h = Some dv
     ∧ last_access h = Some bv
     ∧ ∀ f h' d' b', (f, h') ∈ order → evictable r f = true →
         k_distance (k_ r) (current_timestamp_ r) h' = Some d' →
         last_access h' = Some b' → outranks dv bv d' b')
  ∧ ((∀ f h, (f, h) ∈ order → evictable r f = true → Z.of_nat (length h) < k_ r) →
     ∃ h t0,
       (v, h) ∈ order ∧ evictable r v = true ∧ h !! 0%nat = Some t0
       ∧ ∀ f h' t', (f, h') ∈ order → evictable r f = true →
           h' !! 0%nat = Some t' → t0 ≤ t').
Proof.
  intros H. apply Evict_in_victim in H as (sc' & Hsc & <- & Hne). split.
  - intros Hlong.
    apply (Evict_scan_all_long (k_ r) (current_timestamp_ r) (evictable_ r) order sc');
      done.
  - intros Hshort.
    apply (Evict_scan_all_short (k_ r) (current_timestamp_ r) (evictable_ r) order sc');
      done.
Qed.

Lemma Evict_uniform_witness :
  (∃ h dv bv,
     (2, h) ∈ own_order (SetEvictable R2_state 3 false)
     ∧ k_distance 2 6 h = Some dv ∧ last_access h = Some bv
     ∧ ∀ f h' d' b',
         (f, h') ∈ own_order (SetEvictable R2_state 3 false) →
         evictable (SetEvictable R2_state 3 false) f = true →
         k_distance 2 6 h' = Some d' → last_access h' = Some b' →
         outranks dv bv d' b')
  ∧ (∃ h t0,
       (0, h) ∈ own_order crowd_state ∧ h !! 0%nat = Some t0
       ∧ ∀ f h' t',
           (f, h') ∈ own_order crowd_state → evictable crowd_state f = true →
           h' !! 0%nat = Some t' → t0 ≤ t').
Proof.
  split.
  - set (st := SetEvictable R2_state 3 false).
    destruct (Evict_in (own_order st) st) as [[out r']|] eqn:E;
      [|vm_compute in E; discriminate].
    assert (Hout : out = Some 2).
    { assert (H : fst <$> Evict_in (own_order st) st = Some (Some 2))
        by (vm_compute; reflexivity).
      rewrite E in H. simpl in H. by injection H. }
    subst out.
    destruct (Evict_uniform (own_order st) st 2 r' E) as [HL _].
    destruct HL as (h & dv & bv & H1 & _ & H2 & H3 & H4).
    + intros f h Hin Hev. apply elem_of_map_to_list in Hin.
      change (k_ st) with 2.
      change (access_history_ st)
        with (<[1 := [0; 2; 5]]> (<[2 := [1; 3]]> ({[3 := [4]]} : gmap Z (list Z))))
        in Hin.
      apply lookup_insert_Some in Hin as [[_ <-]|[_ Hin]]; [simpl; lia|].
      apply lookup_insert_Some in Hin as [[_ <-]|[_ Hin]]; [simpl; lia|].
      apply lookup_singleton_Some in Hin as [<- _].
      vm_compute in Hev. discriminate Hev.
    + exists h, dv, bv. split; [exact H1|]. split; [exact H2|]. split; [exact H3|].
      exact H4.
  - destruct (Evict_in (own_order crowd_state) crowd_state) as [[out r']|] eqn:E;
      [|vm_compute in E; discriminate].
    assert (Hout : out = Some 0).
    { assert (H : fst <$> Evict_in (own_order crowd_state) crowd_state = Some (Some 0))
        by (vm_compute; reflexivity).
      rewrite E in H. simpl in H. by injection H. }
    subst out.
    destruct (Evict_uniform (own_order crowd_state) crowd_state 0 r' E) as [_ HS].
    destruct HS as (h & t0 & H1 & _ & H2 & H3).
    + intros f h Hin _. apply elem_of_map_to_list in Hin.
      change (access_history_ crowd_state)
        with (<[0 := [0]]> ({[1 := [1]]} : gmap Z (list Z))) in Hin.
      apply lookup_insert_Some in Hin as [[_ <-]|[_ Hin]]; [simpl; lia|].
      apply lookup_singleton_Some in Hin as [_ <-]. simpl. lia.
    + exists h, t0. split; [exact H1|]. split; [exact H2|]. exact H3.
Defined.

(** ** [RecordAccess] and [SetEvictable] seen through [hist], [evictable], [Size] *)

Lemma RecordAccess_hist r F G :
  hist (RecordAccess r F) G
  = if decide (G = F) then Some (default [] (hist r F) ++ [current_timestamp_ r])
    else hist r G.
Proof.
  unfold hist, RecordAccess. simpl. destruct (decide (G = F)) as [->|Hne].
  - rewrite lookup_alter_eq. destruct (access_history_ r !! F) as [h|] eqn:E.
    + by rewrite E.
    + by rewrite lookup_insert_eq.
  - rewrite lookup_alter_ne by done.
    destruct (access_history_ r !! F); [done|]. by rewrite lookup_insert_ne.
Qed.

(** [RecordAccess(F)] appends the current timestamp to the history of F
    (starting from the empty history when F was not tracked), advances the
    clock by one modulo 2^64, and leaves every other history, every
    evictable flag and [Size()] as they were. *)
Lemma RecordAccess_effect (r : LRUKReplacer) (F : Z) :
  hist (RecordAccess r F) F
  = Some (default [] (hist r F) ++ [current_timestamp_ r])
  ∧ current_timestamp_ (RecordAccess r F) = to_size_t (current_timestamp_ r + 1)
  ∧ Size (RecordAccess r F) = Size r
  ∧ (∀ G, evictable (RecordAccess r F) G = evictable r G)
  ∧ (∀ G, G ≠ F → hist (RecordAccess r F) G = hist r G).
Proof.
  split; [rewrite RecordAccess_hist; by rewrite decide_True|].
  split; [done|]. split; [done|]. split; [done|].
  intros G HG. rewrite RecordAccess_hist. by rewrite decide_False.
Qed.

Lemma Size_set_true (ev : gmap Z bool) (f : Z) :
  ev !! f ≠ Some true →
  Z.of_nat (size (filter is_true_entry (<[f := true]> ev)))
  = Z.of_nat (size (filter is_true_entry ev)) + 1.
Proof.
  intros Hf. rewrite map_filter_insert_True by done.
  rewrite map_size_insert_None; [lia|].
  destruct (filter is_true_entry ev !! f) as [b|] eqn:E; [|done].
  apply map_lookup_filter_Some in E as [E Hb]. unfold is_true_entry in Hb.
  simpl in Hb. subst b. done.
Qed.

Lemma Size_set_false (ev : gmap Z bool) (f : Z) :
  ev !! f = Some true →
  Z.of_nat (size (filter is_true_entry (<[f := false]> ev)))
  = Z.of_nat (size (filter is_true_entry ev)) - 1.
Proof.
  intros Hf. rewrite filter_set_false.
  assert (Hin : filter is_true_entry ev !! f = Some true)
    by (by apply filter_lookup_true).
  rewrite map_size_delete_Some by eauto.
  assert (size (filter is_true_entry ev) ≠ 0%nat)
    by (eapply map_size_ne_0_lookup_2; eauto).
  lia.
Qed.

Lemma evictable_Some_true (ev : gmap Z bool) (f : Z) :
  default false (ev !! f) = true ↔ ev !! f = Some true.
Proof. destruct (ev !! f) as [[]|]; simpl; split; congruence. Qed.

(** The two shapes of the state after [SetEvictable] on a tracked frame. *)
Lemma SetEvictable_tracked r F flag h :
  hist r F = Some h →
  SetEvictable r F flag =
    if bool_decide (evictable r F = flag) then
      {| access_history_ := access_history_ r;
         evictable_ := (evictable_at (evictable_ r) F).2;
         replacer_size_ := replacer_size_ r; k_ := k_ r;
         current_timestamp_ := current_timestamp_ r;
         curr_size_ := curr_size_ r |}
    else
      {| access_history_ := access_history_ r;
         evictable_ := <[F := flag]> (evictable_at (evictable_ r) F).2;
         replacer_size_ := replacer_size_ r; k_ := k_ r;
         current_timestamp_ := current_timestamp_ r;
         curr_size_ := if flag then to_size_t (curr_size_ r + 1)
                       else to_size_t (curr_size_ r - 1) |}.
Proof.
  unfold hist, evictable, SetEvictable. intros ->.
  rewrite <- evictable_at_value.
  destruct (evictable_at (evictable_ r) F) as [cur ev]. simpl.
  destruct cur, flag; simpl; done.
Qed.

Lemma SetEvictable_Size r F flag h :
  hist r F = Some h →
  Size (SetEvictable r F flag)
  = Size r - (if evictable r F then 1 else 0) + (if flag then 1 else 0).
Proof.
  intros Hh. rewrite (SetEvictable_tracked r F flag h Hh).
  pose proof (evictable_at_true (evictable_ r) F F) as Ht.
  pose proof (evictable_Some_true (evictable_ r) F) as Hd. fold (evictable r F) in Hd.
  destruct (evictable r F) eqn:Hev, flag; simpl; unfold Size; simpl.
  - rewrite evictable_at_filter. lia.
  - rewrite Size_set_false by (apply Ht; by apply Hd).
    rewrite evictable_at_filter. lia.
  - rewrite Size_set_true.
    + rewrite evictable_at_filter. lia.
    + intros H. apply Ht, Hd in H. discriminate.
  - rewrite evictable_at_filter. lia.
Qed.

(** X2. On a tracked frame F, [SetEvictable(F, flag)] makes [evictable(F)]
    equal to [flag], moves [Size()] by the difference between the new flag
    and the old one, and leaves every history and every other flag as they
    were; calling it again with the same flag returns the same state. *)
Theorem SetEvictable_tracked_effect (r : LRUKReplacer) (F : Z) (flag : bool) :
  tracked r F →
  evictable (SetEvictable r F flag) F = flag
  ∧ Size (SetEvictable r F flag)
    = Size r - (if evictable r F then 1 else 0) + (if flag then 1 else 0)
  ∧ (∀ G, hist (SetEvictable r F flag) G = hist r G)
  ∧ (∀ G, G ≠ F → evictable (SetEvictable r F flag) G = evictable r G)
  ∧ SetEvictable (SetEvictable r F flag) F flag = SetEvictable r F flag.
Proof.
  intros [h Hh].
  assert (Hev : evictable (SetEvictable r F flag) F = flag).
  { rewrite (SetEvictable_tracked r F flag h Hh).
    destruct (bool_decide_reflect (evictable r F = flag)) as [E|E];
      unfold evictable; simpl.
    - rewrite evictable_at_lookup. exact E.
    - by rewrite lookup_insert_eq. }
  assert (Hhist : ∀ G, hist (SetEvictable r F flag) G = hist r G).
  { intros G. rewrite (SetEvictable_tracked r F flag h Hh).
    by destruct (bool_decide (evictable r F = flag)). }
  split; [done|]. split; [by apply (SetEvictable_Size r F flag h)|].
  split; [done|]. split.
  - intros G HG. rewrite (SetEvictable_tracked r F flag h Hh).
    destruct (bool_decide (evictable r F = flag)); unfold evictable; simpl.
    + apply evictable_at_lookup.
    + rewrite lookup_insert_ne by done. apply evictable_at_lookup.
  - assert (Hh' : hist (SetEvictable r F flag) F = Some h) by (by rewrite Hhist).
    rewrite (SetEvictable_tracked (SetEvictable r F flag) F flag h Hh').
    rewrite bool_decide_true by done.
    assert (Hin : is_Some (evictable_ (SetEvictable r F flag) !! F)).
    { rewrite (SetEvictable_tracked r F flag h Hh).
      destruct (bool_decide (evictable r F = flag)); simpl.
      - unfold evictable_at. destruct (evictable_ r !! F) eqn:E; simpl.
        + rewrite E. eauto.
        + rewrite lookup_insert_eq. eauto.
      - rewrite lookup_insert_eq. eauto. }
    destruct Hin as [c Hc]. unfold evictable_at. rewrite Hc. simpl.
    by destruct (SetEvictable r F flag).
Qed.

Lemma SetEvictable_tracked_witness :
  tracked skew_state 1
  ∧ evictable (SetEvictable skew_state 1 false) 1 = false
  ∧ Size (SetEvictable skew_state 1 false) = 1.
Proof.
  assert (Ht : tracked skew_state 1) by (exists [0; 1; 2; 3]; reflexivity).
  destruct (SetEvictable_tracked_effect skew_state 1 false Ht) as (A & B & _).
  split; [exact Ht|]. split; [exact A|]. rewrite B. vm_compute. reflexivity.
Defined.


(** X3. A frame that [Remove] erased and that is recorded again starts over:
    its history is the one new timestamp and it is not evictable. *)
Theorem Remove_then_RecordAccess (r : LRUKReplacer) (F : Z) :
  tracked r F → evictable r F = true →
  hist (RecordAccess (Remove r F) F) F = Some [current_timestamp_ r]
  ∧ evictable (RecordAccess (Remove r F) F) F = false
  ∧ Size (RecordAccess (Remove r F) F) = Size r - 1.
Proof.
  intros [h Hh] Hev. rewrite RecordAccess_hist, decide_True by done.
  rewrite (Remove_evictable r F h Hh Hev). unfold hist, evictable, Size. simpl.
  rewrite lookup_delete_eq, lookup_insert_eq. simpl.
  split; [done|]. split; [done|].
  rewrite Size_set_false.
  - by rewrite evictable_at_filter.
  - apply evictable_at_true. by apply evictable_Some_true.
Qed.

Lemma Remove_then_RecordAccess_witness :
  hist (RecordAccess (Remove skew_state 1) 1) 1 = Some [5]
  ∧ evictable (RecordAccess (Remove skew_state 1) 1) 1 = false.
Proof.
  assert (Ht : tracked skew_state 1) by (exists [0; 1; 2; 3]; reflexivity).
  destruct (Remove_then_RecordAccess skew_state 1 Ht eq_refl) as (A & B & _).
  split; [exact A | exact B].
Defined.

(** ** What [Evict] does to the state *)

Lemma Evict_visit_victim k now sc f h sc' :
  Evict_visit k now sc (f, h) = Some sc' →
  victim_id sc' = victim_id sc
  ∨ (victim_id sc' = f ∧ default false (scan_evictable sc !! f) = true).
Proof.
  unfold Evict_visit.
  pose proof (evictable_at_value (scan_evictable sc) f) as Hval.
  destruct (evictable_at (scan_evictable sc) f) as [cur ev]. simpl in Hval. subst cur.
  destruct (default false (scan_evictable sc !! f)); simpl.
  - intros H. apply bind_Some in H as [[found bd] [_ H]]. destruct found.
    + destruct (bd <? latest_access_time sc); injection H as <-; simpl; auto.
    + apply bind_Some in H as [back [_ H]].
      destruct (_ || _); injection H as <-; simpl; auto.
  - intros [= <-]. by left.
Qed.

Lemma Evict_scan_victim k now order : ∀ sc sc',
  Evict_scan k now order sc = Some sc' →
  victim_id sc' = victim_id sc
  ∨ ∃ h, (victim_id sc', h) ∈ order
         ∧ default false (scan_evictable sc !! victim_id sc') = true.
Proof.
  induction order as [|[f h] rest IH]; intros sc sc' H.
  - injection H as <-. by left.
  - change (Evict_visit k now sc (f, h) ≫= Evict_scan k now rest = Some sc') in H.
    apply bind_Some in H as [sc1 [H1 H2]].
    destruct (IH _ _ H2) as [E|(h' & Hin & Hfl)].
    + rewrite E. destruct (Evict_visit_victim _ _ _ _ _ _ H1) as [E1|[E1 Hfl]].
      * by left.
      * right. exists h. rewrite E1. split; [left | done].
    + right. exists h'. split; [by right|].
      rewrite <- Hfl. symmetry.
      rewrite (Evict_visit_evictable _ _ _ _ _ H1). apply evictable_at_lookup.
Qed.

Lemma Evict_scan_filter k now order sc sc' :
  Evict_scan k now order sc = Some sc' →
  filter is_true_entry (scan_evictable sc') = filter is_true_entry (scan_evictable sc).
Proof.
  intros H. apply map_eq. intros f. apply option_eq. intros b.
  rewrite !map_lookup_filter_Some. unfold is_true_entry. simpl.
  split; intros [Hb ->]; (split; [|done]);
    by apply (Evict_scan_true _ _ _ _ _ f H).
Qed.

(** X4. When [Evict] returns a frame, that frame had a history and was
    evictable, and it is not -1; afterwards it has no history and is not
    evictable, [Size()] is one less, and every other frame and the clock are
    as before.  When [Evict] returns no frame, nothing a caller can observe
    has changed.  This holds in every visiting order. *)
Theorem Evict_effect (order : list (Z * list Z)) (r r' : LRUKReplacer) (out : option Z) :
  visit_order r order → Evict_in order r = Some (out, r') →
  current_timestamp_ r' = current_timestamp_ r
  ∧ match out with
    | Some v =>
      tracked r v ∧ evictable r v = true ∧ v ≠ -1
      ∧ hist r' v = None ∧ evictable r' v = false
      ∧ Size r' = Size r - 1
      ∧ ∀ G, G ≠ v → hist r' G = hist r G ∧ evictable r' G = evictable r G
    | None =>
      Size r' = Size r
      ∧ ∀ G, hist r' G = hist r G ∧ evictable r' G = evictable r G
    end.
Proof.
  intros Hord H. unfold Evict_in in H. apply bind_Some in H as [sc [Hsc H]].
  pose proof (Evict_scan_filter _ _ _ _ _ Hsc) as Hfil. simpl in Hfil.
  destruct (Z.eqb_spec (victim_id sc) (-1)) as [E|E]; injection H as <- <-; simpl.
  - split; [done|]. split; [unfold Size; simpl; by rewrite Hfil|].
    intros G. split; [done|]. unfold evictable. simpl.
    apply (Evict_scan_evictable _ _ _ _ _ G Hsc).
  - split; [done|].
    destruct (Evict_scan_victim _ _ _ _ _ Hsc) as [E0|(h & Hin & Hfl)]; [done|].
    simpl in Hfl.
    assert (Hh : access_history_ r !! victim_id sc = Some h).
    { apply elem_of_map_to_list. unfold visit_order in Hord. by rewrite <- Hord. }
    split; [by exists h|]. split; [done|]. split; [done|].
    unfold hist, evictable, Size. simpl.
    split; [apply lookup_delete_eq|]. split; [by rewrite lookup_insert_eq|]. split.
    + rewrite Size_set_false; [by rewrite Hfil|].
      apply (Evict_scan_true _ _ _ _ _ _ Hsc). simpl. by apply evictable_Some_true.
    + intros G HG. split; [by apply lookup_delete_ne|].
      rewrite lookup_insert_ne by done.
      apply (Evict_scan_evictable _ _ _ _ _ G Hsc).
Qed.

Lemma Evict_effect_witness :
  ∃ r', Evict_in (own_order skew_state) skew_state = Some (Some 1, r')
        ∧ hist r' 1 = None ∧ Size r' = 1 ∧ hist r' 2 = Some [4].
Proof.
  destruct (Evict_in (own_order skew_state) skew_state) as [[out r']|] eqn:E;
    [|vm_compute in E; discriminate].
  assert (Hout : out = Some 1).
  { assert (H : fst <$> Evict_in (own_order skew_state) skew_state = Some (Some 1))
      by (vm_compute; reflexivity).
    rewrite E in H. simpl in H. by injection H. }
  subst out. exists r'. split; [reflexivity|].
  destruct (Evict_effect (own_order skew_state) skew_state r' (Some 1)
              (own_order_visit skew_state) E) as (_ & _ & _ & _ & A & _ & B & C).
  split; [exact A|]. split; [rewrite B; vm_compute; reflexivity|].
  destruct (C 2 ltac:(discriminate)) as [D _]. rewrite D. reflexivity.
Defined.

(** The loop passes over entries that are not evictable. *)
Lemma Evict_visit_pinned k now sc f h :
  default false (scan_evictable sc !! f) = false →
  ∃ sc', Evict_visit k now sc (f, h) = Some sc'
         ∧ victim_id sc' = victim_id sc
         ∧ ∀ g, default false (scan_evictable sc' !! g)
                = default false (scan_evictable sc !! g).
Proof.
  intros Hpin. unfold Evict_visit.
  pose proof (evictable_at_value (scan_evictable sc) f) as Hval.
  pose proof (evictable_at_lookup (scan_evictable sc) f) as Hlook.
  destruct (evictable_at (scan_evictable sc) f) as [cur ev]. simpl in Hval, Hlook.
  rewrite Hpin in Hval. subst cur. simpl. eexists. split; [done|]. by split.
Qed.

Lemma Evict_scan_all_pinned k now order : ∀ sc,
  (∀ f h, (f, h) ∈ order → default false (scan_evictable sc !! f) = false) →
  ∃ sc', Evict_scan k now order sc = Some sc' ∧ victim_id sc' = victim_id sc.
Proof.
  induction order as [|[f h] rest IH]; intros sc Hpin.
  - by exists sc.
  - change (Evict_scan k now ((f, h) :: rest) sc)
      with (Evict_visit k now sc (f, h) ≫= Evict_scan k now rest).
    destruct (Evict_visit_pinned k now sc f h) as (sc1 & H1 & Hv1 & Hfl1).
    { apply (Hpin f h). left. }
    rewrite H1. simpl. destruct (IH sc1) as (sc' & Hs & Hv).
    + intros g hg Hin. rewrite Hfl1. apply (Hpin g hg). by right.
    + exists sc'. split; [done|]. by rewrite Hv.
Qed.

(** X5. [Evict] returns no frame, and changes nothing a caller can observe,
    when [Size()] is 0, whatever the histories hold and in every visiting
    order. *)
Theorem Evict_nothing_evictable (order : list (Z * list Z)) (r : LRUKReplacer) :
  Size r = 0 →
  ∃ r', Evict_in order r = Some (None, r')
        ∧ Size r' = 0
        ∧ ∀ G, hist r' G = hist r G ∧ evictable r' G = evictable r G.
Proof.
  intros Hsz.
  assert (Hfalse : ∀ f, default false (evictable_ r !! f) = false).
  { intros f. destruct (default false (evictable_ r !! f)) eqn:E; [|done].
    apply evictable_Some_true in E.
    assert (filter is_true_entry (evictable_ r) !! f = Some true)
      by (by apply filter_lookup_true).
    assert (size (filter is_true_entry (evictable_ r)) ≠ 0%nat)
      by (eapply map_size_ne_0_lookup_2; eauto).
    unfold Size in Hsz. lia. }
  destruct (Evict_scan_all_pinned (k_ r) (current_timestamp_ r) order
              (scan_init (evictable_ r))) as (sc & Hsc & Hv).
  { intros f h _. apply Hfalse. }
  simpl in Hv. unfold Evict_in. rewrite Hsc. simpl. rewrite Hv. simpl.
  eexists. split; [done|].
  pose proof (Evict_scan_filter _ _ _ _ _ Hsc) as Hfil. simpl in Hfil.
  split; [unfold Size in *; simpl; by rewrite Hfil|].
  intros G. split; [done|]. unfold evictable. simpl.
  apply (Evict_scan_evictable _ _ _ _ _ G Hsc).
Qed.

Lemma Evict_nothing_evictable_witness :
  ∃ r', Evict_in [(7, [0])] (RecordAccess (new 7 2) 7) = Some (None, r').
Proof.
  destruct (Evict_nothing_evictable [(7, [0])] (RecordAccess (new 7 2) 7))
    as (r' & H & _); [vm_compute; reflexivity|].
  by exists r'.
Defined.


(** ** The counter [curr_size_] *)

Lemma Evict_in_Size order r out r' :
  Evict_in order r = Some (out, r') →
  Size r' = Size r - match out with Some _ => 1 | None => 0 end
  ∧ curr_size_ r' = match out with
                    | Some _ => to_size_t (curr_size_ r - 1)
                    | None => curr_size_ r
                    end
  ∧ current_timestamp_ r' = current_timestamp_ r
  ∧ k_ r' = k_ r.
Proof.
  intros H. unfold Evict_in in H. apply bind_Some in H as [sc [Hsc H]].
  pose proof (Evict_scan_filter _ _ _ _ _ Hsc) as Hfil. simpl in Hfil.
  destruct (Z.eqb_spec (victim_id sc) (-1)) as [E|E]; injection H as <- <-; simpl.
  - unfold Size. simpl. rewrite Hfil. split; [lia | done].
  - destruct (Evict_scan_victim _ _ _ _ _ Hsc) as [E0|(h & Hin & Hfl)]; [done|].
    simpl in Hfl. unfold Size. simpl. split; [|done].
    rewrite Size_set_false; [by rewrite Hfil|].
    apply (Evict_scan_true _ _ _ _ _ _ Hsc). simpl. by apply evictable_Some_true.
Qed.

Lemma to_size_t_succ z : to_size_t (to_size_t z + 1) = to_size_t (z + 1).
Proof. unfold to_size_t. apply Zplus_mod_idemp_l. Qed.

Lemma to_size_t_pred z : to_size_t (to_size_t z - 1) = to_size_t (z - 1).
Proof. unfold to_size_t. apply Zminus_mod_idemp_l. Qed.

Lemma counter_step r o r' :
  step r o r' → curr_size_ r = to_size_t (Size r) → curr_size_ r' = to_size_t (Size r').
Proof.
  intros Hs Hc. destruct Hs as [r f|r f b|r f|r order out r' Hord He].
  - done.
  - destruct (hist r f) as [h|] eqn:Hh.
    + rewrite (SetEvictable_Size r f b h Hh), (SetEvictable_tracked r f b h Hh).
      destruct (bool_decide_reflect (evictable r f = b)) as [E|E]; simpl.
      * rewrite E, Hc. f_equal. destruct b; lia.
      * destruct (evictable r f), b; try done; rewrite Hc.
        -- rewrite to_size_t_pred. f_equal. lia.
        -- rewrite to_size_t_succ. f_equal. lia.
    + unfold hist in Hh. unfold SetEvictable. by rewrite Hh.
  - destruct (hist r f) as [h|] eqn:Hh.
    + destruct (evictable r f) eqn:Hev.
      * rewrite (Remove_evictable r f h Hh Hev). unfold Size. simpl.
        rewrite Size_set_false, evictable_at_filter
          by (apply evictable_at_true; by apply evictable_Some_true).
        rewrite Hc. apply to_size_t_pred.
      * rewrite (Remove_pinned r f h Hh Hev). unfold Size. simpl.
        by rewrite evictable_at_filter.
    + by rewrite (Remove_untracked r f Hh).
  - destruct (Evict_in_Size _ _ _ _ He) as (HS & HC & _).
    rewrite HS, HC. destruct out.
    + rewrite Hc. apply to_size_t_pred.
    + rewrite Hc. f_equal. lia.
Qed.

(** X6. The counter [curr_size_] that [SetEvictable], [Remove] and [Evict]
    keep up to date always equals the count that [Size()] computes from
    [evictable_], modulo 2^64. *)
Theorem curr_size_counts_evictable
    (num_frames k : Z) (os : list op) (r : LRUKReplacer) :
  run (new num_frames k) os r → curr_size_ r = to_size_t (Size r).
Proof.
  assert (Hgen : ∀ r0 os0 r1, run r0 os0 r1 →
            curr_size_ r0 = to_size_t (Size r0) → curr_size_ r1 = to_size_t (Size r1)).
  { induction 1 as [|r0 o r1 os0 r2 Hs _ IH]; [done|].
    intros Hc. apply IH. by apply (counter_step r0 o). }
  intros Hrun. apply (Hgen _ _ _ Hrun). reflexivity.
Qed.

Lemma curr_size_witness : curr_size_ skew_state = to_size_t (Size skew_state).
Proof.
  apply (curr_size_counts_evictable 7 2 skew_calls).
  apply (replay_run own_order); [apply own_order_visit|]. vm_compute. reflexivity.
Defined.

(** ** Histories and the clock *)

Lemma timely_new n k : timely (new n k).
Proof.
  constructor; simpl.
  - split; [lia | reflexivity].
  - intros f h H. by rewrite lookup_empty in H.
  - intros f h i t H. by rewrite lookup_empty in H.
  - intros f h i j ti tj H. by rewrite lookup_empty in H.
  - intros f g hf hg i j t H. by rewrite lookup_empty in H.
Qed.

Lemma timely_RecordAccess r F :
  timely r → current_timestamp_ r + 1 < 2 ^ 64 →
  timely (RecordAccess r F)
  ∧ current_timestamp_ (RecordAccess r F) = current_timestamp_ r + 1.
Proof.
  intros HT Hnow. pose proof (timely_clock r HT) as Hc.
  assert (Enow : current_timestamp_ (RecordAccess r F) = current_timestamp_ r + 1).
  { simpl. unfold to_size_t. apply Z.mod_small. lia. }
  split; [|done].
  assert (Hlook : ∀ G h, access_history_ (RecordAccess r F) !! G = Some h →
            (G = F ∧ h = default [] (hist r F) ++ [current_timestamp_ r])
            ∨ (G ≠ F ∧ access_history_ r !! G = Some h)).
  { intros G h H. pose proof (RecordAccess_hist r F G) as E. unfold hist in E.
    rewrite E in H. destruct (decide (G = F)) as [->|Hne].
    - injection H as <-. by left.
    - by right. }
  assert (Hold : ∀ (i : nat) t, default [] (hist r F) !! i = Some t →
            0 ≤ t < current_timestamp_ r).
  { intros i t Hi. unfold hist in Hi.
    destruct (access_history_ r !! F) as [h|] eqn:Eh; simpl in Hi.
    - by apply (timely_past r HT F h i).
    - by rewrite lookup_nil in Hi. }
  assert (Hpast : ∀ G h (i : nat) t,
            access_history_ (RecordAccess r F) !! G = Some h → h !! i = Some t →
            (0 ≤ t < current_timestamp_ r
             ∧ (G = F → (i < length (default [] (hist r F)))%nat)
             ∧ (G ≠ F → access_history_ r !! G = Some h))
            ∨ (G = F ∧ t = current_timestamp_ r
               ∧ i = length (default [] (hist r F)))).
  { intros G h i t H Hi. destruct (Hlook G h H) as [[-> ->]|[Hne Hh]].
    - apply lookup_app_Some in Hi as [Hi|[Hge Hi]].
      + left. split; [by apply (Hold i)|]. split; [|done].
        intros _. by eapply lookup_lt_Some.
      + right. apply list_lookup_singleton_Some in Hi as [Hi <-].
        split; [done|]. split; [done|]. lia.
    - left. split; [by apply (timely_past r HT G h i)|]. split; done. }
  constructor.
  - rewrite Enow. lia.
  - intros G h H. destruct (Hlook G h H) as [[-> ->]|[Hne Hh]].
    + intros E. by apply app_eq_nil in E as [_ E].
    + by apply (timely_nonempty r HT G).
  - intros G h i t H Hi. rewrite Enow.
    destruct (Hpast G h i t H Hi) as [[? _]|(_ & -> & _)]; lia.
  - intros G h i j ti tj H Hi Hj Hij.
    destruct (Hpast G h i ti H Hi) as [(Hti & HiF & HiG)|(EG & Eti & Ei)];
      destruct (Hpast G h j tj H Hj) as [(Htj & HjF & HjG)|(EG' & Etj & Ej)].
    + destruct (decide (G = F)) as [->|Hne].
      * destruct (Hlook F h H) as [[_ ->]|[? _]]; [|done].
        rewrite lookup_app_l in Hi, Hj by auto.
        unfold hist in *. destruct (access_history_ r !! F) as [h0|] eqn:Eh;
          simpl in *; [|by rewrite lookup_nil in Hi].
        by apply (timely_increasing r HT F h0 i j).
      * by apply (timely_increasing r HT G h i j ti tj (HiG Hne)).
    + lia.
    + specialize (HjF EG). lia.
    + lia.
  - intros G G' hf hg i j t HG HG' Hi Hj.
    destruct (Hpast G hf i t HG Hi) as [(Hti & _ & HiG)|(EG & Et & _)];
      destruct (Hpast G' hg j t HG' Hj) as [(Htj & _ & HjG)|(EG' & Et' & _)].
    + destruct (decide (G = F)) as [->|HneG]; destruct (decide (G' = F)) as [->|HneG'];
        try done.
      * destruct (Hlook F hf HG) as [[_ ->]|[? _]]; [|done].
        apply lookup_app_Some in Hi as [Hi|[_ Hi]].
        -- unfold hist in Hi.
           destruct (access_history_ r !! F) as [h0|] eqn:Eh; simpl in Hi;
             [|by rewrite lookup_nil in Hi].
           symmetry. by apply (timely_distinct r HT G' F hg h0 j i t (HjG HneG') Eh).
        -- apply list_lookup_singleton_Some in Hi as [_ <-]. lia.
      * destruct (Hlook F hg HG') as [[_ ->]|[? _]]; [|done].
        apply lookup_app_Some in Hj as [Hj|[_ Hj]].
        -- unfold hist in Hj.
           destruct (access_history_ r !! F) as [h0|] eqn:Eh; simpl in Hj;
             [|by rewrite lookup_nil in Hj].
           by apply (timely_distinct r HT G F hf h0 i j t (HiG HneG) Eh).
        -- apply list_lookup_singleton_Some in Hj as [_ <-]. lia.
      * by apply (timely_distinct r HT G G' hf hg i j t (HiG HneG) (HjG HneG')).
    + lia.
    + lia.
    + congruence.
Qed.

(** Erasing histories keeps the histories timely. *)
Lemma timely_shrink r r' :
  timely r → current_timestamp_ r' = current_timestamp_ r →
  (∀ f h, access_history_ r' !! f = Some h → access_history_ r !! f = Some h) →
  timely r'.
Proof.
  intros HT Hc Hsub. constructor.
  - rewrite Hc. apply (timely_clock r HT).
  - intros f h H. apply (timely_nonempty r HT f h (Hsub f h H)).
  - intros f h i t H. rewrite Hc. apply (timely_past r HT f h i t (Hsub f h H)).
  - intros f h i j ti tj H. apply (timely_increasing r HT f h i j ti tj (Hsub f h H)).
  - intros f g hf hg i j t Hf Hg.
    apply (timely_distinct r HT f g hf hg i j t (Hsub f hf Hf) (Hsub g hg Hg)).
Qed.

Lemma timely_step r o r' :
  step r o r' → timely r → current_timestamp_ r + accesses [o] < 2 ^ 64 →
  timely r' ∧ current_timestamp_ r' = current_timestamp_ r + accesses [o].
Proof.
  intros Hs HT Hnow.
  destruct Hs as [r f|r f b|r f|r order out r' Hord He]; cbn [accesses] in *.
  - destruct (timely_RecordAccess r f HT) as [H1 H2]; [lia|]. split; [done|]. lia.
  - split; [|unfold SetEvictable; destruct (access_history_ r !! f);
               [destruct (evictable_at _ _) as [c e]; destruct (negb _)|]; simpl; lia].
    apply (timely_shrink r); [done| |].
    + unfold SetEvictable. destruct (access_history_ r !! f); [|done].
      destruct (evictable_at _ _) as [c e]. by destruct (negb _).
    + intros g h. unfold SetEvictable. destruct (access_history_ r !! f); [|done].
      destruct (evictable_at _ _) as [c e]. by destruct (negb _).
  - split; [|unfold Remove; destruct (access_history_ r !! f);
               [destruct (evictable_at _ _) as [c e]; destruct c|]; simpl; lia].
    apply (timely_shrink r); [done| |].
    + unfold Remove. destruct (access_history_ r !! f); [|done].
      destruct (evictable_at _ _) as [c e]. by destruct c.
    + intros g h. unfold Remove. destruct (access_history_ r !! f); [|done].
      destruct (evictable_at _ _) as [c e]. destruct c; simpl; [|done].
      intros H. by apply lookup_delete_Some in H as [_ H].
  - destruct (Evict_in_Size _ _ _ _ He) as (_ & _ & Hc & _).
    split; [|lia]. apply (timely_shrink r); [done|done|].
    apply Evict_in_state in He as [_ Hah]. rewrite Hah. intros g h.
    destruct out; [|done]. intros H. by apply lookup_delete_Some in H as [_ H].
Qed.

Lemma accesses_nonneg os : 0 ≤ accesses os.
Proof. induction os as [|[] os IH]; simpl; lia. Qed.

Lemma timely_run r os r' :
  run r os r' → timely r → current_timestamp_ r + accesses os < 2 ^ 64 →
  timely r' ∧ current_timestamp_ r' = current_timestamp_ r + accesses os.
Proof.
  induction 1 as [r|r o r1 os r2 Hs _ IH]; intros HT Hnow.
  - simpl. split; [done | lia].
  - assert (Ecat : accesses (o :: os) = accesses [o] + accesses os)
      by (destruct o; simpl; lia).
    pose proof (accesses_nonneg os).
    destruct (timely_step r o r1 Hs HT) as [HT1 Hc1]; [lia|].
    destruct (IH HT1) as [HT2 Hc2]; [lia|].
    split; [done | lia].
Qed.

(** X7. As long as fewer than 2^64 accesses have been recorded, the clock
    equals the number of [RecordAccess] calls so far, no tracked frame has
    an empty history, every timestamp is smaller than the clock, the
    timestamps of a history increase strictly, and no timestamp occurs in
    the histories of two frames. *)
Theorem histories_are_timely
    (num_frames k : Z) (os : list op) (r : LRUKReplacer) :
  run (new num_frames k) os r → accesses os < 2 ^ 64 →
  timely r ∧ current_timestamp_ r = accesses os.
Proof.
  intros Hrun Hacc.
  destruct (timely_run _ _ _ Hrun (timely_new _ _)) as [HT Hc]; [simpl; lia|].
  split; [done|]. simpl in Hc. lia.
Qed.

Lemma histories_are_timely_witness :
  timely skew_state ∧ current_timestamp_ skew_state = 5.
Proof.
  apply (histories_are_timely 7 2 skew_calls).
  - apply (replay_run own_order); [apply own_order_visit|]. vm_compute. reflexivity.
  - reflexivity.
Defined.


(** ** [Evict] finds a victim *)

Lemma Evict_visit_progress k now sc f h :
  1 ≤ k → 0 ≤ now < 2 ^ 64 →
  (default false (scan_evictable sc !! f) = true →
   f ≠ -1 ∧ h ≠ [] ∧ ∀ (i : nat) t, h !! i = Some t → 0 ≤ t < now) →
  (victim_id sc = -1 →
   max_backward_distance sc = SIZE_MIN ∧ latest_access_time sc = SIZE_MAX
   ∧ found_candidate_with_less_than_k_accesses sc = false) →
  ∃ sc', Evict_visit k now sc (f, h) = Some sc'
    ∧ (victim_id sc' = -1 →
       victim_id sc = -1 ∧ default false (scan_evictable sc !! f) = false
       ∧ max_backward_distance sc' = SIZE_MIN ∧ latest_access_time sc' = SIZE_MAX
       ∧ found_candidate_with_less_than_k_accesses sc' = false).
Proof.
  intros Hk Hnow Hfit Hinit. unfold Evict_visit.
  rewrite (surjective_pairing (evictable_at (scan_evictable sc) f)).
  rewrite evictable_at_value.
  destruct (default false (scan_evictable sc !! f)) eqn:Hflag; simpl.
  2:{ eexists. split; [done|]. simpl. intros E. by destruct (Hinit E) as (? & ? & ?). }
  destruct (Hfit eq_refl) as (Hf & Hne & Hpast).
  destruct h as [|h0 h']; [done|].
  assert (H0 : 0 ≤ h0 < now) by (apply (Hpast 0%nat); done).
  unfold SIZE_MAX, SIZE_MIN in *.
  destruct (Z.ltb_spec (Z.of_nat (length (h0 :: h'))) k) as [Hlt|Hge].
  - simpl. destruct (Z.ltb_spec h0 (latest_access_time sc)) as [Hsel|Hnot].
    + eexists. split; [done|]. simpl. done.
    + eexists. split; [done|]. simpl. intros E.
      destruct (Hinit E) as (_ & El & _). lia.
  - destruct (lookup_lt_is_Some_2 (h0 :: h')
                (Z.to_nat (Z.of_nat (length (h0 :: h')) - k))) as [hk Hhk]; [lia|].
    rewrite Hhk. simpl.
    pose proof (Hpast _ _ Hhk) as Hpk.
    assert (Ebd : to_size_t (now - hk) = now - hk).
    { unfold to_size_t. apply Z.mod_small. lia. }
    destruct (found_candidate_with_less_than_k_accesses sc) eqn:Hfound.
    + destruct (to_size_t (now - hk) <? latest_access_time sc).
      * eexists. split; [done|]. simpl. done.
      * eexists. split; [done|]. simpl. intros E.
        destruct (Hinit E) as (_ & _ & ?). done.
    + destruct (last (h0 :: h')) as [back|] eqn:Hback.
      2:{ by apply last_None in Hback. }
      simpl.
      destruct ((to_size_t (now - hk) >? max_backward_distance sc)
                || ((to_size_t (now - hk) =? max_backward_distance sc)
                    && (back <? latest_access_time sc))) eqn:Hsel.
      * eexists. split; [done|]. simpl. done.
      * eexists. split; [done|]. simpl. intros E.
        destruct (Hinit E) as (Em & _ & _).
        apply orb_false_iff in Hsel as [Hgt _]. rewrite Ebd, Em in Hgt. lia.
Qed.

Lemma Evict_visit_flags k now sc e sc' g :
  Evict_visit k now sc e = Some sc' →
  default false (scan_evictable sc' !! g) = default false (scan_evictable sc !! g).
Proof.
  intros H. rewrite (Evict_visit_evictable _ _ _ _ _ H). apply evictable_at_lookup.
Qed.

Lemma Evict_scan_progress k now order :
  1 ≤ k → 0 ≤ now < 2 ^ 64 →
  ∀ sc,
    (∀ f h, (f, h) ∈ order → default false (scan_evictable sc !! f) = true →
       f ≠ -1 ∧ h ≠ [] ∧ ∀ (i : nat) t, h !! i = Some t → 0 ≤ t < now) →
    (victim_id sc = -1 →
       max_backward_distance sc = SIZE_MIN ∧ latest_access_time sc = SIZE_MAX
       ∧ found_candidate_with_less_than_k_accesses sc = false) →
    ∃ sc', Evict_scan k now order sc = Some sc'
      ∧ (victim_id sc' = -1 →
         ∀ f h, (f, h) ∈ order → default false (scan_evictable sc !! f) = false).
Proof.
  intros Hk Hnow. induction order as [|[f h] rest IH]; intros sc Hfit Hinit.
  - exists sc. split; [done|]. intros _ f h Hin. by apply elem_of_nil in Hin.
  - destruct (Evict_visit_progress k now sc f h Hk Hnow) as (sc1 & H1 & Hv1); [|done|].
    { apply Hfit. left. }
    destruct (IH sc1) as (sc' & Hsc & Hv').
    { intros g hg Hin Hg. rewrite (Evict_visit_flags _ _ _ _ _ g H1) in Hg.
      apply Hfit; [by right | done]. }
    { intros E. by destruct (Hv1 E) as (_ & _ & ? & ? & ?). }
    exists sc'. split.
    { change (Evict_scan k now ((f, h) :: rest) sc)
        with (Evict_visit k now sc (f, h) ≫= Evict_scan k now rest).
      rewrite H1. exact Hsc. }
    intros E g hg Hin. specialize (Hv' E).
    assert (E1 : victim_id sc1 = -1).
    { destruct (Evict_scan_victim _ _ _ _ _ Hsc) as [<-|(hv & Hinv & Hflag)]; [done|].
      rewrite E in Hinv. rewrite E in Hflag.
      rewrite (Hv' _ _ Hinv) in Hflag. done. }
    apply elem_of_cons in Hin as [[= -> ->]|Hin].
    + by destruct (Hv1 E1) as (_ & ? & _).
    + rewrite <- (Evict_visit_flags _ _ _ _ _ g H1). by apply (Hv' g hg).
Qed.

Lemma run_k r os r' : run r os r' → k_ r' = k_ r.
Proof.
  induction 1 as [r|r o r1 os r2 Hs _ IH]; [done|]. rewrite IH.
  destruct Hs as [r f|r f b|r f|r order out r' Hord He].
  - done.
  - unfold SetEvictable. destruct (access_history_ r !! f); [|done].
    destruct (evictable_at _ _) as [c e]. by destruct (negb _).
  - unfold Remove. destruct (access_history_ r !! f); [|done].
    destruct (evictable_at _ _) as [c e]. by destruct c.
  - by destruct (Evict_in_Size _ _ _ _ He) as (_ & _ & _ & ?).
Qed.

Lemma Size_pos_evictable r : 0 < Size r → ∃ f, evictable_ r !! f = Some true.
Proof.
  intros Hs. unfold Size in Hs.
  destruct (map_choose (filter is_true_entry (evictable_ r))) as (f & b & Hfb).
  { intros E. rewrite E, map_size_empty in Hs. lia. }
  apply map_lookup_filter_Some in Hfb as [Hfb Hb]. unfold is_true_entry in Hb.
  simpl in Hb. subst b. by exists f.
Qed.

(** X8. [Evict] succeeds whenever it should.  In a replacer with K >= 1 that
    has recorded fewer than 2^64 accesses, none of them for the frame id -1
    that [Evict] uses for "no victim yet", a call of [Evict] while [Size()]
    is positive returns a frame, in every visiting order; no history access
    is out of range. *)
Theorem Evict_returns_frame
    (num_frames k : Z) (os : list op) (r : LRUKReplacer)
    (order : list (Z * list Z)) :
  run (new num_frames k) os r →
  1 ≤ k → accesses os < 2 ^ 64 → -1 ∉ recorded os →
  visit_order r order → 0 < Size r →
  ∃ v r', Evict_in order r = Some (Some v, r').
Proof.
  intros Hrun Hk Hacc Hminus Hord Hsize.
  destruct (timely_run _ _ _ Hrun (timely_new _ _)) as [HT _]; [simpl; lia|].
  pose proof (within_run _ _ _ Hrun ∅ (within_new _ _)) as [Htrk Hdom].
  pose proof (run_k _ _ _ Hrun) as Ek. simpl in Ek.
  assert (Hentry : ∀ f h, (f, h) ∈ order → access_history_ r !! f = Some h).
  { intros f h Hin. unfold visit_order in Hord. rewrite Hord in Hin.
    by apply elem_of_map_to_list in Hin. }
  destruct (Evict_scan_progress (k_ r) (current_timestamp_ r) order)
    with (sc := scan_init (evictable_ r)) as (sc' & Hsc & Hv).
  - lia.
  - apply (timely_clock r HT).
  - intros f h Hin _. pose proof (Hentry f h Hin) as Hh. split.
    + intros ->. apply Hminus.
      assert (-1 ∈ dom (access_history_ r)) by (apply elem_of_dom; eauto).
      set_solver.
    + split; [by apply (timely_nonempty r HT f)|].
      intros i t. by apply (timely_past r HT f h).
  - done.
  - unfold Evict_in. rewrite Hsc. simpl.
    destruct (Z.eqb_spec (victim_id sc') (-1)) as [E|E]; [|by eexists _, _].
    exfalso. destruct (Size_pos_evictable r Hsize) as [f Hf].
    destruct (Htrk f Hf) as [h Hh].
    assert (Hin : (f, h) ∈ order).
    { unfold visit_order in Hord. rewrite Hord. by apply elem_of_map_to_list. }
    specialize (Hv E f h Hin). simpl in Hv. by rewrite Hf in Hv.
Qed.

Lemma Evict_returns_frame_witness :
  ∃ v r', Evict_in (own_order skew_state) skew_state = Some (Some v, r').
Proof.
  apply (Evict_returns_frame 7 2 skew_calls).
  - apply (replay_run own_order); [apply own_order_visit|]. vm_compute. reflexivity.
  - lia.
  - reflexivity.
  - vm_compute. intros H. discriminate H.
  - apply own_order_visit.
  - vm_compute. reflexivity.
Defined.

(** Frame id -1 is the one exception: it is the initial [victim_id], so
    [Evict] reports failure although [Size()] is 1. *)
Example Evict_frame_minus_one :
  ∃ r, replay own_order (new 7 2) minus_one_calls = Some r
       ∧ Size r = 1
       ∧ fst <$> Evict_in (own_order r) r = Some None.
Proof.
  eexists. split; [vm_compute; reflexivity|].
  split; vm_compute; reflexivity.
Qed.

End LRUK.

(* ===================================================================== *)
(** * Extendible hash table                                               *)
(* ===================================================================== *)

(** [(1 << d) - 1] computed in [int].  For [d] outside [0, 30] either the
    shift or the subtraction overflows, so no result is defined. *)
Definition int_mask (d : Z) : option Z :=
  if (0 <=? d) && (d <=? 30) then Some (Z.shiftl 1 d - 1) else None.

(** [x++] on an [int]. *)
Definition int_incr (x : Z) : option Z :=
  if x <? INT_MAX then Some (x + 1) else None.

(** Conversion of a [size_t] to [int] (modular). *)
Definition to_int (z : Z) : Z := (z + 2 ^ 31) mod 2 ^ 32 - 2 ^ 31.

Module EHT.

Section Table.

Context {K V : Type} `{EqDecision K}.

(** [std::hash<K>()(key)], a [size_t]. *)
Variable hash : K → Z.

(** ** Bucket *)

Record Bucket := mkBucket {
  size_ : Z;
  depth_ : Z;
  list_ : list (K * V)
}.

(** Modelled from the spec: [Bucket::IsFull] is declared in the header
    [extendible_hash_table.h], which is not part of the sources.  A bucket
    holds at most [bucket_capacity] entries and has room while it holds
    fewer. *)
Definition IsFull (b : Bucket) : bool := size_ b <=? Z.of_nat (length (list_ b)).

(** Modelled from the spec: [Bucket::GetDepth], [Bucket::IncrementDepth] and
    [Bucket::GetItems] are declared in the same header: the local depth, its
    increment by one, and the entries. *)
Definition GetDepth (b : Bucket) : Z := depth_ b.
Definition IncrementDepth (b : Bucket) : Bucket :=
  {| size_ := size_ b; depth_ := depth_ b + 1; list_ := list_ b |}.
Definition GetItems (b : Bucket) : list (K * V) := list_ b.

(** [Bucket::Find]: the value of the first entry with the key. *)
Fixpoint find_item (l : list (K * V)) (key : K) : option V :=
  match l with
  | [] => None
  | (k, v) :: l' => if decide (k = key) then Some v else find_item l' key
  end.

Definition Bucket_Find (b : Bucket) (key : K) : option V := find_item (list_ b) key.

(** [Bucket::Remove]: erase the first entry with the key. *)
Fixpoint erase_item (l : list (K * V)) (key : K) : bool * list (K * V) :=
  match l with
  | [] => (false, [])
  | (k, v) :: l' =>
    if decide (k = key) then (true, l')
    else let '(r, l'') := erase_item l' key in (r, (k, v) :: l'')
  end.

Definition Bucket_Remove (b : Bucket) (key : K) : bool * Bucket :=
  let '(r, l) := erase_item (list_ b) key in
  (r, {| size_ := size_ b; depth_ := depth_ b; list_ := l |}).

(** The first loop of [Bucket::Insert]: overwrite the value of the first
    entry with the key, if there is one. *)
Fixpoint assign_item (l : list (K * V)) (key : K) (value : V) : option (list (K * V)) :=
  match l with
  | [] => None
  | (k, v) :: l' =>
    if decide (k = key) then Some ((k, value) :: l')
    else l'' ← assign_item l' key value; Some ((k, v) :: l'')
  end.

(** [Bucket::Insert]. *)
Definition Bucket_Insert (b : Bucket) (key : K) (value : V) : bool * Bucket :=
  match assign_item (list_ b) key value with
  | Some l => (true, {| size_ := size_ b; depth_ := depth_ b; list_ := l |})
  | None =>
    if IsFull b then (false, b)
    else (true, {| size_ := size_ b; depth_ := depth_ b;
                   list_ := list_ b ++ [(key, value)] |})
  end.

(** ** Table *)

(** The members of [ExtendibleHashTable].  [dir_] holds addresses into
    [buckets], the objects the shared pointers refer to. *)
Record ExtendibleHashTable := mkTable {
  global_depth_ : Z;
  bucket_size_ : Z;
  num_buckets_ : Z;
  dir_ : list nat;
  buckets : list Bucket
}.

(** Modelled from the spec: the constructor in the sources does not
    initialise [num_buckets_], so its first value comes from the member
    declaration in the header, which is not part of the sources.  A new
    table has [bucket_count = 1]. *)
Definition initial_num_buckets : Z := 1.

(** [ExtendibleHashTable::ExtendibleHashTable(initial_bucket_size)]. *)
Definition new (initial_bucket_size : Z) : ExtendibleHashTable :=
  {| global_depth_ := 0;
     bucket_size_ := initial_bucket_size;
     num_buckets_ := initial_num_buckets;
     dir_ := [0%nat];
     buckets := [ {| size_ := initial_bucket_size; depth_ := 0; list_ := [] |} ] |}.

(** [ExtendibleHashTable::IndexOf]. *)
Definition IndexOf (global_depth : Z) (key : K) : option Z :=
  mask ← int_mask global_depth;
  Some (Z.land (hash key) (to_size_t mask)).

Definition GetGlobalDepth (t : ExtendibleHashTable) : Z := global_depth_ t.
Definition GetNumBuckets (t : ExtendibleHashTable) : Z := num_buckets_ t.
Definition GetLocalDepth (t : ExtendibleHashTable) (dir_index : Z) : option Z :=
  a ← dir_ t !! Z.to_nat (to_size_t dir_index);
  b ← buckets t !! a;
  Some (GetDepth b).

(** [dir_.at(index)] and the bucket it points to; [None] when [at] throws. *)
Definition bucket_at (t : ExtendibleHashTable) (index : Z) : option (nat * Bucket) :=
  a ← dir_ t !! Z.to_nat index;
  b ← buckets t !! a;
  Some (a, b).

Definition set_bucket (t : ExtendibleHashTable) (a : nat) (b : Bucket)
  : ExtendibleHashTable :=
  {| global_depth_ := global_depth_ t;
     bucket_size_ := bucket_size_ t;
     num_buckets_ := num_buckets_ t;
     dir_ := dir_ t;
     buckets := <[a := b]> (buckets t) |}.

(** [ExtendibleHashTable::Find]: the value found, if any, and the table. *)
Definition Find (t : ExtendibleHashTable) (key : K)
  : option (option V * ExtendibleHashTable) :=
  index ← IndexOf (global_depth_ t) key;
  '(_, b) ← bucket_at t index;
  Some (Bucket_Find b key, t).

(** [ExtendibleHashTable::Remove]. *)
Definition Remove (t : ExtendibleHashTable) (key : K)
  : option (bool * ExtendibleHashTable) :=
  index ← IndexOf (global_depth_ t) key;
  '(a, b) ← bucket_at t index;
  match Bucket_Find b key with
  | None => Some (false, t)
  | Some _ => Some (true, set_bucket t a (Bucket_Remove b key).2)
  end.

(** The data-split loop of [Insert], lines 136-141, over the snapshot
    [origin_items]. *)
Fixpoint redistribute (global_depth local_mask origin_index : Z)
    (origin_items : list (K * V)) (origin_bucket divide_bucket : Bucket)
  : option (Bucket * Bucket) :=
  match origin_items with
  | [] => Some (origin_bucket, divide_bucket)
  | (k, v) :: rest =>
    i ← IndexOf global_depth k;
    if negb (Z.land i (to_size_t local_mask) =? origin_index) then
      redistribute global_depth local_mask origin_index rest
        (Bucket_Remove origin_bucket k).2 (Bucket_Insert divide_bucket k v).2
    else
      redistribute global_depth local_mask origin_index rest
        origin_bucket divide_bucket
  end.

(** The directory remapping loop of [Insert], lines 144-152. *)
Definition remap (local_mask origin_index divide_index : Z)
    (origin_bucket divide_bucket : nat) (dir : list nat) : list nat :=
  imap (λ dir_index old,
          if Z.land (Z.of_nat dir_index) (to_size_t local_mask) =? origin_index
          then origin_bucket
          else if Z.land (Z.of_nat dir_index) (to_size_t local_mask) =? divide_index
               then divide_bucket
               else old) dir.

(** How one pass through the body of [while (true)] ends. *)
Inductive pass :=
| Returned (t : ExtendibleHashTable)
| Again (t : ExtendibleHashTable).

(** One pass through the body of the loop of [Insert], lines 98-152. *)
Definition Insert_pass (t : ExtendibleHashTable) (key : K) (value : V) : option pass :=
  index ← IndexOf (global_depth_ t) key;
  '(a, bucket) ← bucket_at t index;
  let '(inserted, bucket1) := Bucket_Insert bucket key value in
  if inserted : bool then Some (Returned (set_bucket t a bucket1))
  else
    '(global_depth, dir) ←
      (if GetDepth bucket =? global_depth_ t then
         let primary_dir_len := to_int (Z.of_nat (length (dir_ t))) in
         g ← int_incr (global_depth_ t);
         Some (g, dir_ t ++ take (Z.to_nat primary_dir_len) (dir_ t))
       else Some (global_depth_ t, dir_ t));
    let bucket2 := IncrementDepth bucket in
    local_mask ← int_mask (GetDepth bucket2);
    let origin_index := Z.land index (to_size_t local_mask) in
    let divide_index :=
      Z.land (Z.lxor origin_index (to_size_t (Z.shiftr (Z.lnot local_mask) 1)))
             (to_size_t local_mask) in
    let divide_bucket :=
      {| size_ := bucket_size_ t; depth_ := GetDepth bucket2; list_ := [] |} in
    num_buckets ← int_incr (num_buckets_ t);
    '(origin_bucket', divide_bucket') ←
      redistribute global_depth local_mask origin_index (GetItems bucket2)
                   bucket2 divide_bucket;
    Some (Again
      {| global_depth_ := global_depth;
         bucket_size_ := bucket_size_ t;
         num_buckets_ := num_buckets;
         dir_ := remap local_mask origin_index divide_index
                       a (length (buckets t)) dir;
         buckets := <[a := origin_bucket']> (buckets t) ++ [divide_bucket'] |}).

(** How a call of [Insert] ends: it returns, it runs into an operation
    without a defined result, or the loop is still running when the fuel is
    used up. *)
Inductive outcome :=
| Ok (t : ExtendibleHashTable)
| Undefined
| OutOfFuel.

(** [ExtendibleHashTable::Insert], with a bound on the number of passes. *)
Fixpoint Insert (fuel : nat) (t : ExtendibleHashTable) (key : K) (value : V) : outcome :=
  match fuel with
  | O => OutOfFuel
  | S fuel' =>
    match Insert_pass t key value with
    | None => Undefined
    | Some (Returned t') => Ok t'
    | Some (Again t') => Insert fuel' t' key value
    end
  end.

(** ** States a client can reach *)

Inductive reachable : ExtendibleHashTable → Prop :=
| reach_new n : 0 ≤ n < 2 ^ 64 → reachable (new n)
| reach_Insert t fuel key value t' :
    reachable t → Insert fuel t key value = Ok t' → reachable t'
| reach_Remove t key r t' :
    reachable t → Remove t key = Some (r, t') → reachable t'
| reach_Find t key r t' :
    reachable t → Find t key = Some (r, t') → reachable t'.

(** Directory-bucket coherence, in the words of the specification. *)
Definition coherent (t : ExtendibleHashTable) : Prop :=
  ∀ (s : nat) a b k v,
    dir_ t !! s = Some a → buckets t !! a = Some b → (k, v) ∈ list_ b →
    Z.land (hash k) (Z.shiftl 1 (depth_ b) - 1)
    = Z.land (Z.of_nat s) (Z.shiftl 1 (depth_ b) - 1).

(** The keys stored somewhere in the table. *)
Definition stored (t : ExtendibleHashTable) (k : K) : Prop :=
  ∃ a b v, buckets t !! a = Some b ∧ (k, v) ∈ list_ b.

(** [(origin_index ^ (~local_mask >> 1)) & local_mask] for the mask of
    [d + 1] bits. *)
Definition image (d origin_index : Z) : Z :=
  Z.land (Z.lxor origin_index (to_size_t (Z.shiftr (Z.lnot (Z.ones (d + 1))) 1)))
         (to_size_t (Z.ones (d + 1))).

(** The invariant of the tables a client can reach.  Residues modulo
    [2 ^ d] stand for the low [d] bits. *)
Record Inv (t : ExtendibleHashTable) : Prop := mkInv {
  inv_depth : 0 ≤ global_depth_ t ≤ 30;
  inv_length : Z.of_nat (length (dir_ t)) = 2 ^ global_depth_ t;
  inv_target : ∀ (s : nat) a, dir_ t !! s = Some a →
    ∃ b, buckets t !! a = Some b
         ∧ 0 ≤ depth_ b ≤ global_depth_ t ∧ size_ b = bucket_size_ t;
  inv_share : ∀ (s s' : nat) a b,
    dir_ t !! s = Some a → buckets t !! a = Some b → (s' < length (dir_ t))%nat →
    (dir_ t !! s' = Some a
     ↔ Z.of_nat s' mod 2 ^ depth_ b = Z.of_nat s mod 2 ^ depth_ b);
  inv_entries : ∀ (s : nat) a b k v,
    dir_ t !! s = Some a → buckets t !! a = Some b → (k, v) ∈ list_ b →
    hash k mod 2 ^ depth_ b = Z.of_nat s mod 2 ^ depth_ b;
  inv_used : ∀ a, (a < length (buckets t))%nat → ∃ s : nat, dir_ t !! s = Some a;
  inv_count : num_buckets_ t = Z.of_nat (length (buckets t))
}.

(** The hash separates the stored keys and [key] on its low 30 bits, the
    most a directory indexed through an [int] mask can use. *)
Definition separated (t : ExtendibleHashTable) (key : K) : Prop :=
  ∀ k1 k2, (stored t k1 ∨ k1 = key) → (stored t k2 ∨ k2 = key) →
           hash k1 mod 2 ^ 30 = hash k2 mod 2 ^ 30 → k1 = k2.

(** The hash is injective on the stored keys and [key]. *)
Definition injective_on_keys (t : ExtendibleHashTable) (key : K) : Prop :=
  ∀ k1 k2, (stored t k1 ∨ k1 = key) → (stored t k2 ∨ k2 = key) →
           hash k1 = hash k2 → k1 = k2.

(** The value bound to a key, read as [Find] reads it. *)
Definition binding (t : ExtendibleHashTable) (key : K) : option (option V) :=
  fst <$> Find t key.

(** The table after the split of the bucket [b] at address [a], found full
    at the slot of [key]; [ob'] and [db'] are the two buckets the data split
    ends with. *)
Definition split_table (t : ExtendibleHashTable) (key : K) (a : nat) (b ob' db' : Bucket)
  : ExtendibleHashTable :=
  let index := hash key mod 2 ^ global_depth_ t in
  let o := index mod 2 ^ (depth_ b + 1) in
  {| global_depth_ :=
       if depth_ b =? global_depth_ t then global_depth_ t + 1 else global_depth_ t;
     bucket_size_ := bucket_size_ t;
     num_buckets_ := num_buckets_ t + 1;
     dir_ := remap (Z.ones (depth_ b + 1)) o (image (depth_ b) o) a (length (buckets t))
                   (if depth_ b =? global_depth_ t then dir_ t ++ dir_ t else dir_ t);
     buckets := <[a := ob']> (buckets t) ++ [db'] |}.

Definition split_data (t : ExtendibleHashTable) (key : K) (b : Bucket)
  : option (Bucket * Bucket) :=
  redistribute
    (if depth_ b =? global_depth_ t then global_depth_ t + 1 else global_depth_ t)
    (Z.ones (depth_ b + 1))
    ((hash key mod 2 ^ global_depth_ t) mod 2 ^ (depth_ b + 1))
    (list_ b) (IncrementDepth b)
    {| size_ := bucket_size_ t; depth_ := depth_ b + 1; list_ := [] |}.

(** The table between the directory doubling and the split. *)
Definition grown (t : ExtendibleHashTable) (b : Bucket) : ExtendibleHashTable :=
  if depth_ b =? global_depth_ t then
    {| global_depth_ := global_depth_ t + 1;
       bucket_size_ := bucket_size_ t;
       num_buckets_ := num_buckets_ t;
       dir_ := dir_ t ++ dir_ t;
       buckets := buckets t |}
  else t.


(** A bucket that holds each key once and no more entries than its
    capacity. *)
Definition tidy_bucket (b : Bucket) : Prop :=
  NoDup (list_ b).*1 ∧ Z.of_nat (length (list_ b)) ≤ size_ b.

Definition tidy (t : ExtendibleHashTable) : Prop :=
  ∀ a b, buckets t !! a = Some b → tidy_bucket b.

(** The number of entries in all buckets. *)
Definition entries (t : ExtendibleHashTable) : nat :=
  sum_list_with (λ b, length (list_ b)) (buckets t).
(** ** Masks and residues *)

Lemma int_mask_Some d m : int_mask d = Some m → 0 ≤ d ≤ 30 ∧ m = Z.ones d.
Proof.
  unfold int_mask. destruct (0 <=? d) eqn:E1; destruct (d <=? 30) eqn:E2; simpl;
    intros H; try discriminate.
  injection H as <-. split; [lia|].
  rewrite Z.shiftl_1_l, Z.ones_equiv. lia.
Qed.

Lemma int_mask_defined d : 0 ≤ d ≤ 30 → int_mask d = Some (Z.ones d).
Proof.
  intros Hd. unfold int_mask.
  destruct (0 <=? d) eqn:E1; destruct (d <=? 30) eqn:E2; simpl; try lia.
  by rewrite Z.shiftl_1_l, Z.ones_equiv.
Qed.

Lemma ones_range d : 0 ≤ d ≤ 30 → 0 ≤ Z.ones d < 2 ^ 31.
Proof.
  intros Hd. rewrite Z.ones_equiv.
  assert (0 < 2 ^ d) by (apply Z.pow_pos_nonneg; lia).
  assert (2 ^ d ≤ 2 ^ 30) by (apply Z.pow_le_mono_r; lia).
  lia.
Qed.

Lemma to_size_t_ones d : 0 ≤ d ≤ 30 → to_size_t (Z.ones d) = Z.ones d.
Proof.
  intros Hd. unfold to_size_t. apply Z.mod_small.
  pose proof (ones_range d Hd). lia.
Qed.

Lemma land_mask d x : 0 ≤ d ≤ 30 → Z.land x (to_size_t (Z.ones d)) = x mod 2 ^ d.
Proof. intros Hd. rewrite to_size_t_ones by done. apply Z.land_ones. lia. Qed.

Lemma mod_pow2_bits_eq n x y :
  0 ≤ n →
  x mod 2 ^ n = y mod 2 ^ n ↔ ∀ i, 0 ≤ i < n → Z.testbit x i = Z.testbit y i.
Proof.
  intros Hn. split.
  - intros E i Hi.
    rewrite <- (Z.mod_pow2_bits_low x n i), <- (Z.mod_pow2_bits_low y n i) by lia.
    by rewrite E.
  - intros E. apply Z.bits_inj'. intros i Hi.
    destruct (Z.lt_ge_cases i n).
    + rewrite !Z.mod_pow2_bits_low by lia. apply E. lia.
    + rewrite !Z.mod_pow2_bits_high by lia. done.
Qed.

Lemma mod_pow2_le a b x y :
  0 ≤ a ≤ b → x mod 2 ^ b = y mod 2 ^ b → x mod 2 ^ a = y mod 2 ^ a.
Proof.
  intros Hab E. apply mod_pow2_bits_eq; [lia|]. intros i Hi.
  apply (proj1 (mod_pow2_bits_eq b x y ltac:(lia)) E). lia.
Qed.

Lemma mod_pow2_mod a b x : 0 ≤ a ≤ b → (x mod 2 ^ b) mod 2 ^ a = x mod 2 ^ a.
Proof.
  intros Hab. apply mod_pow2_bits_eq; [lia|]. intros i Hi.
  apply Z.mod_pow2_bits_low. lia.
Qed.

Lemma mod_pow2_range n x : 0 ≤ n → 0 ≤ x mod 2 ^ n < 2 ^ n.
Proof. intros Hn. apply Z.mod_pos_bound. apply Z.pow_pos_nonneg; lia. Qed.

Lemma mod_pow2_succ d x y :
  0 ≤ d → x mod 2 ^ d = y mod 2 ^ d → Z.testbit x d = Z.testbit y d →
  x mod 2 ^ (d + 1) = y mod 2 ^ (d + 1).
Proof.
  intros Hd E Eb. apply mod_pow2_bits_eq; [lia|]. intros i Hi.
  destruct (decide (i = d)) as [->|Hne]; [done|].
  apply (proj1 (mod_pow2_bits_eq d x y Hd) E). lia.
Qed.

(** ** The index of the split image *)

Lemma image_bits d o i :
  0 ≤ d → d + 1 ≤ 30 → 0 ≤ i →
  Z.testbit (image d o) i
  = if i <? d + 1 then xorb (Z.testbit o i) (i =? d) else false.
Proof.
  intros Hd Hd' Hi. unfold image.
  rewrite to_size_t_ones by lia.
  rewrite Z.land_spec, Z.lxor_spec, Z.testbit_ones_nonneg by lia.
  destruct (i <? d + 1) eqn:E.
  - apply Z.ltb_lt in E. rewrite andb_true_r. f_equal.
    unfold to_size_t. rewrite Z.mod_pow2_bits_low by lia.
    rewrite Z.shiftr_spec, Z.lnot_spec by lia.
    rewrite Z.testbit_ones_nonneg by lia.
    destruct (decide (i = d)) as [->|Hne].
    + rewrite Z.eqb_refl. replace (d + 1 <? d + 1) with false by (symmetry; apply Z.ltb_ge; lia). done.
    + replace (i =? d) with false by (symmetry; apply Z.eqb_neq; lia).
      replace (i + 1 <? d + 1) with true by (symmetry; apply Z.ltb_lt; lia). done.
  - apply andb_false_r.
Qed.

Lemma image_range d o : 0 ≤ d → d + 1 ≤ 30 → 0 ≤ image d o < 2 ^ (d + 1).
Proof.
  intros Hd Hd'. unfold image. rewrite land_mask by lia.
  apply mod_pow2_range. lia.
Qed.

Lemma image_low d o : 0 ≤ d → d + 1 ≤ 30 → image d o mod 2 ^ d = o mod 2 ^ d.
Proof.
  intros Hd Hd'. apply mod_pow2_bits_eq; [lia|]. intros i Hi.
  rewrite image_bits by lia.
  replace (i <? d + 1) with true by (symmetry; apply Z.ltb_lt; lia).
  replace (i =? d) with false by (symmetry; apply Z.eqb_neq; lia).
  apply xorb_false_r.
Qed.

Lemma image_top d o : 0 ≤ d → d + 1 ≤ 30 → Z.testbit (image d o) d = negb (Z.testbit o d).
Proof.
  intros Hd Hd'. rewrite image_bits by lia.
  replace (d <? d + 1) with true by (symmetry; apply Z.ltb_lt; lia).
  rewrite Z.eqb_refl. apply xorb_true_r.
Qed.

Lemma image_neq d o : 0 ≤ d → d + 1 ≤ 30 → image d o ≠ o.
Proof.
  intros Hd Hd' E. pose proof (image_top d o Hd Hd') as H. rewrite E in H.
  destruct (Z.testbit o d); discriminate.
Qed.

(** A slot with the low [d] bits of the origin falls, on [d + 1] bits, on
    the origin or on its image. *)
Lemma split_classes d o s :
  0 ≤ d → d + 1 ≤ 30 → 0 ≤ o < 2 ^ (d + 1) →
  s mod 2 ^ d = o mod 2 ^ d →
  s mod 2 ^ (d + 1) = o ∨ s mod 2 ^ (d + 1) = image d o.
Proof.
  intros Hd Hd' Ho E.
  destruct (decide (Z.testbit s d = Z.testbit o d)) as [Eb|Eb].
  - left. rewrite (mod_pow2_succ d s o) by done. apply Z.mod_small. lia.
  - right. rewrite (mod_pow2_succ d s (image d o)).
    + apply Z.mod_small. apply image_range; lia.
    + lia.
    + by rewrite image_low.
    + rewrite image_top by lia. destruct (Z.testbit s d), (Z.testbit o d); done.
Qed.
(** ** Buckets *)

Lemma find_item_Some l key v : find_item l key = Some v → (key, v) ∈ l.
Proof.
  induction l as [|[k w] l IH]; simpl; [discriminate|].
  destruct (decide (k = key)) as [->|Hne].
  - intros [= ->]. left.
  - intros H. right. by apply IH.
Qed.

Lemma find_item_None l key v : find_item l key = None → (key, v) ∉ l.
Proof.
  induction l as [|[k w] l IH]; simpl; intros H Hin.
  - by apply elem_of_nil in Hin.
  - destruct (decide (k = key)) as [->|Hne]; [discriminate|].
    apply elem_of_cons in Hin as [[= <- _]|Hin]; [done|]. by apply IH.
Qed.

Lemma assign_item_None l key value :
  assign_item l key value = None ↔ find_item l key = None.
Proof.
  induction l as [|[k w] l IH]; simpl; [done|].
  destruct (decide (k = key)); [split; discriminate|].
  destruct (assign_item l key value); simpl.
  - split; [discriminate|]. intros H. apply IH in H. discriminate.
  - split; [|done]. intros _. by apply IH.
Qed.

Lemma assign_item_find l key value l' :
  assign_item l key value = Some l' → find_item l' key = Some value.
Proof.
  revert l'. induction l as [|[k w] l IH]; simpl; intros l'; [discriminate|].
  destruct (decide (k = key)) as [->|Hne].
  - intros [= <-]. simpl. by rewrite decide_True.
  - destruct (assign_item l key value) as [l''|]; simpl; [|discriminate].
    intros [= <-]. simpl. rewrite decide_False by done. by apply IH.
Qed.

Lemma assign_item_find_ne l key value l' key' :
  key' ≠ key → assign_item l key value = Some l' →
  find_item l' key' = find_item l key'.
Proof.
  intros Hk. revert l'. induction l as [|[k w] l IH]; simpl; intros l'; [discriminate|].
  destruct (decide (k = key)) as [->|Hne].
  - intros [= <-]. simpl. by rewrite !decide_False by done.
  - destruct (assign_item l key value) as [l''|]; simpl; [|discriminate].
    intros [= <-]. simpl. destruct (decide (k = key')); [done|]. by apply IH.
Qed.

Lemma assign_item_elem l key value l' k v :
  assign_item l key value = Some l' → (k, v) ∈ l' →
  (k = key ∧ v = value ∧ is_Some (find_item l key)) ∨ (k, v) ∈ l.
Proof.
  revert l'. induction l as [|[k0 w] l IH]; simpl; intros l'; [discriminate|].
  destruct (decide (k0 = key)) as [->|Hne].
  - intros [= <-] Hin. apply elem_of_cons in Hin as [[= -> ->]|Hin].
    + left. eauto.
    + right. by right.
  - destruct (assign_item l key value) as [l''|]; simpl; [|discriminate].
    intros [= <-] Hin. apply elem_of_cons in Hin as [[= -> ->]|Hin].
    + right. left.
    + destruct (IH l'' eq_refl Hin) as [?|?]; [by left | right; by right].
Qed.

Lemma assign_item_length l key value l' :
  assign_item l key value = Some l' → length l' = length l.
Proof.
  revert l'. induction l as [|[k0 w] l IH]; simpl; intros l'; [discriminate|].
  destruct (decide (k0 = key)) as [->|Hne].
  - by intros [= <-].
  - destruct (assign_item l key value) as [l''|]; simpl; [|discriminate].
    intros [= <-]. simpl. f_equal. by apply IH.
Qed.

Lemma find_item_app_new l key value :
  find_item l key = None → find_item (l ++ [(key, value)]) key = Some value.
Proof.
  induction l as [|[k w] l IH]; simpl.
  - intros _. by rewrite decide_True.
  - destruct (decide (k = key)); [discriminate | done].
Qed.

Lemma find_item_app_ne l key value key' :
  key' ≠ key → find_item (l ++ [(key, value)]) key' = find_item l key'.
Proof.
  intros Hk. induction l as [|[k w] l IH]; simpl.
  - by rewrite decide_False.
  - destruct (decide (k = key')); done.
Qed.

Lemma erase_item_elem l key k v : (k, v) ∈ (erase_item l key).2 → (k, v) ∈ l.
Proof.
  induction l as [|[k0 w] l IH]; simpl; [done|].
  destruct (decide (k0 = key)) as [->|Hne]; simpl.
  - intros H. by right.
  - destruct (erase_item l key) as [r l'']. simpl in *.
    intros H. apply elem_of_cons in H as [->|H]; [left | right; by apply IH].
Qed.

Lemma erase_item_find_ne l key key' :
  key' ≠ key → find_item (erase_item l key).2 key' = find_item l key'.
Proof.
  intros Hk. induction l as [|[k0 w] l IH]; simpl; [done|].
  destruct (decide (k0 = key)) as [->|Hne]; simpl.
  - by rewrite decide_False.
  - destruct (erase_item l key) as [r l'']. simpl in *.
    destruct (decide (k0 = key')); done.
Qed.

(** Erasing a key whose first entry follows a prefix without that key. *)
Lemma erase_item_middle pre key v rest :
  (∀ k w, (k, w) ∈ pre → k ≠ key) →
  (erase_item (pre ++ (key, v) :: rest) key).2 = pre ++ rest.
Proof.
  induction pre as [|[k0 w0] pre IH]; simpl; intros Hpre.
  - by rewrite decide_True.
  - rewrite decide_False by (apply (Hpre k0 w0); left).
    specialize (IH (λ k w H, Hpre k w (list_elem_of_further _ _ _ H))).
    destruct (erase_item (pre ++ (key, v) :: rest) key) as [r l'']. simpl in *.
    by rewrite IH.
Qed.

Lemma Bucket_Insert_depth b key value :
  depth_ (Bucket_Insert b key value).2 = depth_ b
  ∧ size_ (Bucket_Insert b key value).2 = size_ b.
Proof.
  unfold Bucket_Insert. destruct (assign_item (list_ b) key value); simpl; [done|].
  destruct (IsFull b); done.
Qed.

Lemma Bucket_Insert_elem b key value k v :
  (k, v) ∈ list_ (Bucket_Insert b key value).2 →
  (k = key ∧ v = value) ∨ (k, v) ∈ list_ b.
Proof.
  unfold Bucket_Insert. destruct (assign_item (list_ b) key value) as [l|] eqn:E; simpl.
  - intros H. destruct (assign_item_elem _ _ _ _ _ _ E H) as [(-> & -> & _)|?]; auto.
  - destruct (IsFull b); simpl; [auto|].
    intros H. apply elem_of_app in H as [H|H]; [auto|].
    apply list_elem_of_singleton in H as [= -> ->]. auto.
Qed.

Lemma Bucket_Insert_found b key value b' :
  Bucket_Insert b key value = (true, b') → Bucket_Find b' key = Some value.
Proof.
  unfold Bucket_Insert, Bucket_Find.
  destruct (assign_item (list_ b) key value) as [l|] eqn:E.
  - intros [= <-]. simpl. by eapply assign_item_find.
  - destruct (IsFull b); [discriminate|]. intros [= <-]. simpl.
    apply find_item_app_new. by apply assign_item_None in E.
Qed.

Lemma Bucket_Insert_other b key value key' :
  key' ≠ key →
  Bucket_Find (Bucket_Insert b key value).2 key' = Bucket_Find b key'.
Proof.
  intros Hk. unfold Bucket_Insert, Bucket_Find.
  destruct (assign_item (list_ b) key value) as [l|] eqn:E; simpl.
  - by eapply assign_item_find_ne.
  - destruct (IsFull b); simpl; [done|]. by apply find_item_app_ne.
Qed.

(** An insertion that fails leaves the bucket alone; the bucket is then
    full and does not hold the key. *)
Lemma Bucket_Insert_full b key value b' :
  Bucket_Insert b key value = (false, b') →
  b' = b ∧ Bucket_Find b key = None ∧ IsFull b = true.
Proof.
  unfold Bucket_Insert, Bucket_Find.
  destruct (assign_item (list_ b) key value) as [l|] eqn:E; [discriminate|].
  destruct (IsFull b); [|discriminate]. intros [= <-].
  split; [done|]. split; [|done]. by apply assign_item_None in E.
Qed.

(** A bucket that holds the key takes the new value in place. *)
Lemma Bucket_Insert_present b key value v0 :
  Bucket_Find b key = Some v0 →
  ∃ l, Bucket_Insert b key value
       = (true, {| size_ := size_ b; depth_ := depth_ b; list_ := l |})
       ∧ length l = length (list_ b).
Proof.
  unfold Bucket_Insert, Bucket_Find. intros Hf.
  destruct (assign_item (list_ b) key value) as [l|] eqn:E.
  - exists l. split; [done|]. by eapply assign_item_length.
  - apply assign_item_None in E. congruence.
Qed.

Lemma Bucket_Remove_depth b key :
  depth_ (Bucket_Remove b key).2 = depth_ b ∧ size_ (Bucket_Remove b key).2 = size_ b.
Proof. unfold Bucket_Remove. by destruct (erase_item (list_ b) key). Qed.

Lemma Bucket_Remove_list b key :
  list_ (Bucket_Remove b key).2 = (erase_item (list_ b) key).2.
Proof. unfold Bucket_Remove. by destruct (erase_item (list_ b) key). Qed.

Lemma Bucket_Remove_other b key key' :
  key' ≠ key → Bucket_Find (Bucket_Remove b key).2 key' = Bucket_Find b key'.
Proof.
  intros Hk. unfold Bucket_Find. rewrite Bucket_Remove_list.
  by apply erase_item_find_ne.
Qed.

(** ** Indexing *)

Lemma IndexOf_value g key : 0 ≤ g ≤ 30 → IndexOf g key = Some (hash key mod 2 ^ g).
Proof.
  intros Hg. unfold IndexOf. rewrite (int_mask_defined g Hg). simpl.
  by rewrite land_mask.
Qed.

Lemma IndexOf_Some g key i :
  IndexOf g key = Some i → 0 ≤ g ≤ 30 ∧ i = hash key mod 2 ^ g.
Proof.
  unfold IndexOf. intros H. apply bind_Some in H as [m [Hm H]].
  apply int_mask_Some in Hm as [Hg ->]. injection H as <-.
  split; [done|]. by rewrite land_mask.
Qed.

Lemma slot_in_range t key :
  Inv t → (Z.to_nat (hash key mod 2 ^ global_depth_ t) < length (dir_ t))%nat.
Proof.
  intros HI. pose proof (inv_depth t HI). pose proof (inv_length t HI).
  pose proof (mod_pow2_range (global_depth_ t) (hash key) ltac:(lia)). lia.
Qed.

Lemma bucket_at_slot t key :
  Inv t →
  ∃ a b, bucket_at t (hash key mod 2 ^ global_depth_ t) = Some (a, b)
         ∧ dir_ t !! Z.to_nat (hash key mod 2 ^ global_depth_ t) = Some a
         ∧ buckets t !! a = Some b
         ∧ 0 ≤ depth_ b ≤ global_depth_ t ∧ size_ b = bucket_size_ t.
Proof.
  intros HI. pose proof (slot_in_range t key HI) as Hlt.
  apply lookup_lt_is_Some in Hlt as [a Ha].
  destruct (inv_target t HI _ _ Ha) as (b & Hb & Hd & Hs).
  exists a, b. unfold bucket_at. rewrite Ha. simpl. rewrite Hb. simpl. auto.
Qed.

(** ** The data split *)

Lemma redistribute_spec g d o :
  0 ≤ g ≤ 30 → 0 ≤ d → d + 1 ≤ g →
  ∀ items pre ob db,
    list_ ob = pre ++ items →
    (∀ k v, (k, v) ∈ pre → hash k mod 2 ^ (d + 1) = o) →
    ∃ ob' db',
      redistribute g (Z.ones (d + 1)) o items ob db = Some (ob', db')
      ∧ depth_ ob' = depth_ ob ∧ size_ ob' = size_ ob
      ∧ depth_ db' = depth_ db ∧ size_ db' = size_ db
      ∧ list_ ob' = pre ++ filter (λ kv, hash kv.1 mod 2 ^ (d + 1) = o) items
      ∧ (∀ k v, (k, v) ∈ list_ db' →
           (k, v) ∈ list_ db ∨ ((k, v) ∈ items ∧ hash k mod 2 ^ (d + 1) ≠ o)).
Proof.
  intros Hg Hd Hdg. induction items as [|[k v] rest IH]; intros pre ob db Hl Hpre.
  - exists ob, db. simpl. rewrite Hl. repeat split; auto.
  - simpl. rewrite (IndexOf_value g k Hg). simpl.
    rewrite land_mask, mod_pow2_mod by lia.
    destruct (decide (hash k mod 2 ^ (d + 1) = o)) as [E|E].
    + replace (hash k mod 2 ^ (d + 1) =? o) with true by (symmetry; by apply Z.eqb_eq).
      simpl.
      destruct (IH (pre ++ [(k, v)]) ob db) as (ob' & db' & Hr & ? & ? & ? & ? & Hlo & Hld).
      { by rewrite <- app_assoc. }
      { intros k' v' Hin. apply elem_of_app in Hin as [Hin|Hin]; [by eapply Hpre|].
        apply list_elem_of_singleton in Hin as [= -> ->]. done. }
      exists ob', db'. repeat split; try done.
      * rewrite Hlo, filter_cons_True by done. by rewrite <- app_assoc.
      * intros k' v' Hin. destruct (Hld k' v' Hin) as [?|[? ?]]; [by left|].
        right. split; [by right | done].
    + replace (hash k mod 2 ^ (d + 1) =? o) with false by (symmetry; by apply Z.eqb_neq).
      simpl.
      destruct (IH pre (Bucket_Remove ob k).2 (Bucket_Insert db k v).2)
        as (ob' & db' & Hr & Hdo & Hso & Hdd & Hsd & Hlo & Hld).
      { rewrite Bucket_Remove_list, Hl. apply erase_item_middle.
        intros k' w' Hin ->. apply E. by eapply Hpre. }
      { done. }
      exists ob', db'.
      destruct (Bucket_Remove_depth ob k) as [? ?].
      destruct (Bucket_Insert_depth db k v) as [? ?].
      repeat split; try congruence.
      * rewrite Hlo, filter_cons_False by done. done.
      * intros k' v' Hin. destruct (Hld k' v' Hin) as [Hin'|[? ?]].
        -- apply Bucket_Insert_elem in Hin' as [[-> ->]|?]; [|by left].
           right. split; [left | done].
        -- right. split; [by right | done].
Qed.

(** ** The directory *)

Lemma remap_lookup m o dv a a' dir (s : nat) :
  remap m o dv a a' dir !! s
  = (λ old, if Z.land (Z.of_nat s) (to_size_t m) =? o then a
            else if Z.land (Z.of_nat s) (to_size_t m) =? dv then a' else old)
    <$> dir !! s.
Proof. unfold remap. apply list_lookup_imap. Qed.

Lemma remap_length m o dv a a' dir : length (remap m o dv a a' dir) = length dir.
Proof. unfold remap. apply length_imap. Qed.

(** The doubled directory repeats the old one. *)
Lemma lookup_twice (dir : list nat) (s : nat) :
  (s < length dir + length dir)%nat →
  (dir ++ dir) !! s = dir !! (if decide (s < length dir)%nat then s else (s - length dir)%nat).
Proof.
  intros Hs. destruct (decide (s < length dir)%nat).
  - by apply lookup_app_l.
  - apply lookup_app_r. lia.
Qed.

Lemma fold_slot_residue len g d (s : nat) :
  Z.of_nat len = 2 ^ g → 0 ≤ d ≤ g →
  Z.of_nat (if decide (s < len)%nat then s else (s - len)%nat) mod 2 ^ d
  = Z.of_nat s mod 2 ^ d.
Proof.
  intros Hlen Hd. destruct (decide (s < len)%nat) as [|Hge]; [done|].
  rewrite Nat2Z.inj_sub by lia. rewrite Hlen.
  replace (2 ^ g) with (2 ^ (g - d) * 2 ^ d)
    by (rewrite <- Z.pow_add_r by lia; f_equal; lia).
  rewrite Zminus_mod, Z_mod_mult, Z.sub_0_r. apply Z.mod_mod.
  apply Z.pow_nonzero; lia.
Qed.

Lemma Inv_double t :
  Inv t → global_depth_ t + 1 ≤ 30 →
  Inv {| global_depth_ := global_depth_ t + 1;
         bucket_size_ := bucket_size_ t;
         num_buckets_ := num_buckets_ t;
         dir_ := dir_ t ++ dir_ t;
         buckets := buckets t |}.
Proof.
  intros HI Hg.
  pose proof (inv_depth t HI) as Hd. pose proof (inv_length t HI) as Hlen.
  assert (Hlook : ∀ s : nat, (s < length (dir_ t ++ dir_ t))%nat →
            (dir_ t ++ dir_ t) !! s
            = dir_ t !! (if decide (s < length (dir_ t))%nat then s
                         else (s - length (dir_ t))%nat)).
  { intros s Hs. rewrite length_app in Hs. by apply lookup_twice. }
  assert (Hin : ∀ (s : nat) a, (dir_ t ++ dir_ t) !! s = Some a →
            dir_ t !! (if decide (s < length (dir_ t))%nat then s
                       else (s - length (dir_ t))%nat) = Some a).
  { intros s a Hs. rewrite <- Hlook; [done|]. by eapply lookup_lt_Some. }
  constructor; simpl.
  - lia.
  - rewrite length_app, Nat2Z.inj_add, Hlen, Z.pow_add_r by lia. lia.
  - intros s a Hs. destruct (inv_target t HI _ _ (Hin s a Hs)) as (b & ? & ? & ?).
    exists b. repeat split; try done; lia.
  - intros s s' a b Hs Hb Hs'.
    destruct (inv_target t HI _ _ (Hin s a Hs)) as (b' & Hb' & Hdb & _).
    assert (b' = b) by congruence. subst b'.
    rewrite (Hlook s' Hs').
    rewrite (inv_share t HI _ (if decide (s' < length (dir_ t))%nat then s'
                               else (s' - length (dir_ t))%nat) a b (Hin s a Hs) Hb).
    + rewrite !(fold_slot_residue _ (global_depth_ t)) by (done || lia). done.
    + rewrite length_app in Hs'. destruct (decide (s' < length (dir_ t))%nat); lia.
  - intros s a b k v Hs Hb Hkv.
    destruct (inv_target t HI _ _ (Hin s a Hs)) as (b' & Hb' & Hdb & _).
    assert (b' = b) by congruence. subst b'.
    rewrite (inv_entries t HI _ a b k v (Hin s a Hs) Hb Hkv).
    by apply (fold_slot_residue _ (global_depth_ t)).
  - intros a Ha. destruct (inv_used t HI a Ha) as [s Hs].
    exists s. rewrite lookup_app_l; [done|]. by eapply lookup_lt_Some.
  - apply (inv_count t HI).
Qed.

(** ** One split keeps the invariant *)

Section SplitStep.

Variable t : ExtendibleHashTable.
Variable index : nat.
Variable a : nat.
Variables b ob db : Bucket.

Hypothesis HI : Inv t.
Hypothesis Hdir : dir_ t !! index = Some a.
Hypothesis Hb : buckets t !! a = Some b.
Hypothesis Hdg : depth_ b + 1 ≤ global_depth_ t.

Let d := depth_ b.
Let o := Z.of_nat index mod 2 ^ (d + 1).
Let dv := image d o.
Let a' := length (buckets t).
Let dir' := remap (Z.ones (d + 1)) o dv a a' (dir_ t).
Let buckets' := <[a := ob]> (buckets t) ++ [db].

Local Lemma split_d_range : 0 ≤ d ∧ d + 1 ≤ 30.
Proof.
  destruct (inv_target t HI _ _ Hdir) as (b0 & Hb0 & Hd0 & _).
  assert (b0 = b) by congruence. subst b0.
  pose proof (inv_depth t HI). unfold d. lia.
Qed.

Local Lemma split_o_range : 0 ≤ o < 2 ^ (d + 1).
Proof. apply mod_pow2_range. pose proof split_d_range. lia. Qed.

Local Lemma split_a_lt : (a < length (buckets t))%nat.
Proof. by eapply lookup_lt_Some. Qed.

Local Lemma split_old_class (s : nat) :
  (s < length (dir_ t))%nat →
  dir_ t !! s = Some a
  ↔ (Z.of_nat s mod 2 ^ (d + 1) = o ∨ Z.of_nat s mod 2 ^ (d + 1) = dv).
Proof.
  intros Hs. pose proof split_d_range as [Hd0 Hd30]. pose proof split_o_range as Ho.
  rewrite (inv_share t HI index s a b Hdir Hb Hs). fold d.
  assert (Eo : o mod 2 ^ d = Z.of_nat index mod 2 ^ d)
    by (apply mod_pow2_mod; lia).
  split.
  - intros E. apply split_classes; lia || congruence.
  - intros [E|E].
    + rewrite <- Eo, <- E. symmetry. apply mod_pow2_mod. lia.
    + rewrite <- Eo, <- (image_low d o) by lia. fold dv. rewrite <- E.
      symmetry. apply mod_pow2_mod. lia.
Qed.

Local Lemma split_dir_lookup (s : nat) x :
  dir' !! s = Some x
  ↔ (s < length (dir_ t))%nat
    ∧ ((x = a ∧ Z.of_nat s mod 2 ^ (d + 1) = o)
       ∨ (x = a' ∧ Z.of_nat s mod 2 ^ (d + 1) = dv)
       ∨ (x ≠ a ∧ x ≠ a' ∧ dir_ t !! s = Some x)).
Proof.
  pose proof split_d_range as [Hd0 Hd30]. pose proof split_a_lt as Ha.
  assert (Hne : dv ≠ o) by (apply image_neq; lia).
  unfold dir'. rewrite remap_lookup, !land_mask by lia.
  destruct (dir_ t !! s) as [c|] eqn:Hc; simpl.
  - assert (Hs : (s < length (dir_ t))%nat) by (by eapply lookup_lt_Some).
    pose proof (split_old_class s Hs) as Hcls. rewrite Hc in Hcls.
    destruct (inv_target t HI _ _ Hc) as (bc & Hbc & _).
    assert (Hclt : (c < length (buckets t))%nat) by (by eapply lookup_lt_Some).
    destruct (Z.eqb_spec (Z.of_nat s mod 2 ^ (d + 1)) o) as [E1|E1].
    { split.
      - intros [= <-]. split; [done|]. by left.
      - intros [_ [[-> _]|[[_ E]|(Hx & _ & Hcx)]]]; [done|congruence|].
        injection Hcx as ->. exfalso. apply Hx.
        assert (Some x = Some a) by (apply Hcls; by left). congruence. }
    destruct (Z.eqb_spec (Z.of_nat s mod 2 ^ (d + 1)) dv) as [E2|E2].
    { split.
      - intros [= <-]. split; [done|]. right. by left.
      - intros [_ [[_ E]|[[-> _]|(Hx & _ & Hcx)]]]; [congruence|done|].
        injection Hcx as ->. exfalso. apply Hx.
        assert (Some x = Some a) by (apply Hcls; by right). congruence. }
    split.
    + intros [= <-]. split; [done|]. right. right. repeat split.
      * intros ->. destruct Hcls as [Hcls _]. destruct (Hcls eq_refl); done.
      * unfold a'. lia.
    + intros [_ [[_ E]|[[_ E]|(_ & _ & Hcx)]]]; congruence.
  - split; [discriminate|]. intros [Hs _].
    apply lookup_ge_None in Hc. lia.
Qed.

Local Lemma split_bucket_lookup x bx :
  buckets' !! x = Some bx
  ↔ (x = a ∧ bx = ob) ∨ (x = a' ∧ bx = db)
    ∨ (x ≠ a ∧ x ≠ a' ∧ buckets t !! x = Some bx).
Proof.
  pose proof split_a_lt as Ha. unfold buckets', a'.
  destruct (decide (x < length (buckets t))%nat) as [Hx|Hx].
  - rewrite lookup_app_l by (by rewrite length_insert).
    destruct (decide (x = a)) as [->|Hxa].
    + rewrite list_lookup_insert_eq by done. split.
      * intros [= <-]. by left.
      * intros [[_ ->]|[[-> _]|(? & _)]]; [done|lia|done].
    + rewrite list_lookup_insert_ne by done. split.
      * intros H. right. right. repeat split; [done|lia|done].
      * intros [[-> _]|[[-> _]|(_ & _ & ?)]]; [done|lia|done].
  - rewrite lookup_app_r by (rewrite length_insert; lia).
    rewrite length_insert.
    destruct (decide (x = length (buckets t))) as [->|Hxl].
    + rewrite Nat.sub_diag. simpl. split.
      * intros [= <-]. right. by left.
      * intros [[E _]|[[_ ->]|(_ & ? & _)]]; [lia|done|done].
    + split.
      * intros H. apply lookup_lt_Some in H. simpl in H. lia.
      * intros [[E _]|[[E _]|(_ & _ & H)]]; [lia|done|].
        apply lookup_lt_Some in H. lia.
Qed.

Hypothesis Hob_depth : depth_ ob = d + 1.
Hypothesis Hob_size : size_ ob = size_ b.
Hypothesis Hdb_depth : depth_ db = d + 1.
Hypothesis Hdb_size : size_ db = bucket_size_ t.
Hypothesis Hob_list : ∀ k v, (k, v) ∈ list_ ob →
  (k, v) ∈ list_ b ∧ hash k mod 2 ^ (d + 1) = o.
Hypothesis Hdb_list : ∀ k v, (k, v) ∈ list_ db →
  (k, v) ∈ list_ b ∧ hash k mod 2 ^ (d + 1) ≠ o.

Lemma Inv_split nb :
  nb = num_buckets_ t + 1 →
  Inv {| global_depth_ := global_depth_ t;
         bucket_size_ := bucket_size_ t;
         num_buckets_ := nb;
         dir_ := dir';
         buckets := buckets' |}.
Proof.
  intros Hnb.
  pose proof split_d_range as [Hd0 Hd30]. pose proof split_a_lt as Ha.
  pose proof split_o_range as Ho.
  pose proof (image_range d o Hd0 Hd30) as Hdv. fold dv in Hdv.
  pose proof (inv_depth t HI) as Hg. pose proof (inv_length t HI) as Hlen.
  destruct (inv_target t HI _ _ Hdir) as (b0 & Hb0 & _ & Hbs).
  assert (b0 = b) by congruence. subst b0.
  assert (Hpow : 2 ^ (d + 1) ≤ 2 ^ global_depth_ t)
    by (apply Z.pow_le_mono_r; fold d in Hdg; lia).
  assert (Hlendir : length dir' = length (dir_ t)) by apply remap_length.
  constructor; simpl.
  - done.
  - by rewrite Hlendir.
  - intros s x Hs. apply split_dir_lookup in Hs as [Hs [[-> _]|[[-> _]|(Hx & Hx' & Hc)]]].
    + exists ob. split; [apply split_bucket_lookup; by left|].
      rewrite Hob_depth, Hob_size. fold d in Hdg. split; [lia | done].
    + exists db. split; [apply split_bucket_lookup; right; by left|].
      rewrite Hdb_depth. fold d in Hdg. split; [lia | done].
    + destruct (inv_target t HI _ _ Hc) as (bc & Hbc & ? & ?).
      exists bc. split; [|done]. apply split_bucket_lookup. right. right. done.
  - intros s s' x bx Hs Hbx Hs'. rewrite Hlendir in Hs'.
    apply split_dir_lookup in Hs as [Hs [[-> Ecl]|[[-> Ecl]|(Hx & Hx' & Hc)]]].
    + apply split_bucket_lookup in Hbx as [[_ ->]|[[E _]|(? & _)]];
        [|unfold a' in E; lia|done].
      rewrite Hob_depth, Ecl, split_dir_lookup. split.
      * intros [_ [[_ ?]|[[E _]|(? & _)]]]; [done|unfold a' in E; lia|done].
      * intros E. split; [done|]. by left.
    + apply split_bucket_lookup in Hbx as [[E _]|[[_ ->]|(_ & ? & _)]];
        [unfold a' in E; lia| |done].
      rewrite Hdb_depth, Ecl, split_dir_lookup. split.
      * intros [_ [[E _]|[[_ ?]|(_ & ? & _)]]]; [unfold a' in E; lia|done|done].
      * intros E. split; [done|]. right. by left.
    + apply split_bucket_lookup in Hbx as [[? _]|[[? _]|(_ & _ & Hbx)]]; [done|done|].
      rewrite split_dir_lookup, <- (inv_share t HI s s' x bx Hc Hbx Hs'). split.
      * intros [_ [[? _]|[[? _]|(_ & _ & ?)]]]; done.
      * intros H. split; [done|]. right. right. done.
  - intros s x bx k v Hs Hbx Hkv.
    apply split_dir_lookup in Hs as [Hs [[-> Ecl]|[[-> Ecl]|(Hx & Hx' & Hc)]]].
    + apply split_bucket_lookup in Hbx as [[_ ->]|[[E _]|(? & _)]];
        [|unfold a' in E; lia|done].
      rewrite Hob_depth, Ecl. by apply (Hob_list k v).
    + apply split_bucket_lookup in Hbx as [[E _]|[[_ ->]|(_ & ? & _)]];
        [unfold a' in E; lia| |done].
      rewrite Hdb_depth, Ecl. destruct (Hdb_list k v Hkv) as [Hin Hcl].
      pose proof (inv_entries t HI index a b k v Hdir Hb Hin) as Hco. fold d in Hco.
      destruct (split_classes d o (hash k) Hd0 Hd30 Ho) as [?|?]; [|done|done].
      rewrite Hco. symmetry. apply mod_pow2_mod. lia.
    + apply split_bucket_lookup in Hbx as [[? _]|[[? _]|(_ & _ & Hbx)]]; [done|done|].
      by apply (inv_entries t HI s x bx k v).
  - intros x Hx. unfold buckets' in Hx.
    rewrite length_app, length_insert in Hx. simpl in Hx.
    destruct (decide (x = a)) as [->|Hxa].
    { exists (Z.to_nat o). apply split_dir_lookup. split; [lia|]. left.
      split; [done|]. rewrite Z2Nat.id by lia. apply Z.mod_small. lia. }
    destruct (decide (x = a')) as [->|Hxa'].
    { exists (Z.to_nat dv). apply split_dir_lookup. split; [lia|]. right. left.
      split; [done|]. rewrite Z2Nat.id by lia. apply Z.mod_small. lia. }
    destruct (inv_used t HI x) as [s Hs]; [unfold a' in Hxa'; lia|].
    exists s. apply split_dir_lookup. split; [by eapply lookup_lt_Some|].
    right. right. done.
  - unfold buckets'. rewrite length_app, length_insert. simpl.
    rewrite Hnb, (inv_count t HI). lia.
Qed.

End SplitStep.

(** ** One pass of the loop of [Insert] *)

(** No two buckets without a slot: there are at most as many buckets as
    slots. *)
Lemma buckets_le_slots t : Inv t → (length (buckets t) ≤ length (dir_ t))%nat.
Proof.
  intros HI.
  assert (H : seq 0%nat (length (buckets t)) ⊆+ dir_ t).
  { apply NoDup_submseteq; [apply NoDup_seq|].
    intros x Hx. apply elem_of_seq in Hx.
    destruct (inv_used t HI x) as [s Hs]; [lia|].
    by eapply list_elem_of_lookup_2. }
  apply submseteq_length in H. by rewrite length_seq in H.
Qed.

Lemma pow2_le_30 g : 0 ≤ g ≤ 30 → 0 < 2 ^ g ≤ 2 ^ 30.
Proof.
  intros Hg. split; [apply Z.pow_pos_nonneg; lia | apply Z.pow_le_mono_r; lia].
Qed.

Lemma to_int_small z : 0 ≤ z ≤ 2 ^ 30 → to_int z = z.
Proof.
  intros Hz. unfold to_int.
  assert (2 ^ 30 < 2 ^ 31) by (apply Z.pow_lt_mono_r; lia).
  assert (2 ^ 32 = 2 * 2 ^ 31) by (change 32 with (1 + 31); rewrite Z.pow_add_r; lia).
  rewrite Z.mod_small by lia. lia.
Qed.

Lemma int_incr_small x : x < 2 ^ 31 - 1 → int_incr x = Some (x + 1).
Proof.
  intros Hx. unfold int_incr, INT_MAX.
  by replace (x <? 2 ^ 31 - 1) with true by (symmetry; by apply Z.ltb_lt).
Qed.

Lemma Insert_pass_Returned t key value i a b b1 :
  IndexOf (global_depth_ t) key = Some i →
  bucket_at t i = Some (a, b) →
  Bucket_Insert b key value = (true, b1) →
  Insert_pass t key value = Some (Returned (set_bucket t a b1)).
Proof. unfold Insert_pass. intros -> Hb Hins. simpl. rewrite Hb. simpl. by rewrite Hins. Qed.

Lemma Insert_pass_Returned_inv t key value t' :
  Insert_pass t key value = Some (Returned t') →
  ∃ i a b b1,
    IndexOf (global_depth_ t) key = Some i
    ∧ bucket_at t i = Some (a, b)
    ∧ Bucket_Insert b key value = (true, b1)
    ∧ t' = set_bucket t a b1.
Proof.
  unfold Insert_pass. intros H.
  apply bind_Some in H as [i [Hi H]].
  apply bind_Some in H as [[a b] [Hb H]].
  destruct (Bucket_Insert b key value) as [[] b1] eqn:Hins.
  - injection H as <-. exists i, a, b, b1. done.
  - exfalso.
    apply bind_Some in H as [[g dir] [_ H]].
    apply bind_Some in H as [m [_ H]].
    apply bind_Some in H as [nb [_ H]].
    apply bind_Some in H as [[ob' db'] [_ H]]. discriminate.
Qed.

Lemma Insert_pass_full t key value a b :
  Inv t →
  dir_ t !! Z.to_nat (hash key mod 2 ^ global_depth_ t) = Some a →
  buckets t !! a = Some b →
  Bucket_Insert b key value = (false, b) →
  Insert_pass t key value =
    (if depth_ b + 1 <=? 30 then
       '(ob', db') ← split_data t key b;
       Some (Again (split_table t key a b ob' db'))
     else None).
Proof.
  intros HI Ha Hb Hins.
  pose proof (inv_depth t HI) as Hg. pose proof (inv_length t HI) as Hlen.
  destruct (inv_target t HI _ _ Ha) as (b0 & Hb0 & Hd & _).
  assert (b0 = b) by congruence. subst b0.
  pose proof (pow2_le_30 _ Hg) as Hpow.
  unfold Insert_pass. rewrite (IndexOf_value _ key Hg). simpl.
  unfold bucket_at. rewrite Ha. simpl. rewrite Hb. simpl. rewrite Hins.
  unfold GetDepth, GetItems, split_data, split_table. simpl.
  assert (Hnb : int_incr (num_buckets_ t) = Some (num_buckets_ t + 1)).
  { apply int_incr_small. rewrite (inv_count t HI).
    pose proof (buckets_le_slots t HI).
    change (2 ^ 30) with 1073741824 in Hpow. change (2 ^ 31) with 2147483648. lia. }
  destruct (Z.leb_spec (depth_ b + 1) 30) as [Hd30|Hd30].
  - rewrite (int_mask_defined (depth_ b + 1)) by lia. unfold image.
    destruct (Z.eqb_spec (depth_ b) (global_depth_ t)) as [E|E].
    + rewrite (int_incr_small (global_depth_ t)) by (change (2 ^ 31) with 2147483648; lia).
      simpl. rewrite Hnb. simpl.
      rewrite to_int_small, Nat2Z.id, take_ge by lia.
      rewrite !(land_mask (depth_ b + 1)) by lia. done.
    + simpl. rewrite Hnb. simpl.
      rewrite !(land_mask (depth_ b + 1)) by lia. done.
  - replace (int_mask (depth_ b + 1)) with (@None Z).
    + destruct (depth_ b =? global_depth_ t); simpl; [|done].
      by destruct (int_incr (global_depth_ t)).
    + unfold int_mask. destruct (0 <=? depth_ b + 1); simpl; [|done].
      by replace (depth_ b + 1 <=? 30) with false by (symmetry; apply Z.leb_gt; lia).
Qed.

(** ** The table after one split *)

Lemma split_table_grown t key a b ob' db' :
  split_table t key a b ob' db' =
  {| global_depth_ := global_depth_ (grown t b);
     bucket_size_ := bucket_size_ (grown t b);
     num_buckets_ := num_buckets_ (grown t b) + 1;
     dir_ := remap (Z.ones (depth_ b + 1))
               ((hash key mod 2 ^ global_depth_ t) mod 2 ^ (depth_ b + 1))
               (image (depth_ b)
                  ((hash key mod 2 ^ global_depth_ t) mod 2 ^ (depth_ b + 1)))
               a (length (buckets (grown t b))) (dir_ (grown t b));
     buckets := <[a := ob']> (buckets (grown t b)) ++ [db'] |}.
Proof. unfold split_table, grown. by destruct (depth_ b =? global_depth_ t). Qed.

Section Grown.

Variable t : ExtendibleHashTable.
Variable key : K.
Variable a : nat.
Variable b : Bucket.

Hypothesis HI : Inv t.
Hypothesis Ha : dir_ t !! Z.to_nat (hash key mod 2 ^ global_depth_ t) = Some a.
Hypothesis Hb : buckets t !! a = Some b.
Hypothesis Hd30 : depth_ b + 1 ≤ 30.

Lemma full_bucket_depth : 0 ≤ depth_ b ≤ global_depth_ t.
Proof.
  destruct (inv_target t HI _ _ Ha) as (b0 & Hb0 & Hd & _).
  assert (b0 = b) by congruence. by subst b0.
Qed.

Lemma grown_depth :
  global_depth_ (grown t b)
  = (if depth_ b =? global_depth_ t then global_depth_ t + 1 else global_depth_ t)
  ∧ depth_ b + 1 ≤ global_depth_ (grown t b) ≤ 30
  ∧ global_depth_ t ≤ global_depth_ (grown t b).
Proof.
  pose proof full_bucket_depth. pose proof (inv_depth t HI).
  unfold grown. destruct (Z.eqb_spec (depth_ b) (global_depth_ t)); simpl; lia.
Qed.

Lemma grown_buckets :
  buckets (grown t b) = buckets t ∧ bucket_size_ (grown t b) = bucket_size_ t.
Proof. unfold grown. by destruct (depth_ b =? global_depth_ t). Qed.

Lemma Inv_grown : Inv (grown t b).
Proof.
  pose proof full_bucket_depth.
  unfold grown. destruct (Z.eqb_spec (depth_ b) (global_depth_ t)); [|done].
  apply Inv_double; [done | lia].
Qed.

Lemma grown_slot :
  dir_ (grown t b) !! Z.to_nat (hash key mod 2 ^ global_depth_ t) = Some a.
Proof.
  unfold grown. destruct (depth_ b =? global_depth_ t); simpl; [|done].
  rewrite lookup_app_l; [done|]. by eapply lookup_lt_Some.
Qed.

Lemma slot_id : Z.of_nat (Z.to_nat (hash key mod 2 ^ global_depth_ t))
                = hash key mod 2 ^ global_depth_ t.
Proof.
  pose proof (inv_depth t HI).
  pose proof (mod_pow2_range (global_depth_ t) (hash key) ltac:(lia)). lia.
Qed.

(** The data split ends, and sorts the entries by their low [d + 1] bits. *)
Lemma split_data_defined :
  ∃ ob' db',
    split_data t key b = Some (ob', db')
    ∧ depth_ ob' = depth_ b + 1 ∧ size_ ob' = size_ b
    ∧ depth_ db' = depth_ b + 1 ∧ size_ db' = bucket_size_ t
    ∧ list_ ob'
      = filter (λ kv, hash kv.1 mod 2 ^ (depth_ b + 1)
                      = (hash key mod 2 ^ global_depth_ t) mod 2 ^ (depth_ b + 1))
               (list_ b)
    ∧ (∀ k v, (k, v) ∈ list_ db' →
         (k, v) ∈ list_ b
         ∧ hash k mod 2 ^ (depth_ b + 1)
           ≠ (hash key mod 2 ^ global_depth_ t) mod 2 ^ (depth_ b + 1)).
Proof.
  pose proof full_bucket_depth as Hd. destruct grown_depth as (Eg & Hg & _).
  unfold split_data. rewrite <- Eg.
  destruct (redistribute_spec (global_depth_ (grown t b)) (depth_ b)
              ((hash key mod 2 ^ global_depth_ t) mod 2 ^ (depth_ b + 1))
              ltac:(lia) ltac:(lia) ltac:(lia)
              (list_ b) [] (IncrementDepth b)
              {| size_ := bucket_size_ t; depth_ := depth_ b + 1; list_ := [] |}
              eq_refl)
    as (ob' & db' & Hr & Hdo & Hso & Hdd & Hsd & Hlo & Hld).
  { intros k v Hin. by apply elem_of_nil in Hin. }
  exists ob', db'. simpl in *. repeat split; try done.
  - destruct (Hld k v H) as [Hnil|[? ?]]; [by apply elem_of_nil in Hnil | done].
  - destruct (Hld k v H) as [Hnil|[? ?]]; [by apply elem_of_nil in Hnil | done].
Qed.

Variables ob' db' : Bucket.
Hypothesis Hsplit : split_data t key b = Some (ob', db').

Lemma split_data_facts :
  depth_ ob' = depth_ b + 1 ∧ size_ ob' = size_ b
  ∧ depth_ db' = depth_ b + 1 ∧ size_ db' = bucket_size_ t
  ∧ list_ ob'
    = filter (λ kv, hash kv.1 mod 2 ^ (depth_ b + 1)
                    = (hash key mod 2 ^ global_depth_ t) mod 2 ^ (depth_ b + 1))
             (list_ b)
  ∧ (∀ k v, (k, v) ∈ list_ db' →
       (k, v) ∈ list_ b
       ∧ hash k mod 2 ^ (depth_ b + 1)
         ≠ (hash key mod 2 ^ global_depth_ t) mod 2 ^ (depth_ b + 1)).
Proof.
  destruct split_data_defined as (ob0 & db0 & E & H).
  rewrite Hsplit in E. by injection E as <- <-.
Qed.

Lemma Inv_split_table : Inv (split_table t key a b ob' db').
Proof.
  destruct split_data_facts as (Hdo & Hso & Hdd & Hsd & Hlo & Hld).
  destruct grown_depth as (_ & Hg & _). destruct grown_buckets as [Ebk Ebs].
  rewrite split_table_grown, <- slot_id.
  apply (Inv_split (grown t b) _ a b ob' db'); try done.
  - apply Inv_grown.
  - apply grown_slot.
  - by rewrite Ebk.
  - lia.
  - by rewrite Ebs.
  - intros k v Hin. rewrite Hlo in Hin. apply list_elem_of_filter in Hin as [Hc Hin].
    simpl in Hc. rewrite slot_id. done.
  - intros k v Hin. rewrite slot_id. by apply Hld.
Qed.

Lemma split_table_stored k : stored (split_table t key a b ob' db') k → stored t k.
Proof.
  destruct split_data_facts as (_ & _ & _ & _ & Hlo & Hld).
  intros (x & bx & v & Hx & Hin). unfold split_table in Hx. simpl in Hx.
  assert (Halt : (a < length (buckets t))%nat) by (by eapply lookup_lt_Some).
  apply lookup_app_Some in Hx as [Hx|[_ Hx]].
  - destruct (decide (x = a)) as [->|Hne].
    + rewrite list_lookup_insert_eq in Hx by done. injection Hx as <-.
      rewrite Hlo in Hin. apply list_elem_of_filter in Hin as [_ Hin].
      by exists a, b, v.
    + rewrite list_lookup_insert_ne in Hx by done. by exists x, bx, v.
  - apply list_lookup_singleton_Some in Hx as [_ <-].
    destruct (Hld k v Hin) as [Hin' _]. by exists a, b, v.
Qed.

(** After the split the slot of [key] points to one of the two buckets of
    the split, whose local depth is one more than before. *)
Lemma split_table_slot :
  let t' := split_table t key a b ob' db' in
  let o := (hash key mod 2 ^ global_depth_ t) mod 2 ^ (depth_ b + 1) in
  (dir_ t' !! Z.to_nat (hash key mod 2 ^ global_depth_ t') = Some a
   ∧ buckets t' !! a = Some ob'
   ∧ hash key mod 2 ^ (depth_ b + 1) = o)
  ∨ (dir_ t' !! Z.to_nat (hash key mod 2 ^ global_depth_ t') = Some (length (buckets t))
     ∧ buckets t' !! length (buckets t) = Some db'
     ∧ hash key mod 2 ^ (depth_ b + 1) = image (depth_ b) o).
Proof.
  intros t' o.
  pose proof full_bucket_depth as Hd. destruct grown_depth as (Eg & Hg & Hgg).
  destruct grown_buckets as [Ebk Ebs].
  pose proof (inv_depth t HI) as Hgt.
  assert (Halt : (a < length (buckets t))%nat) by (by eapply lookup_lt_Some).
  assert (Eg' : global_depth_ t' = global_depth_ (grown t b)).
  { unfold t'. by rewrite split_table_grown. }
  assert (Edir : dir_ t' = remap (Z.ones (depth_ b + 1))
                   (Z.of_nat (Z.to_nat (hash key mod 2 ^ global_depth_ t))
                    mod 2 ^ (depth_ b + 1))
                   (image (depth_ b)
                     (Z.of_nat (Z.to_nat (hash key mod 2 ^ global_depth_ t))
                      mod 2 ^ (depth_ b + 1)))
                   a (length (buckets (grown t b))) (dir_ (grown t b))).
  { unfold t'. by rewrite split_table_grown, slot_id. }
  assert (Ebk' : buckets t' = <[a := ob']> (buckets t) ++ [db']) by done.
  pose proof (Inv_grown) as HI1.
  pose proof (mod_pow2_range (global_depth_ t') (hash key) ltac:(lia)) as Hr.
  assert (Hslot : (Z.to_nat (hash key mod 2 ^ global_depth_ t')
                   < length (dir_ (grown t b)))%nat).
  { pose proof (inv_length _ HI1). rewrite Eg' in *. lia. }
  assert (Hcl : Z.of_nat (Z.to_nat (hash key mod 2 ^ global_depth_ t'))
                mod 2 ^ (depth_ b + 1) = hash key mod 2 ^ (depth_ b + 1)).
  { rewrite Z2Nat.id by lia. apply mod_pow2_mod. lia. }
  assert (Ho : 0 ≤ o < 2 ^ (depth_ b + 1)) by (apply mod_pow2_range; lia).
  destruct (split_classes (depth_ b) o (hash key) ltac:(lia) Hd30 Ho) as [E|E].
  { unfold o. rewrite !mod_pow2_mod by lia. done. }
  - left. split; [|split; [|done]].
    + rewrite Edir.
      apply (split_dir_lookup (grown t b) _ a b HI1 grown_slot);
        [by rewrite Ebk | lia |].
      split; [done|]. left. split; [done|]. rewrite Hcl, slot_id. done.
    + rewrite Ebk', lookup_app_l by (by rewrite length_insert).
      by apply list_lookup_insert_eq.
  - right. split; [|split; [|done]].
    + rewrite Edir.
      apply (split_dir_lookup (grown t b) _ a b HI1 grown_slot);
        [by rewrite Ebk | lia |].
      split; [done|]. right. left. split; [by rewrite Ebk|].
      rewrite Hcl, slot_id. done.
    + rewrite Ebk', lookup_app_r by (rewrite length_insert; lia).
      rewrite length_insert, Nat.sub_diag. done.
Qed.

End Grown.

(** ** The operations keep the invariant *)

Lemma Inv_new n : Inv (new n).
Proof.
  constructor; simpl.
  - lia.
  - done.
  - intros s a Hs. apply list_lookup_singleton_Some in Hs as [-> <-].
    eexists. split; [done|]. simpl. split; [lia | done].
  - intros s s' a b Hs Hb Hs'.
    apply list_lookup_singleton_Some in Hs as [-> <-].
    injection Hb as <-. simpl. rewrite !Z.mod_1_r.
    assert (s' = 0%nat) as -> by lia. done.
  - intros s a b k v Hs Hb Hin.
    apply list_lookup_singleton_Some in Hs as [-> <-].
    injection Hb as <-. by apply elem_of_nil in Hin.
  - intros a Ha. exists 0%nat. assert (a = 0%nat) as -> by lia. done.
  - done.
Qed.

(** Replacing the entries of one bucket by entries that belong to its
    slots. *)
Lemma Inv_set_bucket t a b b' :
  Inv t → buckets t !! a = Some b →
  depth_ b' = depth_ b → size_ b' = size_ b →
  (∀ k v, (k, v) ∈ list_ b' →
     (k, v) ∈ list_ b
     ∨ ∀ s : nat, dir_ t !! s = Some a →
                  hash k mod 2 ^ depth_ b = Z.of_nat s mod 2 ^ depth_ b) →
  Inv (set_bucket t a b').
Proof.
  intros HI Hb Hd Hs Hl.
  assert (Ha : (a < length (buckets t))%nat) by (by eapply lookup_lt_Some).
  assert (Hlook : ∀ x bx, <[a := b']> (buckets t) !! x = Some bx →
            ∃ bx0, buckets t !! x = Some bx0
                   ∧ depth_ bx = depth_ bx0 ∧ size_ bx = size_ bx0
                   ∧ (x ≠ a → bx = bx0) ∧ (x = a → bx = b' ∧ bx0 = b)).
  { intros x bx Hx. destruct (decide (x = a)) as [->|Hne].
    - rewrite list_lookup_insert_eq in Hx by done. injection Hx as <-.
      exists b. repeat split; done.
    - rewrite list_lookup_insert_ne in Hx by done.
      exists bx. repeat split; done. }
  constructor; simpl.
  - apply (inv_depth t HI).
  - apply (inv_length t HI).
  - intros s x Hsx. destruct (inv_target t HI _ _ Hsx) as (bx & Hbx & Hdx & Hsz).
    destruct (decide (x = a)) as [->|Hne].
    + exists b'. rewrite list_lookup_insert_eq by done.
      assert (bx = b) by congruence. subst bx. rewrite Hd, Hs. done.
    + exists bx. rewrite list_lookup_insert_ne by done. done.
  - intros s s' x bx Hsx Hbx Hs'.
    destruct (Hlook x bx Hbx) as (bx0 & Hbx0 & -> & _).
    by apply (inv_share t HI).
  - intros s x bx k v Hsx Hbx Hin.
    destruct (Hlook x bx Hbx) as (bx0 & Hbx0 & Ed & _ & Hne & Heq).
    rewrite Ed. destruct (decide (x = a)) as [->|Hxa].
    + destruct (Heq eq_refl) as [-> ->].
      destruct (Hl k v Hin) as [Hold|Hnew].
      * by apply (inv_entries t HI s a b k v).
      * by apply Hnew.
    + rewrite (Hne Hxa) in Hin. by apply (inv_entries t HI s x bx0 k v).
  - intros x Hx. rewrite length_insert in Hx. by apply (inv_used t HI).
  - rewrite length_insert. apply (inv_count t HI).
Qed.

(** The three ways a pass can go on a table of the invariant. *)
Lemma Insert_pass_cases t key value :
  Inv t →
  ∃ a b,
    dir_ t !! Z.to_nat (hash key mod 2 ^ global_depth_ t) = Some a
    ∧ buckets t !! a = Some b
    ∧ ((∃ b1, Bucket_Insert b key value = (true, b1)
              ∧ Insert_pass t key value = Some (Returned (set_bucket t a b1)))
       ∨ (Bucket_Insert b key value = (false, b)
          ∧ 30 < depth_ b + 1
          ∧ Insert_pass t key value = None)
       ∨ (Bucket_Insert b key value = (false, b)
          ∧ depth_ b + 1 ≤ 30
          ∧ ∃ ob' db', split_data t key b = Some (ob', db')
                       ∧ Insert_pass t key value
                         = Some (Again (split_table t key a b ob' db')))).
Proof.
  intros HI. destruct (bucket_at_slot t key HI) as (a & b & Hat & Ha & Hb & Hd & Hs).
  exists a, b. split; [done|]. split; [done|].
  destruct (Bucket_Insert b key value) as [[] b1] eqn:Hins.
  - left. exists b1. split; [done|].
    apply (Insert_pass_Returned t key value
             (hash key mod 2 ^ global_depth_ t) a b b1); [|done|done].
    apply IndexOf_value, (inv_depth t HI).
  - destruct (Bucket_Insert_full _ _ _ _ Hins) as (-> & _).
    rewrite (Insert_pass_full t key value a b HI Ha Hb Hins).
    destruct (Z.leb_spec (depth_ b + 1) 30) as [Hd30|Hd30].
    + right. right. split; [done|]. split; [done|].
      destruct (split_data_defined t key a b HI Ha Hb Hd30) as (ob' & db' & E & _).
      exists ob', db'. rewrite E. done.
    + right. left. done.
Qed.

Lemma Inv_Returned t key value a b b1 :
  Inv t →
  dir_ t !! Z.to_nat (hash key mod 2 ^ global_depth_ t) = Some a →
  buckets t !! a = Some b →
  Bucket_Insert b key value = (true, b1) →
  Inv (set_bucket t a b1).
Proof.
  intros HI Ha Hb Hins.
  destruct (inv_target t HI _ _ Ha) as (b0 & Hb0 & Hd & _).
  assert (b0 = b) by congruence. subst b0.
  pose proof (inv_depth t HI) as Hg.
  assert (E1 : b1 = (Bucket_Insert b key value).2) by (by rewrite Hins).
  destruct (Bucket_Insert_depth b key value) as [Ed Es].
  apply (Inv_set_bucket t a b b1 HI Hb); [by rewrite E1 | by rewrite E1 |].
  intros k v Hin. rewrite E1 in Hin.
  apply Bucket_Insert_elem in Hin as [[-> ->]|Hin]; [right | by left].
  intros s Hs.
  assert (Hlt : (s < length (dir_ t))%nat) by (by eapply lookup_lt_Some).
  rewrite (proj1 (inv_share t HI _ s a b Ha Hb Hlt) Hs).
  rewrite slot_id by done. symmetry. apply mod_pow2_mod. lia.
Qed.

Lemma Insert_Inv fuel : ∀ t key value t',
  Inv t → Insert fuel t key value = Ok t' → Inv t'.
Proof.
  induction fuel as [|fuel IH]; intros t key value t' HI H; simpl in H; [discriminate|].
  destruct (Insert_pass_cases t key value HI)
    as (a & b & Ha & Hb & [(b1 & Hins & E)|[(Hins & Hd & E)|(Hins & Hd & ob' & db' & Hsp & E)]]);
    rewrite E in H.
  - injection H as <-. by eapply Inv_Returned.
  - discriminate.
  - apply (IH _ _ _ _ (Inv_split_table t key a b HI Ha Hb Hd ob' db' Hsp) H).
Qed.

Lemma Find_defined t key :
  Inv t →
  ∃ a b, dir_ t !! Z.to_nat (hash key mod 2 ^ global_depth_ t) = Some a
         ∧ buckets t !! a = Some b
         ∧ Find t key = Some (Bucket_Find b key, t).
Proof.
  intros HI. destruct (bucket_at_slot t key HI) as (a & b & Hat & Ha & Hb & _).
  exists a, b. split; [done|]. split; [done|].
  unfold Find. rewrite (IndexOf_value _ key (inv_depth t HI)). simpl.
  rewrite Hat. done.
Qed.

Lemma Remove_defined t key :
  Inv t →
  ∃ a b, dir_ t !! Z.to_nat (hash key mod 2 ^ global_depth_ t) = Some a
         ∧ buckets t !! a = Some b
         ∧ Remove t key
           = Some (match Bucket_Find b key with
                   | None => (false, t)
                   | Some _ => (true, set_bucket t a (Bucket_Remove b key).2)
                   end).
Proof.
  intros HI. destruct (bucket_at_slot t key HI) as (a & b & Hat & Ha & Hb & _).
  exists a, b. split; [done|]. split; [done|].
  unfold Remove. rewrite (IndexOf_value _ key (inv_depth t HI)). simpl.
  rewrite Hat. simpl. by destruct (Bucket_Find b key).
Qed.

Lemma Remove_Inv t key r t' : Inv t → Remove t key = Some (r, t') → Inv t'.
Proof.
  intros HI H. destruct (Remove_defined t key HI) as (a & b & Ha & Hb & E).
  rewrite E in H. destruct (Bucket_Find b key) as [v0|].
  - injection H as <- <-.
    destruct (Bucket_Remove_depth b key) as [Ed Es].
    apply (Inv_set_bucket t a b _ HI Hb Ed Es).
    intros k v Hin. left. rewrite Bucket_Remove_list in Hin.
    by eapply erase_item_elem.
  - by injection H as <- <-.
Qed.

Lemma Find_same t key r t' : Find t key = Some (r, t') → t' = t.
Proof.
  unfold Find. intros H.
  apply bind_Some in H as [i [_ H]]. apply bind_Some in H as [[a b] [_ H]].
  by injection H as <- <-.
Qed.

Lemma reachable_Inv t : reachable t → Inv t.
Proof.
  induction 1 as [n Hn|t fuel key value t' _ IH H|t key r t' _ IH H|t key r t' _ IH H].
  - apply Inv_new.
  - by eapply Insert_Inv.
  - by eapply Remove_Inv.
  - by rewrite (Find_same _ _ _ _ H).
Qed.

Lemma Inv_coherent t : Inv t → coherent t.
Proof.
  intros HI s a b k v Hs Hb Hin.
  destruct (inv_target t HI _ _ Hs) as (b0 & Hb0 & Hd & _).
  assert (b0 = b) by congruence. subst b0.
  rewrite Z.shiftl_1_l, Z.sub_1_r, <- Z.ones_equiv, !Z.land_ones by lia.
  by apply (inv_entries t HI s a b k v).
Qed.

(** ** Termination of [Insert] *)

Lemma separated_split t key a b ob' db' :
  Inv t →
  dir_ t !! Z.to_nat (hash key mod 2 ^ global_depth_ t) = Some a →
  buckets t !! a = Some b → depth_ b + 1 ≤ 30 →
  split_data t key b = Some (ob', db') →
  separated t key → separated (split_table t key a b ob' db') key.
Proof.
  intros HI Ha Hb Hd Hsp Hsep k1 k2 H1 H2.
  apply Hsep.
  - destruct H1 as [H1|H1]; [left | by right].
    by apply (split_table_stored t key a b HI Ha Hb Hd ob' db' Hsp).
  - destruct H2 as [H2|H2]; [left | by right].
    by apply (split_table_stored t key a b HI Ha Hb Hd ob' db' Hsp).
Qed.

(** A full bucket that lacks [key] holds another key with the low bits of
    [key]; separated keys leave room for one more bit. *)
Lemma full_bucket_splittable t key value a b :
  Inv t → 1 ≤ bucket_size_ t → separated t key →
  dir_ t !! Z.to_nat (hash key mod 2 ^ global_depth_ t) = Some a →
  buckets t !! a = Some b →
  Bucket_Insert b key value = (false, b) →
  depth_ b + 1 ≤ 30.
Proof.
  intros HI Hbs Hsep Ha Hb Hins.
  destruct (inv_target t HI _ _ Ha) as (b0 & Hb0 & Hd & Hsz).
  assert (b0 = b) by congruence. subst b0.
  pose proof (inv_depth t HI) as Hg.
  destruct (Bucket_Insert_full _ _ _ _ Hins) as (_ & Hnone & Hfull).
  destruct (Z.le_gt_cases (depth_ b + 1) 30) as [|Hbig]; [done|exfalso].
  unfold IsFull in Hfull. apply Z.leb_le in Hfull.
  destruct (list_ b) as [|[k' v'] l] eqn:El; [simpl in Hfull; lia|].
  assert (Hin : (k', v') ∈ list_ b) by (rewrite El; left).
  assert (Hk : k' ≠ key).
  { intros ->. unfold Bucket_Find in Hnone.
    by apply (find_item_None _ _ v') in Hnone. }
  apply Hk, Hsep; [left; by exists a, b, v' | by right |].
  pose proof (inv_entries t HI _ a b k' v' Ha Hb Hin) as Hco.
  rewrite slot_id in Hco by done.
  assert (depth_ b = 30) as E30 by lia. rewrite E30 in Hco.
  rewrite Hco. apply mod_pow2_mod. lia.
Qed.

Lemma Insert_returns_within n : ∀ t key value,
  Inv t → 1 ≤ bucket_size_ t → separated t key →
  (∀ a b, dir_ t !! Z.to_nat (hash key mod 2 ^ global_depth_ t) = Some a →
          buckets t !! a = Some b → 30 - depth_ b ≤ Z.of_nat n) →
  ∃ t', Insert (S n) t key value = Ok t'.
Proof.
  induction n as [|n IH]; intros t key value HI Hbs Hsep Hm;
    destruct (Insert_pass_cases t key value HI)
      as (a & b & Ha & Hb & [(b1 & Hins & E)|[(Hins & Hd & E)|(Hins & Hd & ob' & db' & Hsp & E)]]).
  - exists (set_bucket t a b1). simpl. by rewrite E.
  - pose proof (full_bucket_splittable t key value a b HI Hbs Hsep Ha Hb Hins). lia.
  - specialize (Hm a b Ha Hb). lia.
  - exists (set_bucket t a b1). simpl. by rewrite E.
  - pose proof (full_bucket_splittable t key value a b HI Hbs Hsep Ha Hb Hins). lia.
  - destruct (IH (split_table t key a b ob' db') key value) as [t' Ht'].
    + by apply Inv_split_table.
    + done.
    + by apply separated_split.
    + intros a1 b1 Ha1 Hb1. specialize (Hm a b Ha Hb).
      destruct (split_data_facts t key a b HI Ha Hb Hd ob' db' Hsp)
        as (Hdo & _ & Hdd & _).
      destruct (split_table_slot t key a b HI Ha Hb Hd ob' db')
        as [(Hs1 & Hs2 & _)|(Hs1 & Hs2 & _)].
      * assert (a1 = a) by congruence. subst a1.
        assert (b1 = ob') by congruence. subst b1. lia.
      * assert (a1 = length (buckets t)) by congruence. subst a1.
        assert (b1 = db') by congruence. subst b1. lia.
    + exists t'. change (Insert (S (S n)) t key value)
        with (match Insert_pass t key value with
              | None => Undefined
              | Some (Returned t1) => Ok t1
              | Some (Again t1) => Insert (S n) t1 key value
              end).
      by rewrite E.
Qed.

Lemma Insert_returns t key value :
  Inv t → 1 ≤ bucket_size_ t → separated t key →
  ∃ t', Insert 31 t key value = Ok t'.
Proof.
  intros HI Hbs Hsep. apply (Insert_returns_within 30); try done.
  intros a b Ha Hb. destruct (inv_target t HI _ _ Ha) as (b0 & Hb0 & Hd & _).
  assert (b0 = b) by congruence. subst b0. lia.
Qed.

(** More fuel does not change what a call returns. *)
Lemma Insert_fuel_mono n : ∀ m t key value t',
  (n ≤ m)%nat → Insert n t key value = Ok t' → Insert m t key value = Ok t'.
Proof.
  induction n as [|n IH]; intros m t key value t' Hle H; simpl in H; [discriminate|].
  destruct m as [|m]; [lia|]. simpl.
  destruct (Insert_pass t key value) as [[t1|t1]|]; try done.
  apply IH; [lia | done].
Qed.

(** ** Two keys that agree on their low 30 bits, in buckets of one entry *)

Lemma single_bucket_full k' v' d key value :
  k' ≠ key →
  Bucket_Insert {| size_ := 1; depth_ := d; list_ := [(k', v')] |} key value
  = (false, {| size_ := 1; depth_ := d; list_ := [(k', v')] |}).
Proof. intros Hk. unfold Bucket_Insert. simpl. by rewrite decide_False. Qed.

Lemma Insert_pass_single t key value a d k' v' :
  Inv t → bucket_size_ t = 1 →
  dir_ t !! Z.to_nat (hash key mod 2 ^ global_depth_ t) = Some a →
  buckets t !! a = Some {| size_ := 1; depth_ := d; list_ := [(k', v')] |} →
  k' ≠ key → hash k' mod 2 ^ 30 = hash key mod 2 ^ 30 →
  (d = 30 ∧ Insert_pass t key value = None)
  ∨ (d < 30
     ∧ ∃ t' a',
         Insert_pass t key value = Some (Again t')
         ∧ Inv t' ∧ bucket_size_ t' = 1
         ∧ dir_ t' !! Z.to_nat (hash key mod 2 ^ global_depth_ t') = Some a'
         ∧ buckets t' !! a'
           = Some {| size_ := 1; depth_ := d + 1; list_ := [(k', v')] |}).
Proof.
  intros HI Hbs Ha Hb Hk Hlow.
  pose proof (single_bucket_full k' v' d key value Hk) as Hfull.
  destruct (Insert_pass_cases t key value HI)
    as (a0 & b0 & Ha0 & Hb0 & Hcases).
  assert (a0 = a) by congruence. subst a0.
  assert (b0 = {| size_ := 1; depth_ := d; list_ := [(k', v')] |}) by congruence.
  subst b0.
  destruct Hcases as [(b1 & Hins & E)|[(Hins & Hd & E)|(Hins & Hd & ob' & db' & Hsp & E)]].
  - rewrite Hfull in Hins. discriminate.
  - left. simpl in Hd.
    pose proof (full_bucket_depth t key a _ HI Ha Hb) as Hdg. simpl in Hdg.
    pose proof (inv_depth t HI). split; [lia | done].
  - right. simpl in Hd. split; [lia|].
    pose proof (full_bucket_depth t key a _ HI Ha Hb) as Hdg. simpl in Hdg.
    destruct (grown_depth t key a _ HI Ha Hb Hd) as (Eg & Hg & _). simpl in Eg, Hg.
    assert (Hcl : hash k' mod 2 ^ (d + 1) = hash key mod 2 ^ (d + 1))
      by (apply (mod_pow2_le (d + 1) 30); [lia | done]).
    pose proof (Inv_split_table t key a _ HI Ha Hb Hd ob' db' Hsp) as HI'.
    pose proof (split_table_slot t key a _ HI Ha Hb Hd ob' db') as Hslot.
    simpl in Hslot.
    unfold split_data in Hsp. simpl in Hsp. rewrite <- Eg in Hsp.
    rewrite IndexOf_value in Hsp by lia. simpl in Hsp.
    rewrite land_mask, mod_pow2_mod in Hsp by lia.
    pose proof (image_neq d ((hash key mod 2 ^ global_depth_ t) mod 2 ^ (d + 1))
                  ltac:(lia) Hd) as Hneq.
    destruct (Z.eqb_spec (hash k' mod 2 ^ (d + 1))
                ((hash key mod 2 ^ global_depth_ t) mod 2 ^ (d + 1))) as [Est|Emv];
      simpl in Hsp; injection Hsp as <- <-.
    + destruct Hslot as [(Hs1 & Hs2 & Hs3)|(Hs1 & Hs2 & Hs3)].
      * eexists _, a. split; [exact E|]. split; [exact HI'|].
        split; [exact Hbs|]. split; [exact Hs1 | exact Hs2].
      * exfalso. rewrite <- Hcl, Est in Hs3. by apply Hneq.
    + destruct Hslot as [(Hs1 & Hs2 & Hs3)|(Hs1 & Hs2 & Hs3)].
      * exfalso. apply Emv. by rewrite Hcl.
      * eexists _, (length (buckets t)). split; [exact E|]. split; [exact HI'|].
        split; [exact Hbs|]. split; [exact Hs1|]. etransitivity; [exact Hs2|]. f_equal.
        unfold Bucket_Insert. simpl. by rewrite Hbs.
Qed.

Lemma Insert_single_never_returns n : ∀ t key value a d k' v' t',
  Inv t → bucket_size_ t = 1 →
  dir_ t !! Z.to_nat (hash key mod 2 ^ global_depth_ t) = Some a →
  buckets t !! a = Some {| size_ := 1; depth_ := d; list_ := [(k', v')] |} →
  k' ≠ key → hash k' mod 2 ^ 30 = hash key mod 2 ^ 30 →
  Insert n t key value ≠ Ok t'.
Proof.
  induction n as [|n IH]; intros t key value a d k' v' t' HI Hbs Ha Hb Hk Hlow;
    simpl; [discriminate|].
  destruct (Insert_pass_single t key value a d k' v' HI Hbs Ha Hb Hk Hlow)
    as [[_ E]|(_ & t1 & a1 & E & HI1 & Hbs1 & Ha1 & Hb1)]; rewrite E; [discriminate|].
  by apply (IH t1 key value a1 (d + 1) k' v').
Qed.

(** The call splits until the local depth is 30 and then asks for a mask of
    31 bits. *)
Lemma Insert_single_outcome n : ∀ t key value a d k' v',
  Inv t → bucket_size_ t = 1 →
  dir_ t !! Z.to_nat (hash key mod 2 ^ global_depth_ t) = Some a →
  buckets t !! a = Some {| size_ := 1; depth_ := d; list_ := [(k', v')] |} →
  k' ≠ key → hash k' mod 2 ^ 30 = hash key mod 2 ^ 30 →
  Insert n t key value = if decide (Z.of_nat n ≤ 30 - d) then OutOfFuel else Undefined.
Proof.
  induction n as [|n IH]; intros t key value a d k' v' HI Hbs Ha Hb Hk Hlow.
  - pose proof (full_bucket_depth t key a _ HI Ha Hb) as Hdg. simpl in Hdg.
    pose proof (inv_depth t HI). simpl. rewrite decide_True by lia. done.
  - simpl Insert.
    destruct (Insert_pass_single t key value a d k' v' HI Hbs Ha Hb Hk Hlow)
      as [[Hd E]|(Hd & t1 & a1 & E & HI1 & Hbs1 & Ha1 & Hb1)]; rewrite E.
    + rewrite decide_False by lia. done.
    + rewrite (IH t1 key value a1 (d + 1) k' v') by done.
      destruct (decide (Z.of_nat n ≤ 30 - (d + 1)));
        [rewrite decide_True by lia | rewrite decide_False by lia]; done.
Qed.

(** ** What [Insert], [Find] and [Remove] do to the table *)

Lemma Find_set_bucket t key i a b b' :
  IndexOf (global_depth_ t) key = Some i →
  bucket_at t i = Some (a, b) →
  Find (set_bucket t a b') key = Some (Bucket_Find b' key, set_bucket t a b').
Proof.
  intros Hi Hat. unfold Find. simpl. rewrite Hi. simpl.
  unfold bucket_at in *. simpl.
  destruct (dir_ t !! Z.to_nat i) as [a0|]; simpl in *; [|discriminate].
  destruct (buckets t !! a0) as [b0|] eqn:Hb0; simpl in *; [|discriminate].
  injection Hat as -> ->.
  rewrite list_lookup_insert_eq by (by eapply lookup_lt_Some). done.
Qed.

Lemma Insert_Ok_slot fuel : ∀ t key value t',
  Insert fuel t key value = Ok t' →
  ∃ i a b, IndexOf (global_depth_ t') key = Some i
           ∧ bucket_at t' i = Some (a, b)
           ∧ Bucket_Find b key = Some value.
Proof.
  induction fuel as [|fuel IH]; intros t key value t' H; simpl in H; [discriminate|].
  destruct (Insert_pass t key value) as [[t1|t1]|] eqn:E; [|by eapply IH|discriminate].
  injection H as <-.
  apply Insert_pass_Returned_inv in E as (i & a & b & b1 & Hi & Hat & Hins & ->).
  exists i, a, b1. split; [done|]. split.
  - unfold bucket_at in *. simpl.
    destruct (dir_ t !! Z.to_nat i) as [a0|]; simpl in *; [|discriminate].
    destruct (buckets t !! a0) as [b0|] eqn:Hb0; simpl in *; [|discriminate].
    injection Hat as -> ->.
    rewrite list_lookup_insert_eq by (by eapply lookup_lt_Some). done.
  - by eapply Bucket_Insert_found.
Qed.

Lemma Insert_Ok_Find fuel t key value t' :
  Insert fuel t key value = Ok t' → Find t' key = Some (Some value, t').
Proof.
  intros H. apply Insert_Ok_slot in H as (i & a & b & Hi & Hat & Hf).
  unfold Find. rewrite Hi. simpl. rewrite Hat. simpl. by rewrite Hf.
Qed.

(** A key that [Find] finds is overwritten in its bucket by the first pass
    of [Insert]. *)
Lemma Insert_present t key value v0 :
  binding t key = Some (Some v0) →
  ∃ i a b l,
    IndexOf (global_depth_ t) key = Some i
    ∧ bucket_at t i = Some (a, b)
    ∧ length l = length (list_ b)
    ∧ Insert_pass t key value
      = Some (Returned
                (set_bucket t a {| size_ := size_ b; depth_ := depth_ b; list_ := l |}))
    ∧ find_item l key = Some value.
Proof.
  unfold binding, Find. intros H.
  destruct (IndexOf (global_depth_ t) key) as [i|] eqn:Hi; simpl in H; [|discriminate].
  destruct (bucket_at t i) as [[a b]|] eqn:Hat; simpl in H; [|discriminate].
  injection H as Hf.
  destruct (Bucket_Insert_present b key value v0 Hf) as (l & Hins & Hlen).
  exists i, a, b, l. repeat split; try done.
  - by apply (Insert_pass_Returned t key value i a b).
  - by apply (Bucket_Insert_found b key value _ Hins).
Qed.

(** C2. Directory-bucket coherence holds in every state that construction,
    [Insert], [Remove] and [Find] can produce: for every directory slot [s]
    and every entry [(k, v)] of the bucket [dir[s]],
    [hash(k) & ((1 << d) - 1) = s & ((1 << d) - 1)] with [d] the local depth
    of that bucket. *)
Theorem coherence_is_invariant (t : ExtendibleHashTable) :
  reachable t → coherent t.
Proof. intros H. by apply Inv_coherent, reachable_Inv. Qed.

(** C3. Whenever [Insert(k, v1)] returns, [Find(k)] gives [v1]; a following
    [Insert(k, v2)] returns after one pass and then [Find(k)] gives [v2].  On
    a reachable table with buckets of at least one entry whose keys the hash
    separates, [Insert(k, v1)] does return. *)
Theorem Insert_then_Find (t : ExtendibleHashTable) (key : K) (v1 v2 : V) :
  (∀ fuel t1, Insert fuel t key v1 = Ok t1 →
     Find t1 key = Some (Some v1, t1)
     ∧ ∃ t2, (∀ fuel2, (1 ≤ fuel2)%nat → Insert fuel2 t1 key v2 = Ok t2)
             ∧ Find t2 key = Some (Some v2, t2))
  ∧ (reachable t → 1 ≤ bucket_size_ t → separated t key →
     ∃ t1, Insert 31 t key v1 = Ok t1).
Proof.
  split.
  - intros fuel t1 H1. pose proof (Insert_Ok_Find _ _ _ _ _ H1) as Hf1.
    split; [done|].
    destruct (Insert_present t1 key v2 v1) as (i & a & b & l & Hi & Hat & _ & E & Hl).
    { unfold binding. by rewrite Hf1. }
    eexists. split.
    + intros fuel2 Hfuel. destruct fuel2 as [|fuel2]; [lia|]. simpl. by rewrite E.
    + erewrite Find_set_bucket by done. unfold Bucket_Find. simpl. by rewrite Hl.
  - intros Hr Hbs Hsep. apply Insert_returns; [by apply reachable_Inv | done | done].
Qed.

(** C4. [Insert(k, v)] of a key that is bound returns after one pass without
    doubling the directory or splitting a bucket, also when the bucket of
    [k] is full: the global depth, the directory, the bucket count, the
    number of buckets and each bucket's local depth, capacity and number of
    entries are as before, and [k] is bound to [v]. *)
Theorem Insert_bound_key_keeps_shape
    (t : ExtendibleHashTable) (key : K) (value v0 : V) (fuel : nat) :
  binding t key = Some (Some v0) →
  ∃ t', Insert (S fuel) t key value = Ok t'
        ∧ global_depth_ t' = global_depth_ t
        ∧ dir_ t' = dir_ t
        ∧ num_buckets_ t' = num_buckets_ t
        ∧ bucket_size_ t' = bucket_size_ t
        ∧ depth_ <$> buckets t' = depth_ <$> buckets t
        ∧ size_ <$> buckets t' = size_ <$> buckets t
        ∧ (λ b, length (list_ b)) <$> buckets t' = (λ b, length (list_ b)) <$> buckets t
        ∧ binding t' key = Some (Some value).
Proof.
  intros Hb.
  destruct (Insert_present t key value v0 Hb) as (i & a & b & l & Hi & Hat & Hlen & E & Hl).
  eexists. split; [simpl; by rewrite E|]. simpl.
  assert (Ha : buckets t !! a = Some b).
  { unfold bucket_at in Hat.
    destruct (dir_ t !! Z.to_nat i) as [a0|]; simpl in *; [|discriminate].
    destruct (buckets t !! a0) as [b0|] eqn:Hb0; simpl in *; [|discriminate].
    by injection Hat as -> ->. }
  repeat split; try done.
  - rewrite list_fmap_insert. simpl. apply list_insert_id.
    by rewrite list_lookup_fmap, Ha.
  - rewrite list_fmap_insert. simpl. apply list_insert_id.
    by rewrite list_lookup_fmap, Ha.
  - rewrite list_fmap_insert. simpl. apply list_insert_id.
    rewrite list_lookup_fmap, Ha. simpl. by rewrite Hlen.
  - unfold binding. erewrite Find_set_bucket by done.
    unfold Bucket_Find. simpl. by rewrite Hl.
Qed.

(** C9 (amended). On a reachable table with buckets of at least one entry,
    [Insert(k, v)] returns after at most 31 passes of its loop when the low
    30 bits of the hash are different for any two different keys among the
    stored keys and [k]. *)
Theorem Insert_terminates (t : ExtendibleHashTable) (key : K) (value : V) :
  reachable t → 1 ≤ bucket_size_ t → separated t key →
  ∃ fuel t', (fuel ≤ 31)%nat ∧ Insert fuel t key value = Ok t'.
Proof.
  intros Hr Hbs Hsep.
  destruct (Insert_returns t key value (reachable_Inv t Hr) Hbs Hsep) as [t' H].
  exists 31%nat, t'. done.
Qed.

(** C10. On a reachable table [Find(k)] returns the table it was given, and
    [Remove(k)] returns a table with the same global depth, directory,
    bucket count, number of buckets, and, for each bucket, the same local
    depth and capacity; only the bucket at the slot of [k] can differ, and
    every other key is bound as before. *)
Theorem Find_Remove_frame (t : ExtendibleHashTable) (key : K) :
  reachable t →
  (∃ r, Find t key = Some (r, t))
  ∧ ∃ r t' a,
      Remove t key = Some (r, t')
      ∧ dir_ t !! Z.to_nat (hash key mod 2 ^ global_depth_ t) = Some a
      ∧ global_depth_ t' = global_depth_ t
      ∧ dir_ t' = dir_ t
      ∧ num_buckets_ t' = num_buckets_ t
      ∧ bucket_size_ t' = bucket_size_ t
      ∧ depth_ <$> buckets t' = depth_ <$> buckets t
      ∧ size_ <$> buckets t' = size_ <$> buckets t
      ∧ (∀ x, x ≠ a → buckets t' !! x = buckets t !! x)
      ∧ (∀ key', key' ≠ key → binding t' key' = binding t key').
Proof.
  intros Hr. pose proof (reachable_Inv t Hr) as HI. split.
  - destruct (Find_defined t key HI) as (a & b & _ & _ & E). eauto.
  - destruct (Remove_defined t key HI) as (a & b & Ha & Hb & E).
    destruct (Bucket_Find b key) as [v0|] eqn:Hf.
    + exists true, (set_bucket t a (Bucket_Remove b key).2), a.
      destruct (Bucket_Remove_depth b key) as [Ed Es].
      split; [done|]. split; [done|]. simpl. repeat split; try done.
      * rewrite list_fmap_insert. apply list_insert_id.
        by rewrite list_lookup_fmap, Hb, Ed.
      * rewrite list_fmap_insert. apply list_insert_id.
        by rewrite list_lookup_fmap, Hb, Es.
      * intros x Hx. by apply list_lookup_insert_ne.
      * intros key' Hk.
        destruct (Find_defined t key' HI) as (a' & b' & Ha' & Hb' & E').
        unfold binding. rewrite E'. unfold Find. simpl.
        rewrite (IndexOf_value _ key' (inv_depth t HI)). simpl.
        unfold bucket_at. simpl. rewrite Ha'. simpl.
        destruct (decide (a' = a)) as [->|Hne].
        -- rewrite list_lookup_insert_eq by (by eapply lookup_lt_Some). simpl.
           assert (b' = b) by congruence. subst b'.
           by rewrite Bucket_Remove_other.
        -- rewrite list_lookup_insert_ne by done. by rewrite Hb'.
    + exists false, t, a. repeat split; done.
Qed.


(** ** Buckets as small maps *)

Lemma find_item_is_Some l key : is_Some (find_item l key) ↔ key ∈ l.*1.
Proof.
  induction l as [|[k v] l IH]; simpl.
  - split; [by intros [? ?] | by intros ?%elem_of_nil].
  - destruct (decide (k = key)) as [->|Hne].
    + split; [intros _; left | by eauto].
    + rewrite IH. split; [by right|]. intros Hin.
      apply elem_of_cons in Hin as [Hin|Hin]; [by subst | done].
Qed.

Lemma find_item_None_keys l key : find_item l key = None ↔ key ∉ l.*1.
Proof.
  rewrite <- find_item_is_Some. split.
  - intros E [v Hv]. congruence.
  - intros Hn. destruct (find_item l key) eqn:E; [|done]. destruct Hn. eauto.
Qed.

Lemma assign_item_keys l key value l' :
  assign_item l key value = Some l' → l'.*1 = l.*1.
Proof.
  revert l'. induction l as [|[k v] l IH]; intros l' H; simpl in H; [done|].
  destruct (decide (k = key)) as [->|Hne].
  - by injection H as <-.
  - destruct (assign_item l key value) as [l''|] eqn:E; simpl in H; [|done].
    injection H as <-. simpl. f_equal. by apply IH.
Qed.

Lemma erase_item_sublist l key : sublist (erase_item l key).2 l.
Proof.
  induction l as [|[k v] l IH]; simpl; [done|].
  destruct (decide (k = key)).
  - simpl. by apply sublist_cons.
  - destruct (erase_item l key) as [r l'']. simpl in *. by apply sublist_skip.
Qed.

Lemma erase_item_found l key :
  (erase_item l key).1 = true ↔ is_Some (find_item l key).
Proof.
  induction l as [|[k v] l IH]; simpl.
  - split; [done | by intros [? ?]].
  - destruct (decide (k = key)); [by eauto|].
    destruct (erase_item l key) as [r l'']. simpl in *. done.
Qed.

Lemma erase_item_length l key :
  length l
  = (length (erase_item l key).2 + (if (erase_item l key).1 then 1 else 0))%nat.
Proof.
  induction l as [|[k v] l IH]; simpl; [done|].
  destruct (decide (k = key)); simpl; [lia|].
  destruct (erase_item l key) as [r l'']. simpl in *. lia.
Qed.

Lemma erase_item_absent l key : find_item l key = None → erase_item l key = (false, l).
Proof.
  induction l as [|[k v] l IH]; simpl; [done|].
  destruct (decide (k = key)); [done|]. intros H. by rewrite (IH H).
Qed.

Lemma erase_item_gone l key :
  NoDup l.*1 → find_item (erase_item l key).2 key = None.
Proof.
  induction l as [|[k v] l IH]; simpl; [done|].
  intros [Hk Hl]%NoDup_cons. destruct (decide (k = key)) as [->|Hne]; simpl.
  - by apply find_item_None_keys.
  - destruct (erase_item l key) as [r l''] eqn:E. simpl in *.
    rewrite decide_False by done. by apply IH.
Qed.

Lemma find_item_filter (P : K * V → Prop) `{∀ x, Decision (P x)} l key :
  (∀ v, P (key, v)) → find_item (filter P l) key = find_item l key.
Proof.
  intros HP. induction l as [|[k v] l IH]; [done|].
  destruct (decide (P (k, v))) as [Hy|Hn].
  - rewrite filter_cons_True by done. simpl. by rewrite IH.
  - rewrite filter_cons_False by done. simpl. rewrite decide_False; [done|].
    intros ->. by apply Hn.
Qed.

Lemma Bucket_Insert_tidy b key value :
  tidy_bucket b → tidy_bucket (Bucket_Insert b key value).2.
Proof.
  intros [Hnd Hlen]. unfold Bucket_Insert.
  destruct (assign_item (list_ b) key value) as [l|] eqn:E; simpl.
  - split; simpl.
    + by rewrite (assign_item_keys _ _ _ _ E).
    + by rewrite (assign_item_length _ _ _ _ E).
  - unfold IsFull. destruct (Z.leb_spec (size_ b) (Z.of_nat (length (list_ b)))); simpl.
    + done.
    + split; simpl.
      * rewrite fmap_app. apply NoDup_app. split; [done|]. split.
        -- intros k Hk Hin. simpl in Hin. apply list_elem_of_singleton in Hin as ->.
           apply assign_item_None in E. by apply find_item_None_keys in E.
        -- simpl. apply NoDup_singleton.
      * rewrite length_app. simpl. lia.
Qed.

Lemma Bucket_Remove_tidy b key : tidy_bucket b → tidy_bucket (Bucket_Remove b key).2.
Proof.
  intros [Hnd Hlen]. pose proof (erase_item_sublist (list_ b) key) as Hsub.
  unfold tidy_bucket. rewrite Bucket_Remove_list.
  destruct (Bucket_Remove_depth b key) as [_ ->]. split.
  - apply (sublist_NoDup _ (list_ b).*1); [exact Hnd | by apply fmap_sublist].
  - apply sublist_length in Hsub. lia.
Qed.

(** X9. [Bucket::Insert] refuses exactly when the key is absent and the
    bucket is full, and then leaves the bucket alone.  Otherwise the key is
    bound to the value afterwards, the bucket has grown by one entry exactly
    when the key was absent, and every other key is bound as before; the
    depth and the capacity never change. *)
Theorem Bucket_Insert_effect (b : Bucket) (key : K) (value : V) :
  ((Bucket_Insert b key value).1 = false
   ↔ Bucket_Find b key = None ∧ IsFull b = true)
  ∧ ((Bucket_Insert b key value).1 = false → (Bucket_Insert b key value).2 = b)
  ∧ ((Bucket_Insert b key value).1 = true →
     Bucket_Find (Bucket_Insert b key value).2 key = Some value
     ∧ length (list_ (Bucket_Insert b key value).2)
       = (length (list_ b)
          + match Bucket_Find b key with Some _ => 0 | None => 1 end)%nat)
  ∧ (∀ k, k ≠ key →
       Bucket_Find (Bucket_Insert b key value).2 k = Bucket_Find b k)
  ∧ depth_ (Bucket_Insert b key value).2 = depth_ b
  ∧ size_ (Bucket_Insert b key value).2 = size_ b.
Proof.
  destruct (Bucket_Insert_depth b key value) as [Ed Es].
  split; [|split; [|split; [|split; [|done]]]].
  - split.
    + intros E. destruct (Bucket_Insert b key value) as [r b'] eqn:EI.
      simpl in E. subst r. by destruct (Bucket_Insert_full _ _ _ _ EI) as (_ & ? & ?).
    + intros [Hf Hfull]. unfold Bucket_Insert, Bucket_Find in *.
      apply (assign_item_None _ _ value) in Hf. rewrite Hf, Hfull. done.
  - intros E. destruct (Bucket_Insert b key value) as [r b'] eqn:EI.
    simpl in E. subst r. by destruct (Bucket_Insert_full _ _ _ _ EI) as (-> & _).
  - intros E. destruct (Bucket_Insert b key value) as [r b'] eqn:EI.
    simpl in E. subst r. split; [by apply (Bucket_Insert_found b key value)|].
    simpl. unfold Bucket_Insert, Bucket_Find in *.
    destruct (assign_item (list_ b) key value) as [l|] eqn:Ea.
    + injection EI as <-. simpl. rewrite (assign_item_length _ _ _ _ Ea).
      destruct (find_item (list_ b) key) eqn:Ef; [lia|].
      apply (assign_item_None _ _ value) in Ef. congruence.
    + apply assign_item_None in Ea. rewrite Ea.
      destruct (IsFull b); [done|]. injection EI as <-. simpl.
      by rewrite length_app.
  - intros k Hk. by apply Bucket_Insert_other.
Qed.

(** X10. [Bucket::Remove] returns [true] exactly when the key is bound, and
    then the bucket has one entry less; every other key is bound as before,
    the entries that stay keep their order, and in a bucket that holds each
    key once the key is unbound afterwards. *)
Theorem Bucket_Remove_effect (b : Bucket) (key : K) :
  ((Bucket_Remove b key).1 = true ↔ is_Some (Bucket_Find b key))
  ∧ length (list_ b)
    = (length (list_ (Bucket_Remove b key).2)
       + (if (Bucket_Remove b key).1 then 1 else 0))%nat
  ∧ sublist (list_ (Bucket_Remove b key).2) (list_ b)
  ∧ (∀ k, k ≠ key → Bucket_Find (Bucket_Remove b key).2 k = Bucket_Find b k)
  ∧ (NoDup (list_ b).*1 → Bucket_Find (Bucket_Remove b key).2 key = None)
  ∧ (Bucket_Find b key = None → (Bucket_Remove b key).2 = b).
Proof.
  assert (E1 : (Bucket_Remove b key).1 = (erase_item (list_ b) key).1).
  { unfold Bucket_Remove. by destruct (erase_item (list_ b) key). }
  rewrite E1. unfold Bucket_Find. rewrite !Bucket_Remove_list.
  split; [apply erase_item_found|]. split; [apply erase_item_length|].
  split; [apply erase_item_sublist|].
  split; [intros k Hk; by apply erase_item_find_ne|].
  split; [apply erase_item_gone|].
  intros Hf. unfold Bucket_Remove. rewrite (erase_item_absent _ _ Hf).
  simpl. by destruct b.
Qed.

(** ** The data split, exactly *)

Lemma redistribute_divide g d o :
  0 ≤ g ≤ 30 → 0 ≤ d → d + 1 ≤ g →
  ∀ items ob db ob' db',
    redistribute g (Z.ones (d + 1)) o items ob db = Some (ob', db') →
    NoDup items.*1 →
    (∀ k, k ∈ items.*1 → find_item (list_ db) k = None) →
    Z.of_nat (length (list_ db) + length items) ≤ size_ db →
    list_ db' = list_ db ++ filter (λ kv, hash kv.1 mod 2 ^ (d + 1) ≠ o) items.
Proof.
  intros Hg Hd Hdg.
  induction items as [|[k v] rest IH]; intros ob db ob' db' H Hnd Hfresh Hlen.
  - simpl in H. injection H as _ <-. by rewrite filter_nil, app_nil_r.
  - simpl in H. rewrite (IndexOf_value g k Hg) in H. simpl in H.
    rewrite land_mask, mod_pow2_mod in H by lia.
    rewrite fmap_cons in Hnd. apply NoDup_cons in Hnd as [Hk Hnd]. simpl in Hk.
    destruct (decide (hash k mod 2 ^ (d + 1) = o)) as [E|E].
    + replace (hash k mod 2 ^ (d + 1) =? o) with true in H
        by (symmetry; by apply Z.eqb_eq).
      simpl in H. rewrite filter_cons_False by (simpl; intros Hn; by apply Hn).
      apply (IH _ _ _ _ H); [done | |simpl in Hlen; lia].
      intros k' Hk'. apply Hfresh. rewrite fmap_cons. by right.
    + replace (hash k mod 2 ^ (d + 1) =? o) with false in H
        by (symmetry; by apply Z.eqb_neq).
      simpl in H. rewrite filter_cons_True by done.
      assert (Eins : list_ (Bucket_Insert db k v).2 = list_ db ++ [(k, v)]).
      { unfold Bucket_Insert.
        rewrite (proj2 (assign_item_None (list_ db) k v))
          by (apply Hfresh; rewrite fmap_cons; by left).
        unfold IsFull.
        destruct (Z.leb_spec (size_ db) (Z.of_nat (length (list_ db))));
          [simpl in Hlen; lia | done]. }
      rewrite (IH _ _ _ _ H); [by rewrite Eins, <- app_assoc | done | |].
      * intros k' Hk'. rewrite Eins, find_item_app_ne.
        -- apply Hfresh. rewrite fmap_cons. by right.
        -- intros ->. done.
      * rewrite Eins, length_app. destruct (Bucket_Insert_depth db k v) as [_ ->].
        simpl in *. lia.
Qed.

Lemma slot_by_residue t (s0 x : nat) bx k :
  Inv t → dir_ t !! s0 = Some x → buckets t !! x = Some bx →
  hash k mod 2 ^ depth_ bx = Z.of_nat s0 mod 2 ^ depth_ bx →
  dir_ t !! Z.to_nat (hash k mod 2 ^ global_depth_ t) = Some x.
Proof.
  intros HI Hs0 Hbx Hres.
  destruct (inv_target t HI s0 x Hs0) as (bx0 & Hbx0 & Hdx & _).
  assert (bx0 = bx) by congruence. subst bx0.
  apply (inv_share t HI s0 _ x bx Hs0 Hbx (slot_in_range t k HI)).
  rewrite (slot_id t k HI), mod_pow2_mod by lia. done.
Qed.

Section SplitBinding.

Variable t : ExtendibleHashTable.
Variable key : K.
Variable a : nat.
Variable b : Bucket.

Hypothesis HI : Inv t.
Hypothesis Ha : dir_ t !! Z.to_nat (hash key mod 2 ^ global_depth_ t) = Some a.
Hypothesis Hb : buckets t !! a = Some b.
Hypothesis Hd30 : depth_ b + 1 ≤ 30.
Hypothesis Htidy : tidy t.

Variables ob' db' : Bucket.
Hypothesis Hsplit : split_data t key b = Some (ob', db').

Let o := (hash key mod 2 ^ global_depth_ t) mod 2 ^ (depth_ b + 1).
Let t' := split_table t key a b ob' db'.

Lemma split_data_divide :
  list_ db' = filter (λ kv, hash kv.1 mod 2 ^ (depth_ b + 1) ≠ o) (list_ b).
Proof.
  pose proof (full_bucket_depth t key a b HI Ha Hb) as Hd.
  destruct (grown_depth t key a b HI Ha Hb Hd30) as (Eg & Hg & _).
  destruct (Htidy a b Hb) as [Hnd Hlen].
  destruct (inv_target t HI _ a Ha) as (b0 & Hb0 & _ & Hsz).
  assert (b0 = b) by congruence. subst b0.
  pose proof Hsplit as H. unfold split_data in H. rewrite <- Eg in H.
  apply redistribute_divide in H; [exact H|lia|lia|lia|done| |simpl; lia].
  intros k _. done.
Qed.

Lemma split_table_tidy : tidy t'.
Proof.
  destruct (split_data_facts t key a b HI Ha Hb Hd30 ob' db' Hsplit)
    as (_ & Hso & _ & Hsd & Hlo & _).
  destruct (Htidy a b Hb) as [Hnd Hlen].
  destruct (inv_target t HI _ a Ha) as (b0 & Hb0 & _ & Hsz).
  assert (b0 = b) by congruence. subst b0.
  intros x bx Hx. unfold t', split_table in Hx. simpl in Hx.
  apply (split_bucket_lookup t _ a b ob' db' Ha Hb) in Hx
    as [[_ ->]|[[_ ->]|(_ & _ & Hx)]].
  - split.
    + rewrite Hlo. apply (sublist_NoDup _ (list_ b).*1); [done|].
      apply fmap_sublist, sublist_filter.
    + rewrite Hlo, Hso.
      pose proof (sublist_length _ _ (sublist_filter
        (λ kv : K * V, hash kv.1 mod 2 ^ (depth_ b + 1) = o) (list_ b))). 
      fold o. lia.
  - split.
    + rewrite split_data_divide. apply (sublist_NoDup _ (list_ b).*1); [done|].
      apply fmap_sublist, sublist_filter.
    + rewrite split_data_divide, Hsd.
      pose proof (sublist_length _ _ (sublist_filter
        (λ kv : K * V, hash kv.1 mod 2 ^ (depth_ b + 1) ≠ o) (list_ b))).
      lia.
  - by apply (Htidy x).
Qed.

Lemma grown_dir_lookup (s x : nat) :
  dir_ t !! s = Some x → dir_ (grown t b) !! s = Some x.
Proof.
  intros H. unfold grown. destruct (depth_ b =? global_depth_ t); [|done].
  simpl. by apply lookup_app_l_Some.
Qed.

(** A split moves entries between two buckets and repoints slots, but every
    key is looked up where its entry now is. *)
Lemma split_table_binding k : binding t' k = binding t k.
Proof.
  pose proof (full_bucket_depth t key a b HI Ha Hb) as Hd.
  destruct (grown_depth t key a b HI Ha Hb Hd30) as (Eg & Hg & Hgg).
  destruct (grown_buckets t b) as [Ebk Ebs].
  pose proof (Inv_grown t key a b HI Ha Hb Hd30) as HIg.
  pose proof (Inv_split_table t key a b HI Ha Hb Hd30 ob' db' Hsplit) as HI'.
  fold t' in HI'.
  destruct (split_data_facts t key a b HI Ha Hb Hd30 ob' db' Hsplit)
    as (_ & _ & _ & _ & Hlo & _).
  destruct (Find_defined t k HI) as (x & bx & Hx & Hbx & E).
  destruct (Find_defined t' k HI') as (x' & bx' & Hx' & Hbx' & E').
  unfold binding. rewrite E, E'. simpl. f_equal.
  destruct (inv_target t HI _ x Hx) as (bx0 & Hbx0 & Hdx & _).
  assert (bx0 = bx) by congruence. subst bx0.
  assert (Eg' : global_depth_ t' = global_depth_ (grown t b)).
  { unfold t'. by rewrite split_table_grown. }
  (* the slot of [k] in the grown directory still points to [x] *)
  assert (Hxg : dir_ (grown t b) !! Z.to_nat (hash k mod 2 ^ global_depth_ t')
                = Some x).
  { rewrite Eg'. apply (slot_by_residue (grown t b) _ x bx k HIg
                          (grown_dir_lookup _ _ Hx)); [by rewrite Ebk|].
    rewrite (slot_id t k HI), mod_pow2_mod by lia. done. }
  assert (Hcl : Z.of_nat (Z.to_nat (hash k mod 2 ^ global_depth_ t'))
                mod 2 ^ (depth_ b + 1) = hash k mod 2 ^ (depth_ b + 1)).
  { rewrite Eg'. rewrite (slot_id (grown t b) k HIg). apply mod_pow2_mod. lia. }
  assert (Hslot : (Z.to_nat (hash k mod 2 ^ global_depth_ t')
                   < length (dir_ (grown t b)))%nat) by (by eapply lookup_lt_Some).
  assert (Edir : dir_ t' = remap (Z.ones (depth_ b + 1))
                   (Z.of_nat (Z.to_nat (hash key mod 2 ^ global_depth_ t))
                    mod 2 ^ (depth_ b + 1))
                   (image (depth_ b)
                     (Z.of_nat (Z.to_nat (hash key mod 2 ^ global_depth_ t))
                      mod 2 ^ (depth_ b + 1)))
                   a (length (buckets (grown t b))) (dir_ (grown t b))).
  { unfold t'. by rewrite split_table_grown, (slot_id t key HI). }
  assert (Hbg : buckets (grown t b) !! a = Some b) by (by rewrite Ebk).
  pose proof (split_old_class (grown t b) _ a b HIg (grown_slot t key a b Ha) Hbg
                ltac:(lia) _ Hslot) as Hold.
  rewrite Hcl, (slot_id t key HI) in Hold. fold o in Hold.
  rewrite Edir in Hx'.
  apply (split_dir_lookup (grown t b) _ a b HIg (grown_slot t key a b Ha) Hbg
           ltac:(lia)) in Hx' as [_ Hx'].
  rewrite Hcl, (slot_id t key HI), Ebk in Hx'. fold o in Hx'.
  unfold t', split_table in Hbx'. simpl in Hbx'.
  apply (split_bucket_lookup t _ a b ob' db' Ha Hb) in Hbx'.
  assert (Ho : 0 ≤ o < 2 ^ (depth_ b + 1)) by (apply mod_pow2_range; lia).
  pose proof (image_neq (depth_ b) o ltac:(lia) Hd30) as Hneq.
  assert (Halt : (a < length (buckets t))%nat) by (by eapply lookup_lt_Some).
  destruct Hx' as [[-> Hc]|[[-> Hc]|(Hna & Hna' & Hx')]].
  - destruct Hbx' as [[_ ->]|[[? _]|(? & _)]]; [|lia|done].
    assert (x = a) by (pose proof (proj2 Hold (or_introl Hc)); congruence). subst x.
    assert (bx = b) by congruence. subst bx.
    unfold Bucket_Find. rewrite Hlo. fold o.
    apply (find_item_filter (λ kv, hash kv.1 mod 2 ^ (depth_ b + 1) = o)).
    intros v. done.
  - destruct Hbx' as [[? _]|[[_ ->]|(_ & ? & _)]]; [lia| |done].
    assert (x = a) by (pose proof (proj2 Hold (or_intror Hc)); congruence). subst x.
    assert (bx = b) by congruence. subst bx.
    unfold Bucket_Find. rewrite split_data_divide.
    apply (find_item_filter (λ kv, hash kv.1 mod 2 ^ (depth_ b + 1) ≠ o)).
    intros v. simpl. congruence.
  - assert (x' = x) by congruence. subst x'.
    destruct Hbx' as [[? _]|[[? _]|(_ & _ & Hbx')]]; [done|done|].
    congruence.
Qed.

End SplitBinding.

(** ** Reachable tables are tidy *)

Lemma tidy_new n : 0 ≤ n → tidy (new n).
Proof.
  intros Hn x bx Hx. simpl in Hx. apply list_lookup_singleton_Some in Hx as [_ <-].
  split; simpl; [constructor | lia].
Qed.

Lemma tidy_set_bucket t a b' : tidy t → tidy_bucket b' → tidy (set_bucket t a b').
Proof.
  intros Ht Hb' x bx Hx. simpl in Hx.
  apply list_lookup_insert_Some in Hx as [(-> & <- & _)|[_ Hx]]; [done|].
  by apply (Ht x).
Qed.

Lemma binding_set_bucket t a b b' k :
  Inv t → buckets t !! a = Some b →
  Bucket_Find b' k = Bucket_Find b k →
  binding (set_bucket t a b') k = binding t k.
Proof.
  intros HI Hb Hfind.
  destruct (Find_defined t k HI) as (x & bx & Hx & Hbx & E).
  unfold binding. rewrite E. unfold Find. simpl.
  rewrite (IndexOf_value _ k (inv_depth t HI)). simpl.
  unfold bucket_at. simpl. rewrite Hx. simpl.
  destruct (decide (x = a)) as [->|Hne].
  - rewrite list_lookup_insert_eq by (by eapply lookup_lt_Some). simpl.
    assert (bx = b) by congruence. subst bx. by rewrite Hfind.
  - rewrite list_lookup_insert_ne by done. by rewrite Hbx.
Qed.

Lemma Insert_keeps fuel : ∀ t key value t',
  Inv t → tidy t → Insert fuel t key value = Ok t' →
  Inv t' ∧ tidy t' ∧ ∀ k, k ≠ key → binding t' k = binding t k.
Proof.
  induction fuel as [|n IH]; intros t key value t' HI Ht H; [done|].
  simpl in H.
  destruct (Insert_pass_cases t key value HI)
    as (a & b & Ha & Hb & [(b1 & Hins & Hp)|[(_ & _ & Hp)|(Hins & Hd & ob' & db' & Hsp & Hp)]]);
    rewrite Hp in H.
  - injection H as <-. split; [by apply (Inv_Returned t key value a b b1)|]. split.
    + apply tidy_set_bucket; [done|].
      replace b1 with (Bucket_Insert b key value).2 by (by rewrite Hins).
      apply Bucket_Insert_tidy. by apply (Ht a).
    + intros k Hk. apply (binding_set_bucket t a b b1 k HI Hb).
      replace b1 with (Bucket_Insert b key value).2 by (by rewrite Hins).
      by apply Bucket_Insert_other.
  - done.
  - destruct (IH _ _ _ _ (Inv_split_table t key a b HI Ha Hb Hd ob' db' Hsp)
                (split_table_tidy t key a b HI Ha Hb Hd Ht ob' db' Hsp) H)
      as (HI' & Ht' & Hbind).
    split; [done|]. split; [done|].
    intros k Hk. rewrite (Hbind k Hk).
    apply (split_table_binding t key a b HI Ha Hb Hd Ht ob' db' Hsp).
Qed.

Lemma Remove_tidy t key r t' : Inv t → tidy t → Remove t key = Some (r, t') → tidy t'.
Proof.
  intros HI Ht H. destruct (Remove_defined t key HI) as (a & b & Ha & Hb & E).
  rewrite E in H. destruct (Bucket_Find b key); injection H as <- <-; [|done].
  apply tidy_set_bucket; [done|]. apply Bucket_Remove_tidy. by apply (Ht a).
Qed.

Lemma reachable_tidy t : reachable t → tidy t.
Proof.
  induction 1 as [n Hn|t fuel key value t' Hr IH H|t key r t' Hr IH H|t key r t' Hr IH H].
  - apply tidy_new. lia.
  - by destruct (Insert_keeps _ _ _ _ _ (reachable_Inv t Hr) IH H) as (_ & ? & _).
  - by apply (Remove_tidy t key r t' (reachable_Inv t Hr)).
  - by rewrite (Find_same _ _ _ _ H).
Qed.

Lemma find_item_NoDup l k v : NoDup l.*1 → (k, v) ∈ l → find_item l k = Some v.
Proof.
  induction l as [|[k0 v0] l IH]; intros Hnd Hin; [by apply elem_of_nil in Hin|].
  rewrite fmap_cons in Hnd. apply NoDup_cons in Hnd as [Hk Hnd]. simpl in *.
  apply elem_of_cons in Hin as [[= -> ->]|Hin].
  - by rewrite decide_True.
  - rewrite decide_False; [by apply IH|].
    intros ->. apply Hk. apply list_elem_of_fmap. by exists (k, v).
Qed.

Lemma stored_found t a b k v :
  Inv t → tidy t → buckets t !! a = Some b → (k, v) ∈ list_ b →
  dir_ t !! Z.to_nat (hash k mod 2 ^ global_depth_ t) = Some a
  ∧ Find t k = Some (Some v, t).
Proof.
  intros HI Ht Hb Hin.
  destruct (inv_used t HI a) as [s Hs]; [by eapply lookup_lt_Some|].
  pose proof (inv_entries t HI s a b k v Hs Hb Hin) as Hres.
  pose proof (slot_by_residue t s a b k HI Hs Hb Hres) as Hslot.
  split; [done|].
  destruct (Find_defined t k HI) as (x & bx & Hx & Hbx & E).
  assert (x = a) by congruence. subst x.
  assert (bx = b) by congruence. subst bx.
  rewrite E. unfold Bucket_Find.
  rewrite (find_item_NoDup _ k v); [done| |done]. by destruct (Ht a b Hb).
Qed.

Lemma found_stored t k v : Inv t → binding t k = Some (Some v) → stored t k.
Proof.
  intros HI H. destruct (Find_defined t k HI) as (x & bx & Hx & Hbx & E).
  unfold binding in H. rewrite E in H. simpl in H. injection H as H.
  exists x, bx, v. split; [done|]. by apply find_item_Some.
Qed.

(** X11. In every table a client can reach, each bucket holds a key at most
    once and never more entries than the bucket size the table was built
    with. *)
Theorem buckets_within_capacity (t : ExtendibleHashTable) (a : nat) (b : Bucket) :
  reachable t → buckets t !! a = Some b →
  NoDup (list_ b).*1
  ∧ size_ b = bucket_size_ t
  ∧ Z.of_nat (length (list_ b)) ≤ bucket_size_ t.
Proof.
  intros Hr Hb. pose proof (reachable_Inv t Hr) as HI.
  destruct (reachable_tidy t Hr a b Hb) as [Hnd Hlen].
  destruct (inv_used t HI a) as [s Hs]; [by eapply lookup_lt_Some|].
  destruct (inv_target t HI s a Hs) as (b0 & Hb0 & _ & Hsz).
  assert (b0 = b) by congruence. subst b0.
  split; [done|]. split; [done | lia].
Qed.

(** X12. In a reachable table an entry is found where it is stored: the
    slot of its key points to the bucket that holds it, and [Find] returns
    its value.  So a key is stored in at most one bucket, and it is stored
    exactly when [Find] succeeds. *)
Theorem stored_entries_are_found (t : ExtendibleHashTable) (k : K) :
  reachable t →
  (∀ a b v, buckets t !! a = Some b → (k, v) ∈ list_ b →
     dir_ t !! Z.to_nat (hash k mod 2 ^ global_depth_ t) = Some a
     ∧ Find t k = Some (Some v, t))
  ∧ (stored t k ↔ ∃ v, binding t k = Some (Some v)).
Proof.
  intros Hr. pose proof (reachable_Inv t Hr) as HI.
  pose proof (reachable_tidy t Hr) as Ht. split.
  - intros a b v. by apply stored_found.
  - split.
    + intros (a & b & v & Hb & Hin). exists v.
      destruct (stored_found t a b k v HI Ht Hb Hin) as [_ E].
      unfold binding. by rewrite E.
    + intros [v Hv]. by apply (found_stored t k v).
Qed.

(** X13. [Insert(key, value)] changes the binding of no other key, however
    many buckets it splits and however often it doubles the directory. *)
Theorem Insert_keeps_other_bindings
    (t t' : ExtendibleHashTable) (fuel : nat) (key k : K) (value : V) :
  reachable t → Insert fuel t key value = Ok t' → k ≠ key →
  binding t' k = binding t k.
Proof.
  intros Hr H Hk.
  destruct (Insert_keeps fuel t key value t' (reachable_Inv t Hr)
              (reachable_tidy t Hr) H) as (_ & _ & Hb).
  by apply Hb.
Qed.

(** X14. [Remove(key)] returns [true] exactly when the key was bound.
    Afterwards the key is not bound and not stored in any bucket, and a
    second [Remove] returns [false] and changes nothing; a [Remove] that
    returns [false] has changed nothing. *)
Theorem Remove_unbinds (t t' : ExtendibleHashTable) (key : K) (r : bool) :
  reachable t → Remove t key = Some (r, t') →
  (r = true ↔ ∃ v, binding t key = Some (Some v))
  ∧ binding t' key = Some None
  ∧ ¬ stored t' key
  ∧ Remove t' key = Some (false, t')
  ∧ (r = false → t' = t).
Proof.
  intros Hr H. pose proof (reachable_Inv t Hr) as HI.
  pose proof (reachable_tidy t Hr) as Ht.
  pose proof (Remove_Inv t key r t' HI H) as HI'.
  pose proof (Remove_tidy t key r t' HI Ht H) as Ht'.
  destruct (Remove_defined t key HI) as (a & b & Ha & Hb & E).
  destruct (Find_defined t key HI) as (a0 & b0 & Ha0 & Hb0 & EF).
  assert (a0 = a) by congruence. subst a0.
  assert (b0 = b) by congruence. subst b0.
  assert (Hgone : binding t' key = Some None).
  { rewrite E in H. destruct (Bucket_Find b key) as [v0|] eqn:Hf; injection H as <- <-.
    - unfold binding.
      rewrite (Find_set_bucket t key _ a b _ (IndexOf_value _ key (inv_depth t HI))).
      + simpl. f_equal. unfold Bucket_Find. rewrite Bucket_Remove_list.
        apply erase_item_gone. by destruct (Ht a b Hb).
      + unfold bucket_at. rewrite Ha. simpl. by rewrite Hb.
    - unfold binding. rewrite EF. simpl. congruence. }
  split; [|split; [done|split; [|split]]].
  - rewrite E in H. unfold binding. rewrite EF. simpl.
    destruct (Bucket_Find b key) as [v0|]; injection H as <- <-.
    + split; [by eauto | done].
    + split; [done | by intros [? ?]].
  - intros (x & bx & v & Hx & Hin).
    destruct (stored_found t' x bx key v HI' Ht' Hx Hin) as [_ EF'].
    unfold binding in Hgone. rewrite EF' in Hgone. done.
  - destruct (Remove_defined t' key HI') as (a' & b' & Ha' & Hb' & E').
    destruct (Find_defined t' key HI') as (a1 & b1 & Ha1 & Hb1 & EF1).
    assert (a1 = a') by congruence. subst a1.
    assert (b1 = b') by congruence. subst b1.
    unfold binding in Hgone. rewrite EF1 in Hgone. simpl in Hgone.
    injection Hgone as Hgone. rewrite E', Hgone. done.
  - intros ->. rewrite E in H. destruct (Bucket_Find b key); [done|].
    by injection H as <-.
Qed.

(** ** Shape of the directory *)

Lemma dir_addresses t (a : nat) :
  Inv t → a ∈ dir_ t ↔ (a < length (buckets t))%nat.
Proof.
  intros HI. split.
  - intros [s Hs]%list_elem_of_lookup_1.
    destruct (inv_target t HI s a Hs) as (b & Hb & _). by eapply lookup_lt_Some.
  - intros Ha. destruct (inv_used t HI a Ha) as [s Hs]. by eapply list_elem_of_lookup_2.
Qed.

(** X15. What the getters report on a reachable table.  The global depth is
    between 0 and 30 and the directory has 2^depth slots; [GetLocalDepth]
    is defined exactly on the indices of these slots, where it is at most
    the global depth; [GetNumBuckets] is the number of distinct buckets the
    directory points to, at least 1 and at most the number of slots. *)
Theorem getters_on_reachable (t : ExtendibleHashTable) :
  reachable t →
  0 ≤ GetGlobalDepth t ≤ 30
  ∧ Z.of_nat (length (dir_ t)) = 2 ^ GetGlobalDepth t
  ∧ (∀ i, is_Some (GetLocalDepth t i) ↔ to_size_t i < 2 ^ GetGlobalDepth t)
  ∧ (∀ i d, GetLocalDepth t i = Some d → 0 ≤ d ≤ GetGlobalDepth t)
  ∧ 1 ≤ GetNumBuckets t ≤ 2 ^ GetGlobalDepth t
  ∧ GetNumBuckets t = Z.of_nat (size (list_to_set (dir_ t) : gset nat)).
Proof.
  intros Hr. pose proof (reachable_Inv t Hr) as HI.
  pose proof (inv_depth t HI) as Hg. pose proof (inv_length t HI) as Hlen.
  unfold GetGlobalDepth, GetNumBuckets.
  assert (Hpos : 0 < 2 ^ global_depth_ t) by (apply Z.pow_pos_nonneg; lia).
  split; [done|]. split; [done|].
  assert (Hsz : ∀ i, 0 ≤ to_size_t i).
  { intros i. unfold to_size_t. apply Z.mod_pos_bound. lia. }
  split; [|split; [|split]].
  - intros i. unfold GetLocalDepth. split.
    + intros [d Hd]. apply bind_Some in Hd as (a & Ha & _).
      apply lookup_lt_Some in Ha. specialize (Hsz i). lia.
    + intros Hi.
      destruct (lookup_lt_is_Some_2 (dir_ t) (Z.to_nat (to_size_t i))) as [a Ha].
      { specialize (Hsz i). lia. }
      destruct (inv_target t HI _ a Ha) as (b & Hb & _).
      rewrite Ha. simpl. rewrite Hb. simpl. by eexists.
  - intros i d Hd. unfold GetLocalDepth in Hd.
    apply bind_Some in Hd as (a & Ha & Hd). apply bind_Some in Hd as (b & Hb & Hd).
    injection Hd as <-. destruct (inv_target t HI _ a Ha) as (b0 & Hb0 & Hdb & _).
    assert (b0 = b) by congruence. subst b0. done.
  - rewrite (inv_count t HI). pose proof (buckets_le_slots t HI). split; [|lia].
    destruct (lookup_lt_is_Some_2 (dir_ t) 0) as [a Ha]; [lia|].
    destruct (inv_target t HI _ a Ha) as (b & Hb & _).
    apply lookup_lt_Some in Hb. lia.
  - rewrite (inv_count t HI). f_equal.
    assert (E : (list_to_set (dir_ t) : gset nat)
                = list_to_set (seq 0 (length (buckets t)))).
    { apply set_eq. intros a. rewrite !elem_of_list_to_set, (dir_addresses t a HI).
      rewrite elem_of_seq. lia. }
    rewrite E, size_list_to_set by apply NoDup_seq. by rewrite length_seq.
Qed.

(** ** What [Insert] never undoes *)

Lemma Insert_grows fuel : ∀ t key value t',
  Inv t → Insert fuel t key value = Ok t' →
  bucket_size_ t' = bucket_size_ t
  ∧ global_depth_ t ≤ global_depth_ t'
  ∧ num_buckets_ t ≤ num_buckets_ t'
  ∧ global_depth_ t' - global_depth_ t ≤ num_buckets_ t' - num_buckets_ t
  ∧ ∀ x bx, buckets t !! x = Some bx →
      ∃ bx', buckets t' !! x = Some bx' ∧ depth_ bx ≤ depth_ bx'.
Proof.
  induction fuel as [|n IH]; intros t key value t' HI H; [done|].
  simpl in H.
  destruct (Insert_pass_cases t key value HI)
    as (a & b & Ha & Hb & [(b1 & Hins & Hp)|[(_ & _ & Hp)|(Hins & Hd & ob' & db' & Hsp & Hp)]]);
    rewrite Hp in H.
  - injection H as <-. simpl. split; [done|]. split; [lia|]. split; [lia|].
    split; [lia|]. intros x bx Hx. destruct (decide (x = a)) as [->|Hne].
    + exists b1. rewrite list_lookup_insert_eq by (by eapply lookup_lt_Some).
      split; [done|]. assert (bx = b) by congruence. subst bx.
      destruct (Bucket_Insert_depth b key value) as [Ed _]. rewrite Hins in Ed.
      simpl in Ed. lia.
    + exists bx. rewrite list_lookup_insert_ne by done. split; [done | lia].
  - done.
  - destruct (IH _ _ _ _ (Inv_split_table t key a b HI Ha Hb Hd ob' db' Hsp) H)
      as (Ebs & Hg & Hn & Hgn & Hbk).
    destruct (split_data_facts t key a b HI Ha Hb Hd ob' db' Hsp) as (Hdo & _).
    unfold split_table in Ebs, Hg, Hn, Hgn. simpl in Ebs, Hg, Hn, Hgn.
    split; [done|].
    assert (Hstep : global_depth_ t
                    ≤ (if depth_ b =? global_depth_ t then global_depth_ t + 1
                       else global_depth_ t) ≤ global_depth_ t + 1)
      by (destruct (depth_ b =? global_depth_ t); lia).
    split; [lia|]. split; [lia|]. split; [lia|].
    intros x bx Hx.
    assert (Hx' : ∃ bx1, buckets (split_table t key a b ob' db') !! x = Some bx1
                         ∧ depth_ bx ≤ depth_ bx1).
    { unfold split_table. simpl. destruct (decide (x = a)) as [->|Hne].
      - exists ob'. rewrite lookup_app_l
          by (rewrite length_insert; by eapply lookup_lt_Some).
        rewrite list_lookup_insert_eq by (by eapply lookup_lt_Some).
        split; [done|]. assert (bx = b) by congruence. subst bx. lia.
      - exists bx. rewrite lookup_app_l
          by (rewrite length_insert; by eapply lookup_lt_Some).
        rewrite list_lookup_insert_ne by done. split; [done | lia]. }
    destruct Hx' as (bx1 & Hx1 & Hle1).
    destruct (Hbk x bx1 Hx1) as (bx' & Hx' & Hle'). exists bx'. split; [done | lia].
Qed.

(** X16. [Insert] never shrinks a reachable table: the global depth and the
    bucket count do not decrease, the bucket count grows at least as much as
    the global depth, the bucket size stays, and every bucket stays at its
    address with a local depth that is at least what it was. *)
Theorem Insert_never_shrinks
    (t t' : ExtendibleHashTable) (fuel : nat) (key : K) (value : V) :
  reachable t → Insert fuel t key value = Ok t' →
  bucket_size_ t' = bucket_size_ t
  ∧ GetGlobalDepth t ≤ GetGlobalDepth t'
  ∧ GetNumBuckets t ≤ GetNumBuckets t'
  ∧ GetGlobalDepth t' - GetGlobalDepth t ≤ GetNumBuckets t' - GetNumBuckets t
  ∧ ∀ x bx, buckets t !! x = Some bx →
      ∃ bx', buckets t' !! x = Some bx' ∧ depth_ bx ≤ depth_ bx'.
Proof.
  intros Hr H. apply (Insert_grows fuel t key value t' (reachable_Inv t Hr) H).
Qed.

(** ** A table without room *)

Lemma Bucket_Insert_no_room b key value :
  list_ b = [] → size_ b ≤ 0 → Bucket_Insert b key value = (false, b).
Proof.
  intros El Hs. unfold Bucket_Insert, IsFull. rewrite El. cbn [assign_item length].
  destruct (Z.leb_spec (size_ b) (Z.of_nat 0)); [done | lia].
Qed.

Lemma Insert_no_room fuel : ∀ t key value t',
  Inv t → tidy t → bucket_size_ t ≤ 0 → Insert fuel t key value ≠ Ok t'.
Proof.
  induction fuel as [|n IH]; intros t key value t' HI Ht Hbs H; [done|].
  simpl in H.
  destruct (Insert_pass_cases t key value HI)
    as (a & b & Ha & Hb & [(b1 & Hins & Hp)|[(_ & _ & Hp)|(Hins & Hd & ob' & db' & Hsp & Hp)]]);
    rewrite Hp in H.
  - destruct (Ht a b Hb) as [_ Hlen].
    destruct (inv_target t HI _ a Ha) as (b0 & Hb0 & _ & Hsz).
    assert (b0 = b) by congruence. subst b0.
    assert (El : list_ b = []) by (destruct (list_ b); [done | simpl in Hlen; lia]).
    rewrite (Bucket_Insert_no_room b key value El) in Hins by lia. done.
  - done.
  - apply (IH (split_table t key a b ob' db') key value t'
             (Inv_split_table t key a b HI Ha Hb Hd ob' db' Hsp)
             (split_table_tidy t key a b HI Ha Hb Hd Ht ob' db' Hsp)); done.
Qed.

(** X17. An [Insert] that returns had room to work with: on a reachable
    table whose bucket size is 0 no call of [Insert] returns, for any key
    and however long the loop runs. *)
Theorem Insert_needs_room
    (t t' : ExtendibleHashTable) (fuel : nat) (key : K) (value : V) :
  reachable t → Insert fuel t key value = Ok t' → 1 ≤ bucket_size_ t.
Proof.
  intros Hr H. destruct (Z.le_gt_cases 1 (bucket_size_ t)) as [?|Hlt]; [done|].
  exfalso.
  apply (Insert_no_room fuel t key value t' (reachable_Inv t Hr) (reachable_tidy t Hr));
    [lia | done].
Qed.

(** ** Counting entries *)

Lemma sum_list_insert {A} (f : A → nat) (l : list A) (a : nat) (x y : A) :
  l !! a = Some x →
  (sum_list_with f (<[a := y]> l) + f x = sum_list_with f l + f y)%nat.
Proof.
  revert a. induction l as [|z l IH]; intros [|a] H; simpl in *; try done.
  - injection H as ->. lia.
  - specialize (IH a H). lia.
Qed.

Lemma filter_split_length {A} (P : A → Prop) `{∀ x, Decision (P x)}
    (Q : A → Prop) `{∀ x, Decision (Q x)} (l : list A) :
  (∀ x, Q x ↔ ¬ P x) →
  (length (filter P l) + length (filter Q l) = length l)%nat.
Proof.
  intros HQ. induction l as [|x l IH]; [done|].
  destruct (decide (P x)) as [Hp|Hp].
  - rewrite (filter_cons_True P) by done.
    rewrite (filter_cons_False Q) by (rewrite HQ; tauto). simpl. lia.
  - rewrite (filter_cons_False P) by done.
    rewrite (filter_cons_True Q) by (by rewrite HQ). simpl. lia.
Qed.

Lemma entries_set_bucket t a b b' :
  buckets t !! a = Some b →
  (entries (set_bucket t a b') + length (list_ b)
   = entries t + length (list_ b'))%nat.
Proof.
  intros Hb. unfold entries. simpl.
  by apply (sum_list_insert (λ b0 : Bucket, length (list_ b0))).
Qed.

Lemma entries_split_table t key a b ob' db' :
  Inv t → tidy t →
  dir_ t !! Z.to_nat (hash key mod 2 ^ global_depth_ t) = Some a →
  buckets t !! a = Some b → depth_ b + 1 ≤ 30 →
  split_data t key b = Some (ob', db') →
  entries (split_table t key a b ob' db') = entries t.
Proof.
  intros HI Ht Ha Hb Hd Hsp.
  destruct (split_data_facts t key a b HI Ha Hb Hd ob' db' Hsp)
    as (_ & _ & _ & _ & Hlo & _).
  pose proof (split_data_divide t key a b HI Ha Hb Hd Ht ob' db' Hsp) as Hld.
  unfold entries, split_table. simpl. rewrite sum_list_with_app. simpl.
  pose proof (sum_list_insert (λ b0 : Bucket, length (list_ b0)) (buckets t) a b ob' Hb)
    as Hsum.
  simpl in Hsum. rewrite Hlo in Hsum. rewrite Hld.
  pose proof (filter_split_length
    (λ kv : K * V, hash kv.1 mod 2 ^ (depth_ b + 1)
                   = (hash key mod 2 ^ global_depth_ t) mod 2 ^ (depth_ b + 1))
    (λ kv : K * V, hash kv.1 mod 2 ^ (depth_ b + 1)
                   ≠ (hash key mod 2 ^ global_depth_ t) mod 2 ^ (depth_ b + 1))
    (list_ b) ltac:(done)).
  lia.
Qed.

Lemma Bucket_Insert_length b key value b1 :
  Bucket_Insert b key value = (true, b1) →
  length (list_ b1)
  = (length (list_ b) + match Bucket_Find b key with Some _ => 0 | None => 1 end)%nat.
Proof.
  unfold Bucket_Insert, Bucket_Find. intros H.
  destruct (assign_item (list_ b) key value) as [l|] eqn:Ea.
  - injection H as <-. simpl. rewrite (assign_item_length _ _ _ _ Ea).
    destruct (find_item (list_ b) key) eqn:Ef; [lia|].
    apply (assign_item_None _ _ value) in Ef. congruence.
  - apply assign_item_None in Ea. rewrite Ea.
    destruct (IsFull b); [done|]. injection H as <-. simpl. by rewrite length_app.
Qed.

Lemma Insert_entries fuel : ∀ t key value t',
  Inv t → tidy t → Insert fuel t key value = Ok t' →
  entries t'
  = (entries t + match binding t key with Some (Some _) => 0 | _ => 1 end)%nat.
Proof.
  induction fuel as [|n IH]; intros t key value t' HI Ht H; [done|].
  simpl in H.
  destruct (Insert_pass_cases t key value HI)
    as (a & b & Ha & Hb & [(b1 & Hins & Hp)|[(_ & _ & Hp)|(Hins & Hd & ob' & db' & Hsp & Hp)]]);
    rewrite Hp in H.
  - injection H as <-.
    destruct (Find_defined t key HI) as (a0 & b0 & Ha0 & Hb0 & EF).
    assert (a0 = a) by congruence. subst a0.
    assert (b0 = b) by congruence. subst b0.
    unfold binding. rewrite EF. simpl.
    pose proof (entries_set_bucket t a b b1 Hb) as He.
    rewrite (Bucket_Insert_length b key value b1 Hins) in He.
    destruct (Bucket_Find b key); lia.
  - done.
  - rewrite (IH (split_table t key a b ob' db') key value t'
               (Inv_split_table t key a b HI Ha Hb Hd ob' db' Hsp)
               (split_table_tidy t key a b HI Ha Hb Hd Ht ob' db' Hsp) H).
    rewrite (entries_split_table t key a b ob' db' HI Ht Ha Hb Hd Hsp).
    by rewrite (split_table_binding t key a b HI Ha Hb Hd Ht ob' db' Hsp).
Qed.

(** X18. The buckets of a reachable table gain exactly one entry when
    [Insert] binds a key that was not bound and none when it overwrites, the
    splits on the way neither lose nor duplicate an entry, and they lose
    exactly one entry when [Remove] returns [true] and none otherwise. *)
Theorem entries_are_counted (t : ExtendibleHashTable) :
  reachable t →
  (∀ fuel key value t', Insert fuel t key value = Ok t' →
     entries t'
     = (entries t + match binding t key with Some (Some _) => 0 | _ => 1 end)%nat)
  ∧ (∀ key r t', Remove t key = Some (r, t') →
       entries t = (entries t' + if r then 1 else 0)%nat).
Proof.
  intros Hr. pose proof (reachable_Inv t Hr) as HI.
  pose proof (reachable_tidy t Hr) as Ht. split.
  - intros fuel key value t'. by apply Insert_entries.
  - intros key r t' H. destruct (Remove_defined t key HI) as (a & b & Ha & Hb & E).
    rewrite E in H. destruct (Bucket_Find b key) as [v0|] eqn:Hf; injection H as <- <-.
    + pose proof (entries_set_bucket t a b (Bucket_Remove b key).2 Hb) as He.
      pose proof (erase_item_length (list_ b) key) as Hl.
      assert (Hfound : (erase_item (list_ b) key).1 = true)
        by (apply erase_item_found; unfold Bucket_Find in Hf; eauto).
      rewrite Hfound in Hl. rewrite Bucket_Remove_list in He. lia.
    + lia.
Qed.

(** ** The slot of a key *)

(** X19. [IndexOf] has a defined result exactly for global depths 0 to 30,
    where the [int] mask does not overflow; the result is the hash modulo
    2^depth, that is the low [depth] bits of the hash and nothing above
    them, so it is the index of a slot. *)
Theorem IndexOf_low_bits (g : Z) (key : K) :
  (is_Some (IndexOf g key) ↔ 0 ≤ g ≤ 30)
  ∧ ∀ i, IndexOf g key = Some i →
      i = hash key mod 2 ^ g
      ∧ 0 ≤ i < 2 ^ g
      ∧ ∀ j, 0 ≤ j → Z.testbit i j = if j <? g then Z.testbit (hash key) j else false.
Proof.
  split.
  - split.
    + intros [i Hi]. by destruct (IndexOf_Some g key i Hi).
    + intros Hg. rewrite (IndexOf_value g key Hg). by eexists.
  - intros i Hi. destruct (IndexOf_Some g key i Hi) as [Hg ->].
    split; [done|]. split; [apply mod_pow2_range; lia|].
    intros j Hj. destruct (Z.ltb_spec j g).
    + apply Z.mod_pow2_bits_low. lia.
    + apply Z.mod_pow2_bits_high. lia.
Qed.

(** ** Inserting the same binding again *)

Lemma assign_item_same l key value :
  find_item l key = Some value → assign_item l key value = Some l.
Proof.
  induction l as [|[k v] l IH]; simpl; [done|].
  destruct (decide (k = key)) as [->|Hne].
  - by intros [= ->].
  - intros H. by rewrite (IH H).
Qed.

Lemma set_bucket_same t a b : buckets t !! a = Some b → set_bucket t a b = t.
Proof.
  intros Hb. unfold set_bucket. rewrite (list_insert_id _ _ _ Hb). by destruct t.
Qed.

(** X20. [Insert] is idempotent: once [Insert(key, value)] has returned, a
    second [Insert(key, value)] returns at its first pass and leaves the
    table exactly as it is, directory, buckets and entry order included. *)
Theorem Insert_twice_is_once
    (t t1 : ExtendibleHashTable) (fuel n : nat) (key : K) (value : V) :
  Insert fuel t key value = Ok t1 → Insert (S n) t1 key value = Ok t1.
Proof.
  intros H. destruct (Insert_Ok_slot fuel t key value t1 H) as (i & a & b & Hi & Hat & Hf).
  assert (Hins : Bucket_Insert b key value = (true, b)).
  { unfold Bucket_Insert. unfold Bucket_Find in Hf.
    rewrite (assign_item_same _ _ _ Hf). by destruct b. }
  simpl. rewrite (Insert_pass_Returned t1 key value i a b b Hi Hat Hins).
  f_equal. apply set_bucket_same.
  unfold bucket_at in Hat. apply bind_Some in Hat as (a0 & Ha0 & Hat).
  apply bind_Some in Hat as (b0 & Hb0 & Hat). by injection Hat as -> ->.
Qed.

End Table.

End EHT.

(* ===================================================================== *)
(** * Scenarios of the specification, with [int] keys                     *)
(* ===================================================================== *)

Module Scenarios.

Import EHT.

(** [std::hash<int>]: the key converted to [size_t]. *)
Definition int_hash (x : Z) : Z := to_size_t x.

(** Scenario H1: [bucket_capacity = 2], after [Insert(0,0)], after
    [Insert(4,4)] and after [Insert(2,2)]. *)
Definition H1_first : @ExtendibleHashTable Z Z :=
  {| global_depth_ := 0; bucket_size_ := 2; num_buckets_ := 1;
     dir_ := [0%nat];
     buckets := [ {| size_ := 2; depth_ := 0; list_ := [(0, 0)] |} ] |}.

Definition H1_second : @ExtendibleHashTable Z Z :=
  {| global_depth_ := 0; bucket_size_ := 2; num_buckets_ := 1;
     dir_ := [0%nat];
     buckets := [ {| size_ := 2; depth_ := 0; list_ := [(0, 0); (4, 4)] |} ] |}.

Definition H1_third : @ExtendibleHashTable Z Z :=
  {| global_depth_ := 2; bucket_size_ := 2; num_buckets_ := 3;
     dir_ := [0%nat; 1%nat; 2%nat; 1%nat];
     buckets := [ {| size_ := 2; depth_ := 2; list_ := [(0, 0); (4, 4)] |};
                  {| size_ := 2; depth_ := 1; list_ := [] |};
                  {| size_ := 2; depth_ := 2; list_ := [(2, 2)] |} ] |}.

(** Scenario H2: [bucket_capacity = 1], after [Insert(7,"a")]. *)
Definition H2_first : @ExtendibleHashTable Z string :=
  {| global_depth_ := 0; bucket_size_ := 1; num_buckets_ := 1;
     dir_ := [0%nat];
     buckets := [ {| size_ := 1; depth_ := 0; list_ := [(7, "a"%string)] |} ] |}.

(** Buckets of one entry, holding the key 0. *)
Definition lone_zero : @ExtendibleHashTable Z Z :=
  {| global_depth_ := 0; bucket_size_ := 1; num_buckets_ := 1;
     dir_ := [0%nat];
     buckets := [ {| size_ := 1; depth_ := 0; list_ := [(0, 0)] |} ] |}.

Lemma H1_first_reachable : reachable int_hash H1_first.
Proof.
  apply (reach_Insert int_hash (new 2) 31 0 0); [|vm_compute; reflexivity].
  apply reach_new. split; [lia | reflexivity].
Qed.

Lemma H1_second_reachable : reachable int_hash H1_second.
Proof.
  apply (reach_Insert int_hash H1_first 31 4 4); [|vm_compute; reflexivity].
  apply H1_first_reachable.
Qed.

Lemma H1_third_reachable : reachable int_hash H1_third.
Proof.
  apply (reach_Insert int_hash H1_second 31 2 2); [|vm_compute; reflexivity].
  apply H1_second_reachable.
Qed.

Lemma lone_zero_reachable : reachable int_hash lone_zero.
Proof.
  apply (reach_Insert int_hash (new 1) 31 0 0); [|vm_compute; reflexivity].
  apply reach_new. split; [lia | reflexivity].
Qed.

Lemma H1_second_stored k : stored H1_second k → k = 0 ∨ k = 4.
Proof.
  intros (a & b & v & Hb & Hin).
  destruct a as [|a]; simpl in Hb; [|discriminate]. injection Hb as <-. simpl in Hin.
  apply elem_of_cons in Hin as [[= -> _]|Hin]; [by left|].
  apply list_elem_of_singleton in Hin as [= -> _]. by right.
Qed.

Lemma lone_zero_stored k : stored lone_zero k → k = 0.
Proof.
  intros (a & b & v & Hb & Hin).
  destruct a as [|a]; simpl in Hb; [|discriminate]. injection Hb as <-. simpl in Hin.
  by apply list_elem_of_singleton in Hin as [= -> _].
Qed.

Lemma H1_second_separated : separated int_hash H1_second 2.
Proof.
  intros k1 k2 H1 H2 E.
  assert (Hk1 : k1 = 0 ∨ k1 = 4 ∨ k1 = 2)
    by (destruct H1 as [H1|H1]; [apply H1_second_stored in H1|]; tauto).
  assert (Hk2 : k2 = 0 ∨ k2 = 4 ∨ k2 = 2)
    by (destruct H2 as [H2|H2]; [apply H1_second_stored in H2|]; tauto).
  destruct Hk1 as [-> | [-> | ->]]; destruct Hk2 as [-> | [-> | ->]];
    try reflexivity; vm_compute in E; discriminate.
Qed.

(** Scenario H3: [bucket_capacity = 2], keys 1, 5, 9, then [Remove(5)]
    twice. *)
Example H3_remove_across_split :
  ∃ t1 t2 t3 t4,
    Insert int_hash 31 (new (V:=Z) 2) 1 1 = Ok t1
    ∧ Insert int_hash 31 t1 5 5 = Ok t2
    ∧ Insert int_hash 31 t2 9 9 = Ok t3
    ∧ binding int_hash t3 5 = Some (Some 5)
    ∧ Remove int_hash t3 5 = Some (true, t4)
    ∧ binding int_hash t4 5 = Some None
    ∧ Remove int_hash t4 5 = Some (false, t4).
Proof.
  eexists _, _, _, _.
  split; [vm_compute; reflexivity|]. split; [vm_compute; reflexivity|].
  split; [vm_compute; reflexivity|]. split; [vm_compute; reflexivity|].
  split; [vm_compute; reflexivity|]. split; [vm_compute; reflexivity|].
  vm_compute; reflexivity.
Qed.

(** C2, at the end of scenario H1. *)
Lemma coherence_witness : coherent int_hash H1_third.
Proof.
  apply coherence_is_invariant.
  apply (reach_Insert int_hash H1_second 31 2 2); [|vm_compute; reflexivity].
  apply (reach_Insert int_hash H1_first 31 4 4); [|vm_compute; reflexivity].
  apply (reach_Insert int_hash (new 2) 31 0 0); [|vm_compute; reflexivity].
  apply reach_new. split; [lia | reflexivity].
Defined.

(** C3, on the full bucket of scenario H1. *)
Lemma Insert_then_Find_witness :
  ∃ t1 t2,
    Insert int_hash 31 H1_second 2 2 = Ok t1
    ∧ Find int_hash t1 2 = Some (Some 2, t1)
    ∧ Insert int_hash 1 t1 2 7 = Ok t2
    ∧ Find int_hash t2 2 = Some (Some 7, t2).
Proof.
  destruct (Insert_then_Find int_hash H1_second 2 2 7) as [HA HB].
  destruct (HB H1_second_reachable ltac:(simpl; lia) H1_second_separated) as [t1 H1].
  destruct (HA 31%nat t1 H1) as (Hf1 & t2 & H2 & Hf2).
  exists t1, t2. split; [exact H1|]. split; [exact Hf1|].
  split; [apply H2; lia | exact Hf2].
Defined.

(** C4 and scenario H2: the second [Insert(7, ..)] overwrites in place. *)
Lemma H2_overwrite_witness :
  Insert int_hash 31 (new 1) 7 "a"%string = Ok H2_first
  ∧ ∃ t2, Insert int_hash 31 H2_first 7 "b"%string = Ok t2
          ∧ binding int_hash t2 7 = Some (Some "b"%string)
          ∧ GetNumBuckets t2 = 1
          ∧ GetGlobalDepth t2 = 0.
Proof.
  split; [vm_compute; reflexivity|].
  assert (Hb : binding int_hash H2_first 7 = Some (Some "a"%string))
    by (vm_compute; reflexivity).
  destruct (Insert_bound_key_keeps_shape int_hash H2_first 7 "b"%string "a"%string 30 Hb)
    as (t2 & Hins & Hg & _ & Hn & _ & _ & _ & _ & Hf).
  exists t2. split; [exact Hins|]. split; [exact Hf|].
  unfold GetNumBuckets, GetGlobalDepth. rewrite Hn, Hg. split; reflexivity.
Defined.

(** Scenario H1.  From a new table with the identity hash and
    [bucket_capacity = 2], [Insert(0,0)] and [Insert(4,4)] fill the one
    bucket; [Insert(2,2)] doubles the directory twice and splits twice: the
    first split leaves an empty bucket for the odd slots, the second
    separates [{0,4}] from [{2}].  Afterwards [GetGlobalDepth()] is 2,
    [Find(4)] gives 4, the directory points to three distinct buckets, and
    [GetNumBuckets()] is two more than on the new table, one [num_buckets_++]
    for each split.  The constructor does not set [num_buckets_], so the
    sources determine this increase and not the count itself. *)
Example H1_three_inserts :
  Insert int_hash 31 (new 2) 0 0 = Ok H1_first
  ∧ Insert int_hash 31 H1_first 4 4 = Ok H1_second
  ∧ Insert int_hash 31 H1_second 2 2 = Ok H1_third
  ∧ Insert int_hash 2 H1_second 2 2 = OutOfFuel
  ∧ GetGlobalDepth H1_third = 2
  ∧ GetNumBuckets H1_third = GetNumBuckets (new 2 : @ExtendibleHashTable Z Z) + 2
  ∧ size (list_to_set (dir_ H1_third) : gset nat) = 3%nat
  ∧ binding int_hash H1_third 4 = Some (Some 4).
Proof. repeat split; vm_compute; reflexivity. Qed.

(** C9, as stated, fails: the conversion to [size_t] is injective on the
    keys 0 and [INT_MIN = -2^31], and yet [Insert(INT_MIN, ..)] into a table
    of one-entry buckets that holds 0 never returns.  The two hashes differ
    from bit 31 on only, and no [int] mask reaches bit 31: the mask of depth
    31 already needs [(1 << 31) - 1], which overflows (and where that wraps
    to [INT_MAX] the two keys still agree on all its bits). *)
Lemma Insert_stuck_on_sign_bit :
  ¬ (∀ (t : @ExtendibleHashTable Z Z) key value,
       reachable int_hash t → 1 ≤ bucket_size_ t →
       injective_on_keys int_hash t key →
       ∃ fuel t', Insert int_hash fuel t key value = Ok t').
Proof.
  intros H.
  destruct (H lone_zero (- 2 ^ 31) 1 lone_zero_reachable) as (fuel & t' & Hins).
  - simpl. lia.
  - intros k1 k2 H1 H2 E.
    assert (Hk1 : k1 = 0 ∨ k1 = - 2 ^ 31)
      by (destruct H1 as [H1|H1]; [apply lone_zero_stored in H1|]; tauto).
    assert (Hk2 : k2 = 0 ∨ k2 = - 2 ^ 31)
      by (destruct H2 as [H2|H2]; [apply lone_zero_stored in H2|]; tauto).
    destruct Hk1 as [-> | ->]; destruct Hk2 as [-> | ->];
      try reflexivity; vm_compute in E; discriminate.
  - revert Hins.
    apply (Insert_single_never_returns int_hash fuel lone_zero (- 2 ^ 31) 1 0%nat 0 0 0).
    + apply reachable_Inv, lone_zero_reachable.
    + reflexivity.
    + reflexivity.
    + reflexivity.
    + discriminate.
    + vm_compute. reflexivity.
Qed.

(** What that call does: 30 splits, up to a directory of 2^30 slots, and
    then the mask for depth 31. *)
Lemma Insert_sign_bit_outcome (fuel : nat) :
  Insert int_hash fuel lone_zero (- 2 ^ 31) 1
  = if decide (fuel ≤ 30)%nat then OutOfFuel else Undefined.
Proof.
  rewrite (Insert_single_outcome int_hash fuel lone_zero (- 2 ^ 31) 1 0%nat 0 0 0).
  - destruct (decide (fuel ≤ 30)%nat);
      [rewrite decide_True by lia | rewrite decide_False by lia]; done.
  - apply reachable_Inv, lone_zero_reachable.
  - reflexivity.
  - reflexivity.
  - reflexivity.
  - discriminate.
  - vm_compute. reflexivity.
Qed.

(** C9, on the full bucket of scenario H1. *)
Lemma Insert_terminates_witness :
  ∃ fuel t', (fuel ≤ 31)%nat ∧ Insert int_hash fuel H1_second 2 2 = Ok t'.
Proof.
  apply (Insert_terminates int_hash H1_second 2 2).
  - apply (reach_Insert int_hash H1_first 31 4 4); [|vm_compute; reflexivity].
    apply (reach_Insert int_hash (new 2) 31 0 0); [|vm_compute; reflexivity].
    apply reach_new. split; [lia | reflexivity].
  - simpl. lia.
  - exact H1_second_separated.
Defined.

(** C10, at the end of scenario H1. *)
Lemma Find_Remove_frame_witness :
  (∃ r, Find int_hash H1_third 4 = Some (r, H1_third))
  ∧ ∃ r t', Remove int_hash H1_third 4 = Some (r, t')
            ∧ global_depth_ t' = 2
            ∧ dir_ t' = dir_ H1_third
            ∧ num_buckets_ t' = 3
            ∧ binding int_hash t' 0 = Some (Some 0).
Proof.
  destruct (Find_Remove_frame int_hash H1_third 4 H1_third_reachable)
    as (HF & r & t' & a & HR & _ & Hg & Hd & Hn & _ & _ & _ & _ & Hk).
  split; [exact HF|]. exists r, t'.
  split; [exact HR|]. split; [exact Hg|]. split; [exact Hd|]. split; [exact Hn|].
  rewrite (Hk 0) by discriminate. vm_compute. reflexivity.
Defined.

(** The buckets at the end of scenario H1 respect the bucket size 2. *)
Lemma buckets_within_capacity_witness :
  ∃ b, buckets H1_third !! 0%nat = Some b
       ∧ NoDup (list_ b).*1
       ∧ Z.of_nat (length (list_ b)) ≤ bucket_size_ H1_third.
Proof.
  exists {| size_ := 2; depth_ := 2; list_ := [(0, 0); (4, 4)] |}.
  split; [reflexivity|].
  destruct (buckets_within_capacity int_hash H1_third 0
              {| size_ := 2; depth_ := 2; list_ := [(0, 0); (4, 4)] |}
              H1_third_reachable eq_refl) as (HA & _ & HB).
  split; [exact HA | exact HB].
Defined.

(** The entry of key 4 at the end of scenario H1. *)
Lemma stored_entries_are_found_witness :
  Find int_hash H1_third 4 = Some (Some 4, H1_third)
  ∧ (stored H1_third 4 ↔ ∃ v, binding int_hash H1_third 4 = Some (Some v)).
Proof.
  destruct (stored_entries_are_found int_hash H1_third 4 H1_third_reachable)
    as [HA HB].
  split; [|exact HB].
  destruct (HA 0%nat {| size_ := 2; depth_ := 2; list_ := [(0, 0); (4, 4)] |} 4)
    as [_ HF]; [reflexivity | | exact HF].
  right. left.
Defined.

(** The third insert of scenario H1 splits twice and keeps the binding of
    key 4. *)
Lemma Insert_keeps_other_bindings_witness :
  binding int_hash H1_third 4 = binding int_hash H1_second 4.
Proof.
  apply (Insert_keeps_other_bindings int_hash H1_second H1_third 31 2 4 2).
  - exact H1_second_reachable.
  - vm_compute. reflexivity.
  - discriminate.
Defined.

(** [Remove(4)] at the end of scenario H1. *)
Lemma Remove_unbinds_witness :
  ∃ t', Remove int_hash H1_third 4 = Some (true, t')
        ∧ binding int_hash t' 4 = Some None
        ∧ Remove int_hash t' 4 = Some (false, t').
Proof.
  destruct (Remove int_hash H1_third 4) as [[r t']|] eqn:E;
    [|vm_compute in E; discriminate].
  assert (Hr : r = true).
  { assert (H : fst <$> Remove int_hash H1_third 4 = Some true)
      by (vm_compute; reflexivity).
    rewrite E in H. simpl in H. by injection H. }
  subst r. exists t'. split; [reflexivity|].
  destruct (Remove_unbinds int_hash H1_third t' 4 true H1_third_reachable E)
    as (_ & HA & _ & HB & _).
  split; [exact HA | exact HB].
Defined.

(** The getters at the end of scenario H1. *)
Lemma getters_on_reachable_witness :
  GetGlobalDepth H1_third = 2
  ∧ GetLocalDepth H1_third 1 = Some 1
  ∧ GetLocalDepth H1_third (-1) = None
  ∧ GetNumBuckets H1_third = Z.of_nat (size (list_to_set (dir_ H1_third) : gset nat)).
Proof.
  destruct (getters_on_reachable int_hash H1_third H1_third_reachable)
    as (_ & _ & HL & _ & _ & HN).
  split; [reflexivity|]. split; [reflexivity|]. split; [|exact HN].
  destruct (GetLocalDepth H1_third (-1)) as [d|] eqn:E; [|reflexivity].
  exfalso. assert (Hs : is_Some (GetLocalDepth H1_third (-1))) by (rewrite E; eauto).
  apply HL in Hs. vm_compute in Hs. discriminate Hs.
Defined.

(** The third insert of scenario H1: two splits, two doublings. *)
Lemma Insert_never_shrinks_witness :
  GetGlobalDepth H1_second ≤ GetGlobalDepth H1_third
  ∧ GetNumBuckets H1_second ≤ GetNumBuckets H1_third.
Proof.
  destruct (Insert_never_shrinks int_hash H1_second H1_third 31 2 2
              H1_second_reachable) as (_ & HA & HB & _).
  - vm_compute. reflexivity.
  - split; [exact HA | exact HB].
Defined.

Lemma Insert_needs_room_witness : 1 ≤ bucket_size_ H1_second.
Proof.
  apply (Insert_needs_room int_hash H1_second H1_third 31 2 2).
  - exact H1_second_reachable.
  - vm_compute. reflexivity.
Defined.

(** The third insert of scenario H1 adds one entry to the two there were. *)
Lemma entries_are_counted_witness :
  entries H1_third = (entries H1_second + 1)%nat.
Proof.
  destruct (entries_are_counted int_hash H1_second H1_second_reachable) as [HA _].
  apply (HA 31%nat 2 2 H1_third). vm_compute. reflexivity.
Defined.

(** Scenario H1 with its last insert repeated. *)
Lemma Insert_twice_is_once_witness :
  Insert int_hash 1 H1_third 2 2 = Ok H1_third.
Proof.
  apply (Insert_twice_is_once int_hash H1_second H1_third 31 0 2 2).
  vm_compute. reflexivity.
Defined.

End Scenarios.
